(** * spider.py: a depth-bounded image spider

    A shallow embedding of [spider_project/spider.py] (class [Spider]) and of
    the parts of the Python standard library its behaviour rests on
    ([str] methods, [urllib.parse], [os.path]).

    Conventions.
    - A Python [str] is a [string], text of 8-bit characters; the character
      predicates are those of ASCII text (a URL on the wire is ASCII), and
      characters above 127 are caseless non-letters.
    - [s.find(c)] returns [option nat], [None] standing for [-1].
    - A raised exception is a value of [exn]; code that may raise lives in
      the monad [M], which keeps the state reached when the exception left.
    - The network, the directories of the host, the file system's refusal
      to open a file or to write all of it, and the iteration order of a
      Python [set] are the fields of the class [World]; tables of the
      standard library that the source only looks up are the fields of the
      class [Library].
    - The stack of the interpreter is taken to be deep enough for the calls
      of [crawl] that are nested: no [RecursionError] is raised.
    - [urlsplit], [urlparse] and [urljoin] follow [urllib/parse.py] of
      CPython 3.11 line by line.
    - [Spider.run] takes the namespace that [parse_args] returns;
      [argparse] itself is left out. *)

From Stdlib Require Import Ascii String ZArith Lia.
From stdpp Require Import base option list gmap strings pretty.

#[local] Set Warnings "-clear-no-such-hyp".

(** ** Python [str] methods *)

Module Py.

Definition chr_eqb (a b : ascii) : bool := Ascii.eqb a b.

(** [not s] *)
Definition is_empty (s : string) : bool :=
  match s with EmptyString => true | String _ _ => false end.

(** [s[:n]] for [0 <= n] *)
Fixpoint take (n : nat) (s : string) : string :=
  match n, s with
  | S n', String a r => String a (take n' r)
  | _, _ => EmptyString
  end.

(** [s[n:]] for [0 <= n] *)
Fixpoint drop (n : nat) (s : string) : string :=
  match n, s with
  | S n', String _ r => drop n' r
  | _, _ => s
  end.

(** [s[i:j]] for [0 <= i], [0 <= j] *)
Definition slice (i j : nat) (s : string) : string := take (j - i) (drop i s).

(** [s.find(c)] *)
Fixpoint find (c : ascii) (s : string) : option nat :=
  match s with
  | EmptyString => None
  | String a r => if chr_eqb a c then Some 0 else S <$> find c r
  end.

(** [s.find(c, start)] *)
Definition find_from (c : ascii) (s : string) (start : nat) : option nat :=
  (λ i, start + i) <$> find c (drop start s).

(** [s.rfind(c)] *)
Fixpoint rfind (c : ascii) (s : string) : option nat :=
  match s with
  | EmptyString => None
  | String a r =>
      match rfind c r with
      | Some i => Some (S i)
      | None => if chr_eqb a c then Some 0 else None
      end
  end.

(** [c in s] for a single character *)
Definition has_chr (c : ascii) (s : string) : bool := bool_decide (is_Some (find c s)).

(** [s.startswith(p)] *)
Fixpoint startswith (p s : string) : bool :=
  match p, s with
  | EmptyString, _ => true
  | String a p', String b s' => chr_eqb a b && startswith p' s'
  | String _ _, EmptyString => false
  end.

(** [s.endswith(suf)] *)
Fixpoint endswith (suf s : string) : bool :=
  if String.eqb s suf then true
  else match s with
       | EmptyString => false
       | String _ r => endswith suf r
       end.

(** [t in s] *)
Fixpoint contains (t s : string) : bool :=
  if startswith t s then true
  else match s with
       | EmptyString => false
       | String _ r => contains t r
       end.

(** [s.lstrip(chars)], the set [chars] given as a predicate *)
Fixpoint lstrip (P : ascii → bool) (s : string) : string :=
  match s with
  | EmptyString => EmptyString
  | String a r => if P a then lstrip P r else s
  end.

(** [s.rstrip(chars)] *)
Fixpoint rstrip (P : ascii → bool) (s : string) : string :=
  match s with
  | EmptyString => EmptyString
  | String a r =>
      match rstrip P r with
      | EmptyString => if P a then EmptyString else String a EmptyString
      | r' => String a r'
      end
  end.

(** [s.strip(chars)] *)
Definition strip (P : ascii → bool) (s : string) : string := rstrip P (lstrip P s).

(** [s.replace(c, "")] *)
Fixpoint remove_chr (c : ascii) (s : string) : string :=
  match s with
  | EmptyString => EmptyString
  | String a r => if chr_eqb a c then remove_chr c r else String a (remove_chr c r)
  end.

Definition map_chr (f : ascii → ascii) : string → string :=
  fix go s := match s with
              | EmptyString => EmptyString
              | String a r => String (f a) (go r)
              end.

Definition forall_chr (P : ascii → bool) : string → bool :=
  fix go s := match s with
              | EmptyString => true
              | String a r => P a && go r
              end.

Definition in_range (lo hi : nat) (c : ascii) : bool :=
  (lo <=? nat_of_ascii c)%nat && (nat_of_ascii c <=? hi)%nat.

Definition is_upper (c : ascii) : bool := in_range 65 90 c.
Definition is_lower (c : ascii) : bool := in_range 97 122 c.
Definition is_digit (c : ascii) : bool := in_range 48 57 c.

(** [c.isascii() and c.isalpha()] *)
Definition is_ascii_alpha (c : ascii) : bool := is_upper c || is_lower c.

Definition lower_chr (c : ascii) : ascii :=
  if is_upper c then ascii_of_nat (nat_of_ascii c + 32) else c.

(** [s.lower()] *)
Definition lower : string → string := map_chr lower_chr.

(** [s.isascii()] *)
Definition isascii : string → bool :=
  forall_chr (λ c, (nat_of_ascii c <? 128)%nat).

(** [c.isspace()]: 9-13, 28-32, and NEL and NBSP among the 8-bit characters *)
Definition is_space (c : ascii) : bool :=
  in_range 9 13 c || in_range 28 32 c
  || (nat_of_ascii c =? 133)%nat || (nat_of_ascii c =? 160)%nat.

(** [s.strip()] *)
Definition strip_ws : string → string := strip is_space.

(** [s.split(c)]: never the empty list *)
Fixpoint split (c : ascii) (s : string) : list string :=
  match s with
  | EmptyString => [EmptyString]
  | String a r =>
      if chr_eqb a c then EmptyString :: split c r
      else match split c r with
           | h :: t => String a h :: t
           | [] => [String a EmptyString]
           end
  end.

(** [sep.join(l)] *)
Definition join (sep : string) (l : list string) : string := String.concat sep l.

(** [s.partition(c)]: [(before, found, after)] *)
Definition partition (c : ascii) (s : string) : string * bool * string :=
  match find c s with
  | Some i => (take i s, true, drop (S i) s)
  | None => (s, false, EmptyString)
  end.

(** [s.rpartition(c)]: [(before, found, after)] *)
Definition rpartition (c : ascii) (s : string) : string * bool * string :=
  match rfind c s with
  | Some i => (take i s, true, drop (S i) s)
  | None => (EmptyString, false, s)
  end.

End Py.

(** ** Exceptions and standard-library tables *)

Inductive exn : Type :=
  | ValueError
  | NameError (name : string)
  | OSError.

(** What the source only looks up in the standard library:
    [ipaddress.ip_address(h)] accepting [h] as an IPv6 address, and the table
    behind [mimetypes.guess_extension]. *)
Class Library : Type := {
  is_ipv6_address : string → bool;
  guess_extension : string → option string
}.

(** ** [urllib.parse] *)

Module Urllib.
Import Py.

Record SplitResult : Type := mkSplit {
  sr_scheme : string;
  sr_netloc : string;
  sr_path : string;
  sr_query : string;
  sr_fragment : string
}.

Record ParseResult : Type := mkParse {
  scheme : string;
  netloc : string;
  path : string;
  params : string;
  query : string;
  fragment : string
}.

Definition str_in (s : string) (l : list string) : bool := bool_decide (s ∈ l).

Definition uses_relative : list string :=
  [""; "ftp"; "http"; "gopher"; "nntp"; "imap"; "wais"; "file"; "https";
   "shttp"; "mms"; "prospero"; "rtsp"; "rtspu"; "sftp"; "svn"; "svn+ssh";
   "ws"; "wss"].

Definition uses_netloc : list string :=
  [""; "ftp"; "http"; "gopher"; "nntp"; "telnet"; "imap"; "wais"; "file";
   "mms"; "https"; "shttp"; "snews"; "prospero"; "rtsp"; "rtspu"; "rsync";
   "svn"; "svn+ssh"; "sftp"; "nfs"; "git"; "git+ssh"; "ws"; "wss"].

Definition uses_params : list string :=
  [""; "ftp"; "hdl"; "prospero"; "http"; "imap"; "https"; "shttp"; "rtsp";
   "rtspu"; "sip"; "sips"; "mms"; "sftp"; "tel"].

Definition scheme_chars (c : ascii) : bool :=
  is_lower c || is_upper c || is_digit c
  || chr_eqb c "+" || chr_eqb c "-" || chr_eqb c ".".

(** [_WHATWG_C0_CONTROL_OR_SPACE] *)
Definition c0_control_or_space (c : ascii) : bool := (nat_of_ascii c <=? 32)%nat.

(** [for b in _UNSAFE_URL_BYTES_TO_REMOVE: s = s.replace(b, "")] *)
Definition remove_unsafe (s : string) : string :=
  remove_chr "010" (remove_chr "013" (remove_chr "009" s)).

Definition splitparams (url : string) : string * string :=
  if has_chr "/" url then
    match find_from ";" url (default 0 (rfind "/" url)) with
    | Some i => (take i url, drop (S i) url)
    | None => (url, "")
    end
  else
    match find ";" url with
    | Some i => (take i url, drop (S i) url)
    | None => (take (String.length url - 1) url, url)
    end.

Definition splitnetloc (url : string) (start : nat) : string * string :=
  let delim :=
    foldl (λ delim c, match find_from c url start with
                      | Some wdelim => delim `min` wdelim
                      | None => delim
                      end)
          (String.length url) ["/"; "?"; "#"]%char in
  (slice start delim url, drop delim url).

Definition is_hex (c : ascii) : bool :=
  is_digit c || in_range 97 102 c || in_range 65 70 c.

(** [re.match(r"\Av[a-fA-F0-9]+\..+\Z", hostname)] on a host free of newlines *)
Definition ipvfuture_ok (hostname : string) : bool :=
  match hostname with
  | String "v" r =>
      let r' := lstrip is_hex r in
      negb (String.eqb r' r) && startswith "." r' && (2 <=? String.length r')%nat
  | _ => false
  end.

(** [_check_bracketed_host]: [true] when it returns, [false] when it raises *)
Definition check_bracketed_host {L : Library} (hostname : string) : bool :=
  if startswith "v" hostname then ipvfuture_ok hostname
  else is_ipv6_address hostname.

(** [_check_bracketed_netloc]: [true] when it returns, [false] when it raises *)
Definition check_bracketed_netloc {L : Library} (netloc : string) : bool :=
  let hostname_and_port := (rpartition "@" netloc).2 in
  let '(before_bracket, have_open_br, bracketed) := partition "[" hostname_and_port in
  if have_open_br then
    if negb (is_empty before_bracket) then false
    else
      let '(hostname, _, port) := partition "]" bracketed in
      if negb (is_empty port) && negb (startswith ":" port) then false
      else check_bracketed_host hostname
  else
    let '(hostname, _, _) := partition ":" hostname_and_port in
    check_bracketed_host hostname.

(** the two checks of [urlsplit] on the brackets of a netloc: [true] when
    neither raises *)
Definition brackets_ok {L : Library} (netloc : string) : bool :=
  if (has_chr "[" netloc && negb (has_chr "]" netloc))
     || (has_chr "]" netloc && negb (has_chr "[" netloc)) then false
  else if has_chr "[" netloc && has_chr "]" netloc
  then check_bracketed_netloc netloc
  else true.

(** [url.lstrip(_WHATWG_C0_CONTROL_OR_SPACE)], then the unsafe bytes removed *)
Definition clean_url (url : string) : string :=
  remove_unsafe (lstrip c0_control_or_space url).

(** the scheme of [urlsplit]: what precedes the first colon, when it starts
    with a letter and is made of [scheme_chars]; else the default *)
Definition split_scheme (url scheme : string) : string * string :=
  match find ":" url, url with
  | Some (S i'), String u0 _ =>
      if is_ascii_alpha u0 && forall_chr scheme_chars (take (S i') url)
      then (lower (take (S i') url), drop (S (S i')) url)
      else (scheme, url)
  | _, _ => (scheme, url)
  end.

(** [url.split(c, 1)] when [c in url], for the fragment and the query *)
Definition split_at (c : ascii) (url : string) : string * string :=
  if has_chr c url
  then let '(before, _, after) := partition c url in (before, after)
  else (url, "").

(** [urlsplit(url, scheme)]; [None] is [ValueError].  [_checknetloc]
    returns at once for a netloc that is ASCII, and never raises on 8-bit
    text: no such character expands under NFKC to one of [/?#@:]. *)
Definition urlsplit {L : Library} (url scheme : string) : option SplitResult :=
  let url := clean_url url in
  let scheme := remove_unsafe (strip c0_control_or_space scheme) in
  let '(scheme, url) := split_scheme url scheme in
  '(netloc, url) ←
    (if String.eqb (take 2 url) "//" then
       let '(netloc, url) := splitnetloc url 2 in
       if brackets_ok netloc then Some (netloc, url) else None
     else Some ("", url));
  let '(url, fragment) := split_at "#" url in
  let '(url, query) := split_at "?" url in
  Some (mkSplit scheme netloc url query fragment).

(** [urlparse(url, scheme)] *)
Definition urlparse_with {L : Library} (url scheme : string) : option ParseResult :=
  splitresult ← urlsplit url scheme;
  let '(mkSplit scheme netloc url query fragment) := splitresult in
  let '(url, params) :=
    if str_in scheme uses_params && has_chr ";" url
    then splitparams url else (url, "") in
  Some (mkParse scheme netloc url params query fragment).

(** [urlparse(url)] *)
Definition urlparse {L : Library} (url : string) : option ParseResult :=
  urlparse_with url "".

Definition urlunsplit (scheme netloc url query fragment : string) : string :=
  let url :=
    if negb (is_empty netloc)
       || (negb (is_empty scheme) && str_in scheme uses_netloc
           && negb (String.eqb (take 2 url) "//"))
    then
      let url := if negb (is_empty url) && negb (String.eqb (take 1 url) "/")
                 then "/" +:+ url else url in
      "//" +:+ netloc +:+ url
    else url in
  let url := if negb (is_empty scheme) then scheme +:+ ":" +:+ url else url in
  let url := if negb (is_empty query) then url +:+ "?" +:+ query else url in
  let url := if negb (is_empty fragment) then url +:+ "#" +:+ fragment else url in
  url.

Definition urlunparse (p : ParseResult) : string :=
  let url := if negb (is_empty (params p))
             then path p +:+ ";" +:+ params p else path p in
  urlunsplit (scheme p) (netloc p) url (query p) (fragment p).

(** [segments[1:-1] = filter(None, segments[1:-1])] *)
Definition filter_middle (segments : list string) : list string :=
  match segments with
  | first :: (_ :: _) as rest =>
      first :: filter (λ s, is_empty s = false) (removelast rest)
            ++ [List.last rest ""]
  | _ => segments
  end.

(** the loop of [urljoin] over [segments] *)
Definition resolve_segments (segments : list string) : list string :=
  foldl (λ resolved_path seg,
           if String.eqb seg ".." then removelast resolved_path
           else if String.eqb seg "." then resolved_path
           else resolved_path ++ [seg])
        [] segments.

(** [urljoin(base, url)]; [None] is [ValueError] *)
Definition urljoin {L : Library} (base url : string) : option string :=
  if is_empty base then Some url
  else if is_empty url then Some base
  else
    b ← urlparse_with base "";
    u ← urlparse_with url (scheme b);
    if negb (String.eqb (scheme u) (scheme b))
       || negb (str_in (scheme u) uses_relative) then Some url
    else if str_in (scheme u) uses_netloc && negb (is_empty (netloc u)) then
      Some (urlunparse u)
    else
      let netloc' := if str_in (scheme u) uses_netloc then netloc b else netloc u in
      if is_empty (path u) && is_empty (params u) then
        let query' := if is_empty (query u) then query b else query u in
        Some (urlunparse (mkParse (scheme u) netloc' (path b) (params b)
                                  query' (fragment u)))
      else
        let base_parts := split "/" (path b) in
        let base_parts :=
          if negb (String.eqb (List.last base_parts "") "")
          then removelast base_parts else base_parts in
        let segments :=
          if String.eqb (take 1 (path u)) "/" then split "/" (path u)
          else filter_middle (base_parts ++ split "/" (path u)) in
        let resolved_path := resolve_segments segments in
        let resolved_path :=
          if String.eqb (List.last segments "") "."
             || String.eqb (List.last segments "") ".."
          then resolved_path ++ [""] else resolved_path in
        let joined := join "/" resolved_path in
        Some (urlunparse (mkParse (scheme u) netloc'
                                  (if is_empty joined then "/" else joined)
                                  (params u) (query u) (fragment u))).

End Urllib.

(** ** [os.path] (posixpath) *)

Module OsPath.
Import Py.

(** [os.path.basename(p)] *)
Definition basename (p : string) : string :=
  match rfind "/" p with
  | Some i => drop (S i) p
  | None => p
  end.

(** [os.path.splitext(p)]: the extension starts at the last dot of the last
    component, unless only dots precede it there *)
Definition splitext (p : string) : string * string :=
  let filenameIndex := match rfind "/" p with Some i => S i | None => 0 end in
  match rfind "." p with
  | Some dotIndex =>
      if (filenameIndex <=? dotIndex)%nat
         && negb (forall_chr (chr_eqb ".") (slice filenameIndex dotIndex p))
      then (take dotIndex p, drop dotIndex p)
      else (p, "")
  | None => (p, "")
  end.

(** [os.path.join(a, b)] *)
Definition join (a b : string) : string :=
  if startswith "/" b then b
  else if is_empty a || endswith "/" a then a +:+ b
  else a +:+ "/" +:+ b.

End OsPath.

(** ** The collaborators of the spider *)

(** What [BeautifulSoup(response.text, 'html.parser')] yields to the two
    queries the source makes, in document order. *)
Record Html : Type := mkHtml {
  a_href : list string;   (* a['href'] for a in soup.find_all('a', href=True) *)
  img_src : list string   (* img['src'] for img in soup.find_all('img', src=True) *)
}.

Record Response : Type := mkResponse {
  text : Html;
  content_type : option string;   (* response.headers.get('Content-Type') *)
  content : string                (* the chunks of response.iter_content *)
}.

Record HeadResponse : Type := mkHead {
  status_code : Z;
  head_content_type : option string
}.

(** The outside world, in a state [W] that every call may change.
    - [session_get]: [session.get(url, timeout)] followed by
      [raise_for_status()]; [None] when that raises a
      [requests.RequestException] or [socket.timeout].
    - [session_head]: [session.head(url, timeout, allow_redirects=True)];
      [None] when it raises.
    - [directories]: the paths that exist and are no file of the field
      [fs] of the spider, such as the directories; with the files they make
      up the paths of which [os.path.exists] is true.
    - [can_open]: whether [open(path, 'wb')] succeeds.
    - [write_fails]: [write_fails path data] is [Some partial] when, the
      file opened, [f.write] or the closing of the file raises [OSError],
      [partial] being what the file then holds; [None] when all of [data]
      is written.
    - [clock]: [int(time.time())].
    - [set_order]: the order in which [list(s)] yields the elements of a
      set [s] built by the given insertions. *)
Class World (W : Type) : Type := {
  session_get : string → W → option Response * W;
  session_head : string → W → option HeadResponse * W;
  directories : W → gset string;
  can_open : string → W → bool;
  write_fails : string → string → W → option string;
  clock : W → Z;
  set_order : list string → list string
}.

Inductive Request : Type :=
  | GET (url : string)
  | HEAD (url : string).

(** The lines the program prints. *)
Inductive Msg : Type :=
  | ErrorFetching (url : string)
  | Downloaded (img_url name : string)
  | FailedToDownload (img_url : string) (e : exn)
  | Crawling (normalized_url : string) (depth : Z).

(** A [Spider] object and what it acts on: the files that exist, the world,
    the lines printed and the requests sent so far. *)
Record Spider (W : Type) : Type := mkSpider {
  visited : gset string;
  download_path : string;
  fs : gmap string string;
  world : W;
  stdout : list Msg;
  requests : list Request
}.
Arguments mkSpider {W}.
Arguments visited {W}.
Arguments download_path {W}.
Arguments fs {W}.
Arguments world {W}.
Arguments stdout {W}.
Arguments requests {W}.

(** ** The monad of the methods: state and exceptions *)

Inductive result (A : Type) : Type :=
  | Ok (a : A)
  | Raise (e : exn).
Arguments Ok {A}.
Arguments Raise {A}.

Definition M (W A : Type) : Type := Spider W → result A * Spider W.

Definition ret {W A} (a : A) : M W A := λ st, (Ok a, st).

Definition raise {W A} (e : exn) : M W A := λ st, (Raise e, st).

Definition bind {W A B} (m : M W A) (k : A → M W B) : M W B :=
  λ st, match m st with
        | (Ok a, st') => k a st'
        | (Raise e, st') => (Raise e, st')
        end.

Notation "'let*' x ':=' m 'in' k" := (bind m (λ x, k))
  (at level 10, x name, m at level 100, k at level 200).
Notation "m ';;' k" := (bind m (λ _, k))
  (at level 100, k at level 200, right associativity).

(** [try: m except Exception as e: h(e)] *)
Definition try_except {W A} (m : M W A) (h : exn → M W A) : M W A :=
  λ st, match m st with
        | (Ok a, st') => (Ok a, st')
        | (Raise e, st') => h e st'
        end.

(** [for x in l: body(x)] *)
Fixpoint for_each {W A} (l : list A) (body : A → M W unit) : M W unit :=
  match l with
  | [] => ret ()
  | x :: l' => body x;; for_each l' body
  end.

Definition get_state {W} : M W (Spider W) := λ st, (Ok st, st).

Definition modify {W} (f : Spider W → Spider W) : M W unit := λ st, (Ok (), f st).

(** a value that [urllib.parse] computed, or its [ValueError] *)
Definition or_value_error {W A} (o : option A) : M W A :=
  match o with Some a => ret a | None => raise ValueError end.

Definition print {W} (m : Msg) : M W unit :=
  modify (λ st, mkSpider (visited st) (download_path st) (fs st) (world st)
                         (stdout st ++ [m]) (requests st)).

Definition send {W A} (r : Request) (call : W → A * W) : M W A :=
  λ st, let '(a, w) := call (world st) in
        (Ok a, mkSpider (visited st) (download_path st) (fs st) w
                        (stdout st) (requests st ++ [r])).

(** [s.add(x)] on a set kept as the list of its insertions *)
Definition set_add (x : string) (s : list string) : list string :=
  if bool_decide (x ∈ s) then s else s ++ [x].

(** The names bound at module level: the imports and the class. *)
Definition module_globals : list string :=
  ["argparse"; "os"; "requests"; "urljoin"; "urlparse"; "BeautifulSoup";
   "mimetypes"; "socket"; "Spider"].

(** evaluating a global name *)
Definition global_name {W} (name : string) : M W unit :=
  if bool_decide (name ∈ module_globals) then ret () else raise (NameError name).

(** ** class [Spider] *)

Section Methods.
Context {L : Library} {W : Type} {WO : World W}.
Import Py Urllib OsPath.

(** [Spider.__init__], in a world [w] with the files [files] *)
Definition init (w : W) (files : gmap string string) : Spider W :=
  mkSpider ∅ "./data/" files w [] [].

(** [is_valid_url]: the bare [except] turns a [ValueError] into [False] *)
Definition is_valid_url (url : string) : bool :=
  match urlparse url with
  | Some parsed =>
      bool_decide (scheme parsed ∈ ["http"; "https"])
      && negb (is_empty (netloc parsed))
  | None => false
  end.

(** [normalize_url]; [None] is the [ValueError] of [urlparse] *)
Definition normalize_url (url : string) : option string :=
  parsed ← urlparse url;
  let path := rstrip (chr_eqb "/") (path parsed) in
  Some (scheme parsed +:+ "://" +:+ netloc parsed +:+ path).

Definition get_page (url : string) : M W (option Response) :=
  let* response := send (GET url) (session_get url) in
  match response with
  | Some response => ret (Some response)
  | None => print (ErrorFetching url);; ret None
  end.

(** the body of the loop of [get_all_links], [links] being the set so far *)
Definition link_step (base_url : string) (links : list string) (a : string)
  : option (list string) :=
  let href := strip_ws a in
  if startswith "#" href then Some links
  else if startswith "javascript:" href then Some links
  else
    absolute_url ← urljoin base_url href;
    normalized_url ← normalize_url absolute_url;
    if is_valid_url normalized_url
    then Some (set_add normalized_url links)
    else Some links.

Fixpoint links_loop (base_url : string) (links anchors : list string)
    {struct anchors} : option (list string) :=
  match anchors with
  | [] => Some links
  | a :: anchors' =>
      links' ← link_step base_url links a; links_loop base_url links' anchors'
  end.

Definition get_all_links (url base_url : string) : M W (list string) :=
  let* response := get_page url in
  match response with
  | None => ret []
  | Some response =>
      let* links := or_value_error (links_loop base_url [] (a_href (text response))) in
      ret (set_order links)
  end.

Definition image_exts : list string := [".jpg"; ".jpeg"; ".png"; ".gif"; ".bmp"].

Definition image_types : list string :=
  ["image/jpeg"; "image/png"; "image/gif"; "image/bmp"].

(** lines 87-103 of the source: [Some is_image], or [None] where the bare
    [except] makes the loop [continue] *)
Definition classify (absolute_url : string) : M W (option bool) :=
  let* parsed := or_value_error (urlparse absolute_url) in
  let path := lower (path parsed) in
  if existsb (λ ext, endswith ext path) image_exts then ret (Some true)
  else
    let* head := send (HEAD absolute_url) (session_head absolute_url) in
    match head with
    | None => ret None
    | Some head =>
        if (status_code head =? 200)%Z then
          let content_type := lower (default "" (head_content_type head)) in
          ret (Some (existsb (λ t, contains t content_type) image_types))
        else ret (Some false)
    end.

(** the body of the loop of [get_all_images] *)
Definition image_step (url : string) (images : list string) (img : string)
  : M W (list string) :=
  let src := strip_ws img in
  if is_empty src then ret images
  else
    let* absolute_url := or_value_error (urljoin url src) in
    let* is_image := classify absolute_url in
    match is_image with
    | Some true => ret (set_add absolute_url images)
    | _ => ret images
    end.

Fixpoint images_loop (url : string) (images imgs : list string)
    {struct imgs} : M W (list string) :=
  match imgs with
  | [] => ret images
  | img :: imgs' =>
      let* images' := image_step url images img in images_loop url images' imgs'
  end.

Definition get_all_images (url : string) : M W (list string) :=
  let* response := get_page url in
  match response with
  | None => ret []
  | Some response =>
      let* images := images_loop url [] (img_src (text response)) in
      ret (set_order images)
  end.

(** the candidate the [while] loop tries at [counter] *)
Definition suffixed (dir filename : string) (counter : Z) : string :=
  let '(name, ext) := splitext filename in
  join dir (name +:+ "_" +:+ pretty counter +:+ ext).

(** the paths of which [os.path.exists] is true: files and directories *)
Definition existing (st : Spider W) : gset string :=
  dom (fs st) ∪ directories (world st).

(** [while os.path.exists(filepath): ...], at most [fuel] iterations,
    [paths] being the paths that exist *)
Fixpoint free_path (fuel : nat) (paths : gset string)
    (dir filename filepath : string) (counter : Z) : option string :=
  if bool_decide (filepath ∈ paths) then
    match fuel with
    | O => None
    | S fuel' =>
        free_path fuel' paths dir filename (suffixed dir filename counter)
                  (counter + 1)
    end
  else Some filepath.

(** [f.write(chunk)] for the chunks of [data]: what the file holds *)
Definition set_file (filepath data : string) : M W unit :=
  modify (λ st, mkSpider (visited st) (download_path st)
                         (<[filepath := data]> (fs st)) (world st)
                         (stdout st) (requests st)).

(** [with open(filepath, 'wb') as f: ...]: [open] may raise, and creates
    the file when it does not; a write that raises leaves the file with
    what has been written *)
Definition write_file (filepath data : string) : M W unit :=
  let* st := get_state in
  if can_open filepath (world st) then
    match write_fails filepath data (world st) with
    | None => set_file filepath data
    | Some partial => set_file filepath partial;; raise OSError
    end
  else raise OSError.

(** lines 122-126: a name without extension takes the one that
    [mimetypes.guess_extension] finds for the response's type, if any *)
Definition ensure_extension (filename : string) (response : Response) : string :=
  let content_type := default "" (content_type response) in
  if is_empty (splitext filename).2 then
    match guess_extension content_type with
    | Some ext => if is_empty ext then filename else filename +:+ ext
    | None => filename
    end
  else filename.

(** the name derived from the URL and the response, lines 117-126 *)
Definition derive_filename (img_url : string) (response : Response) : M W string :=
  let* parsed := or_value_error (urlparse img_url) in
  let filename := basename (path parsed) in
  let* filename :=
    if is_empty (strip_ws filename) then
      global_name "time";;
      let* st := get_state in
      ret ("image_" +:+ pretty (clock (world st)))
    else ret filename in
  ret (ensure_extension filename response).

Definition download_image (img_url : string) : M W unit :=
  try_except
    (let* response := get_page img_url in
     match response with
     | None => ret ()
     | Some response =>
         let* filename := derive_filename img_url response in
         let* st := get_state in
         let filepath := join (download_path st) filename in
         match free_path (S (size (existing st))) (existing st)
                         (download_path st) filename filepath 1 with
         | Some filepath =>
             write_file filepath (content response);;
             print (Downloaded img_url (basename filepath))
         | None => ret ()   (* not reached: see [free_path_total] *)
         end
     end)
    (λ e, print (FailedToDownload img_url e)).

Definition add_visited (normalized_url : string) : M W unit :=
  modify (λ st, mkSpider ({[normalized_url]} ∪ visited st) (download_path st)
                         (fs st) (world st) (stdout st) (requests st)).

(** the body of [crawl], the recursive call being [rec link] *)
Definition crawl_body (rec : string → M W unit)
    (url : string) (depth max_depth : Z) : M W unit :=
  let* normalized_url := or_value_error (normalize_url url) in
  let* st := get_state in
  if (depth >? max_depth)%Z || bool_decide (normalized_url ∈ visited st)
  then ret ()
  else
    add_visited normalized_url;;
    print (Crawling normalized_url depth);;
    let* images := get_all_images normalized_url in
    for_each images download_image;;
    if (depth <? max_depth)%Z then
      let* links := get_all_links normalized_url normalized_url in
      for_each links (λ link, if is_valid_url link then rec link else ret ())
    else ret ().

(** [crawl] run for at most [fuel] nested calls *)
Fixpoint crawl_fuel (fuel : nat) (url : string) (depth max_depth : Z) : M W unit :=
  match fuel with
  | O => crawl_body (λ _, ret ()) url depth max_depth
  | S fuel' =>
      crawl_body (λ link, crawl_fuel fuel' link (depth + 1) max_depth)
                 url depth max_depth
  end.

(** [crawl(url, depth, max_depth)]: the nesting of the calls is bounded by
    [max_depth - depth], see [crawl_unfold] *)
Definition crawl (url : string) (depth max_depth : Z) : M W unit :=
  crawl_fuel (Z.to_nat (max_depth - depth)) url depth max_depth.

End Methods.

(** ** The command line *)

(** The namespace [parse_args] returns for
    [spider.py [-r] [-l L] [-p P] url]. *)
Record Namespace : Type := mkNamespace {
  arg_r : bool;             (* -r, action='store_true' *)
  arg_l : Z;                (* -l, type=int, default=5 *)
  arg_p : option string;    (* -p, type=str: None when it is not given *)
  arg_url : string
}.

(** Making a directory on the host: [os.makedirs(path)], which changes the
    state of the world; [None] when it raises [OSError]. *)
Class Host (W : Type) : Type := {
  makedirs : string → W → option W
}.

(** The lines [run] itself prints. *)
Inductive Notice : Type :=
  | InvalidURLProvided.

(** The program: its spider, and what [run] has printed.  [run] prints
    only when it does not crawl, so the order of the two logs is not lost. *)
Record Process (W : Type) : Type := mkProcess {
  spider : Spider W;
  notices : list Notice
}.
Arguments mkProcess {W}.
Arguments spider {W}.
Arguments notices {W}.

Section Run.
Context {L : Library} {W : Type} {WO : World W} {HO : Host W}.

(** [self.download_path = path] *)
Definition set_download_path (path : string) : M W unit :=
  modify (λ st, mkSpider (visited st) path (fs st) (world st)
                         (stdout st) (requests st)).

(** [if not os.path.exists(self.download_path): os.makedirs(self.download_path)] *)
Definition ensure_download_path : M W unit :=
  let* st := get_state in
  if bool_decide (download_path st ∈ existing st)
  then ret ()
  else
    match makedirs (download_path st) (world st) with
    | Some w => modify (λ st, mkSpider (visited st) (download_path st) (fs st) w
                                       (stdout st) (requests st))
    | None => raise OSError
    end.

(** [run], [args] being what [parse_args] returned *)
Definition run (args : Namespace) (p : Process W) : result unit * Process W :=
  if negb (is_valid_url (arg_url args)) then
    (Ok (), mkProcess (spider p) (notices p ++ [InvalidURLProvided]))
  else
    let '(r, st) :=
      ((match arg_p args with
        | Some path =>
            if Py.is_empty path then ret ()
            else set_download_path path;; ensure_download_path
        | None => ret ()
        end);;
       let max_depth := if negb (arg_r args) then 0%Z else arg_l args in
       crawl (arg_url args) 0 max_depth) (spider p) in
    (r, mkProcess st (notices p)).

(** [spider = Spider(); spider.run()] *)
Definition main (args : Namespace) (w : W) (files : gmap string string)
  : result unit * Process W :=
  run args (mkProcess (init w files) []).

End Run.

(** ** What a run leaves to observe *)

(** The pages processed so far and the depth of each, read off the lines
    [Crawling: ... (Depth: ...)]. *)
Fixpoint crawled (out : list Msg) : list (string * Z) :=
  match out with
  | [] => []
  | Crawling u d :: out' => (u, d) :: crawled out'
  | _ :: out' => crawled out'
  end.

(** The number of lines [Downloaded: ...]. *)
Fixpoint downloads (out : list Msg) : nat :=
  match out with
  | [] => 0
  | Downloaded _ _ :: out' => S (downloads out')
  | _ :: out' => downloads out'
  end.

(** The number of lines [Failed to download ...] that report an [OSError]. *)
Fixpoint os_errors (out : list Msg) : nat :=
  match out with
  | [] => 0
  | FailedToDownload _ OSError :: out' => S (os_errors out')
  | _ :: out' => os_errors out'
  end.

Section States.
Context {W : Type}.

(** the state once [crawl] has marked and announced a page *)
Definition entered (st : Spider W) (n : string) (depth : Z) : Spider W :=
  mkSpider ({[n]} ∪ visited st) (download_path st) (fs st) (world st)
           (stdout st ++ [Crawling n depth]) (requests st).

(** the state once a request has been sent, the world unchanged *)
Definition sent (r : Request) (st : Spider W) : Spider W :=
  mkSpider (visited st) (download_path st) (fs st) (world st) (stdout st)
           (requests st ++ [r]).

(** the state once a [GET] has been answered, the world now [w] *)
Definition fetched (st : Spider W) (url : string) (w : W) : Spider W :=
  mkSpider (visited st) (download_path st) (fs st) w (stdout st)
           (requests st ++ [GET url]).

(** the state once a [GET] has failed and [get_page] has said so *)
Definition fetch_failed (st : Spider W) (url : string) (w : W) : Spider W :=
  mkSpider (visited st) (download_path st) (fs st) w
           (stdout st ++ [ErrorFetching url]) (requests st ++ [GET url]).

(** the state once a [HEAD] has been answered, the world now [w] *)
Definition probed (st : Spider W) (url : string) (w : W) : Spider W :=
  mkSpider (visited st) (download_path st) (fs st) w (stdout st)
           (requests st ++ [HEAD url]).

(** the state once [download_image] has written [data] to [filepath] *)
Definition downloaded (st : Spider W) (img_url : string) (w : W)
    (filepath data : string) : Spider W :=
  mkSpider (visited st) (download_path st) (<[filepath := data]> (fs st)) w
           (stdout st ++ [Downloaded img_url (OsPath.basename filepath)])
           (requests st ++ [GET img_url]).

(** the state once a write of [download_image] has failed, [filepath]
    holding [partial] *)
Definition download_broken (st : Spider W) (img_url : string) (w : W)
    (filepath partial : string) : Spider W :=
  mkSpider (visited st) (download_path st) (<[filepath := partial]> (fs st)) w
           (stdout st ++ [FailedToDownload img_url OSError])
           (requests st ++ [GET img_url]).

(** the state once [download_image] has caught [e], no file opened *)
Definition download_failed (st : Spider W) (img_url : string) (w : W)
    (e : exn) : Spider W :=
  mkSpider (visited st) (download_path st) (fs st) w
           (stdout st ++ [FailedToDownload img_url e])
           (requests st ++ [GET img_url]).

End States.

(** ** Worlds to run the spider in *)

Definition example_library : Library :=
  {| is_ipv6_address := λ _, false;
     guess_extension := λ t, if String.eqb t "image/jpeg" then Some ".jpg"
                             else if String.eqb t "image/png" then Some ".png"
                             else None |}.

Fixpoint assoc {A : Type} (k : string) (l : list (string * A)) : option A :=
  match l with
  | [] => None
  | (k', a) :: l' => if String.eqb k k' then Some a else assoc k l'
  end.

(** A world that never changes: the pages and the answers to [HEAD] are
    tables, there is no directory, every file can be opened and written, a
    set is listed as it was built. *)
Definition static_world (pages : list (string * Response))
    (heads : list (string * HeadResponse)) : World unit :=
  {| session_get := λ url w, (assoc url pages, w);
     session_head := λ url w, (assoc url heads, w);
     directories := λ _, ∅;
     can_open := λ _ _, true;
     write_fails := λ _ _ _, None;
     clock := λ _, 0%Z;
     set_order := λ l, l |}.

(** The same pages behind a network whose first [GET] fails; the state of
    the world is the number of [GET]s sent. *)
Definition flaky_world (pages : list (string * Response)) : World nat :=
  {| session_get := λ url n, (match n with O => None | S _ => assoc url pages end, S n);
     session_head := λ url n, (None, n);
     directories := λ _, ∅;
     can_open := λ _ _, true;
     write_fails := λ _ _ _, None;
     clock := λ _, 0%Z;
     set_order := λ l, l |}.

Definition html_page (hrefs srcs : list string) : Response :=
  mkResponse (mkHtml hrefs srcs) (Some "text/html") "<html>".

Definition image_file (type : option string) (data : string) : Response :=
  mkResponse (mkHtml [] []) type data.

Definition url_A : string := "http://site.test/A".
Definition url_B : string := "http://site.test/B".
Definition url_C : string := "http://site.test/C".
Definition url_D : string := "http://site.test/D".

(** the page graph A → B → A *)
Definition cycle_pages : list (string * Response) :=
  [(url_A, html_page ["/B"] []); (url_B, html_page ["/A"] [])].

(** the page graph A → B → C → D *)
Definition chain_pages : list (string * Response) :=
  [(url_A, html_page ["/B"] []); (url_B, html_page ["/C"] []);
   (url_C, html_page ["/D"] []); (url_D, html_page [] [])].

(** a page whose anchors are a fragment, a script and an empty [href] *)
Definition anchors_pages : list (string * Response) :=
  [(url_A, html_page ["#top"; "javascript:void(0)"; ""] [])].

(** two images of base name [photo.jpg], and one whose path ends in [/] *)
Definition image_pages : list (string * Response) :=
  [("http://site.test/one/photo.jpg", image_file (Some "image/jpeg") "first");
   ("http://cdn.test/two/photo.jpg", image_file (Some "image/jpeg") "second");
   ("http://site.test/img/", image_file (Some "image/png") "third")].

(** no page answers *)
Definition dead_world : World unit := static_world [] [].
Definition cycle_world : World unit := static_world cycle_pages [].
Definition chain_world : World unit := static_world chain_pages [].
Definition anchors_world : World unit := static_world anchors_pages [].
Definition image_world : World unit := static_world image_pages [].
Definition flaky_cycle_world : World nat := flaky_world cycle_pages.

(** the page graph A → B, A → C, B → C, C → D *)
Definition diamond_pages : list (string * Response) :=
  [(url_A, html_page ["/B"; "/C"] []); (url_B, html_page ["/C"] []);
   (url_C, html_page ["/D"] []); (url_D, html_page [] [])].
Definition diamond_world : World unit := static_world diamond_pages [].
Definition diamond_page (url : string) : option Response := assoc url diamond_pages.

(** a page with a link whose netloc has a bracket that is not closed *)
Definition broken_pages : list (string * Response) :=
  [(url_A, html_page ["/B"; "/C"] []);
   (url_B, html_page ["/D"; "http://["] []);
   (url_C, html_page [] []);
   (url_D, html_page [] [])].
Definition broken_world : World unit := static_world broken_pages [].

(** a page with a blank image, an image by its extension, and a source
    that [HEAD] does not find *)
Definition gallery_pages : list (string * Response) :=
  [(url_A, html_page [] ["  "; " /logo.PNG "; "about"])].
Definition gallery_world : World unit := static_world gallery_pages [].

(** The pages on a host that has the directories [dirs] and a disk with
    room for [room] characters a file. *)
Definition host_world (pages : list (string * Response)) (dirs : list string)
    (room : nat) : World unit :=
  {| session_get := λ url w, (assoc url pages, w);
     session_head := λ url w, (None, w);
     directories := λ _, list_to_set dirs;
     can_open := λ _ _, true;
     write_fails := λ _ data _,
       if (room <? String.length data)%nat then Some (Py.take room data) else None;
     clock := λ _, 0%Z;
     set_order := λ l, l |}.

(** an image whose path ends in [..], on a host where [./data/..] is, as
    everywhere, a directory *)
Definition parent_world : World unit :=
  host_world [("http://other.test/a/..", image_file None "up")] ["./data/.."] 1024.

(** the images on a disk that is full after two characters *)
Definition full_world : World unit := host_world image_pages [] 2.

(** a host where a directory can be made *)
Definition ready_host {W} : Host W :=
  {| makedirs := λ _ w, Some w |}.

(** a host where no directory can be made *)
Definition locked_host {W} : Host W :=
  {| makedirs := λ _ _, None |}.

(** * Facts *)

Ltac by_computing := apply (bool_decide_unpack _); vm_compute; exact I.

(** ** Reasoning about the monad *)

Section MonadFacts.
Context {W : Type}.

(** [m] takes every state to one related to it by [R], whether it returns
    or raises. *)
Definition steps (R : relation (Spider W)) {A} (m : M W A) : Prop :=
  ∀ st, R st (m st).2.

Lemma bind_run {A B} (m : M W A) (k : A → M W B) st :
  bind m k st = match m st with
                | (Ok a, st') => k a st'
                | (Raise e, st') => (Raise e, st')
                end.
Proof. reflexivity. Qed.

Lemma steps_ret R `{!Reflexive R} {A} (a : A) : steps R (ret a).
Proof. intros st. simpl. reflexivity. Qed.

Lemma steps_raise R `{!Reflexive R} {A} e : steps R (@raise W A e).
Proof. intros st. simpl. reflexivity. Qed.

Lemma steps_bind R `{!Transitive R} {A B} (m : M W A) (k : A → M W B) :
  steps R m → (∀ a, steps R (k a)) → steps R (bind m k).
Proof.
  intros Hm Hk st. rewrite bind_run. specialize (Hm st).
  destruct (m st) as [[a|e] st']; simpl in *; [|done].
  etrans; [exact Hm|]. apply Hk.
Qed.

Lemma steps_try R `{!Transitive R} {A} (m : M W A) h :
  steps R m → (∀ e, steps R (h e)) → steps R (try_except m h).
Proof.
  intros Hm Hh st. unfold try_except. specialize (Hm st).
  destruct (m st) as [[a|e] st']; simpl in *; [done|].
  etrans; [exact Hm|]. apply Hh.
Qed.

Lemma steps_for_each R `{!PreOrder R} {A} (l : list A) body :
  (∀ x, x ∈ l → steps R (body x)) → steps R (for_each l body).
Proof.
  induction l as [|x l IH]; intros Hb; simpl.
  - apply steps_ret, _.
  - apply steps_bind; [apply _| apply Hb; left |].
    intros _. apply IH. intros y Hy. apply Hb. by right.
Qed.

Lemma steps_or_value_error R `{!Reflexive R} {A} (o : option A) :
  steps R (@or_value_error W A o).
Proof. destruct o; [apply steps_ret | apply steps_raise]; done. Qed.

Lemma steps_get_state R `{!Reflexive R} : steps R (@get_state W).
Proof. intros st. simpl. reflexivity. Qed.

Lemma steps_global_name R `{!Reflexive R} name : steps R (@global_name W name).
Proof.
  unfold global_name. case_bool_decide; [apply steps_ret | apply steps_raise]; done.
Qed.

Lemma steps_mono (R R' : relation (Spider W)) {A} (m : M W A) :
  (∀ st st', R st st' → R' st st') → steps R m → steps R' m.
Proof. intros HR Hm st. apply HR, Hm. Qed.

Lemma bind_ret {A B} (a : A) (k : A → M W B) st : bind (ret a) k st = k a st.
Proof. reflexivity. Qed.

Lemma bind_get_state {B} (k : Spider W → M W B) st : bind get_state k st = k st st.
Proof. reflexivity. Qed.

Lemma bind_modify {B} f (k : unit → M W B) st : bind (modify f) k st = k () (f st).
Proof. reflexivity. Qed.

Lemma bind_ext {A B} (m : M W A) (k1 k2 : A → M W B) st :
  (∀ a st', k1 a st' = k2 a st') → bind m k1 st = bind m k2 st.
Proof. intros Hk. rewrite !bind_run. by destruct (m st) as [[a|e] st']. Qed.

Lemma for_each_nil {A} (f : A → M W unit) st : for_each [] f st = (Ok (), st).
Proof. reflexivity. Qed.

Lemma for_each_cons {A} (x : A) l (f : A → M W unit) st :
  for_each (x :: l) f st = bind (f x) (λ _, for_each l f) st.
Proof. reflexivity. Qed.

Lemma for_each_ext {A} (l : list A) (f g : A → M W unit) :
  (∀ x st, f x st = g x st) → ∀ st, for_each l f st = for_each l g st.
Proof.
  intros Hfg. induction l as [|x l IH]; intros st; simpl; [done|].
  rewrite !bind_run, Hfg. by destruct (g x st) as [[[]|e] st'].
Qed.

End MonadFacts.


(** ** The log of a crawl *)

Lemma crawled_app out1 out2 : crawled (out1 ++ out2) = crawled out1 ++ crawled out2.
Proof.
  induction out1 as [|m out1 IH]; [done|].
  destruct m; simpl; by rewrite ?IH.
Qed.

Section CrawlFacts.
Context {L : Library} {W : Type} {WO : World W}.

(** nothing is crawled and the visited set stands *)
Definition frame : relation (Spider W) := λ st st',
  visited st' = visited st ∧ crawled (stdout st') = crawled (stdout st).

#[local] Instance frame_preorder : PreOrder frame.
Proof.
  split.
  - by intros st.
  - intros st1 st2 st3 [? ?] [? ?]. split; congruence.
Qed.

Lemma frame_print m :
  (∀ u d, m ≠ Crawling u d) → steps frame (@print W m).
Proof.
  intros Hm st. split; simpl; [done|].
  rewrite crawled_app. destruct m; simpl; rewrite ?app_nil_r; try done.
  by destruct (Hm normalized_url depth).
Qed.

Lemma frame_send {A} r (call : W → A * W) : steps frame (send r call).
Proof. intros st. unfold send. destruct (call (world st)). by split. Qed.

Create HintDb frame.

(** One step through a method body: a primitive, a lemma of the [frame]
    database, or a sequence or a branch to go into. *)
Ltac frame_step :=
  first
    [ apply steps_ret; apply _
    | apply steps_raise; apply _
    | apply steps_or_value_error; apply _
    | apply steps_get_state; apply _
    | apply steps_global_name; apply _
    | apply frame_send
    | apply frame_print; discriminate
    | solve [auto with frame]
    | apply steps_bind; [apply _| |intros ?]
    | apply steps_try; [apply _| |intros ?]
    | match goal with
      | |- steps _ (match ?x with _ => _ end) => destruct x
      end ].

Lemma frame_get_page url : steps frame (get_page url).
Proof. unfold get_page. repeat frame_step. Qed.
#[local] Hint Resolve frame_get_page : frame.

Lemma frame_get_all_links url base_url : steps frame (get_all_links url base_url).
Proof. unfold get_all_links. repeat frame_step. Qed.

Lemma frame_classify url : steps frame (classify url).
Proof. unfold classify. repeat frame_step. Qed.
#[local] Hint Resolve frame_classify : frame.

Lemma frame_image_step url images img : steps frame (image_step url images img).
Proof. unfold image_step. repeat frame_step. Qed.
#[local] Hint Resolve frame_image_step : frame.

Lemma frame_images_loop url imgs : ∀ images, steps frame (images_loop url images imgs).
Proof.
  induction imgs as [|img imgs IH]; intros images; simpl; repeat frame_step.
Qed.
#[local] Hint Resolve frame_images_loop : frame.

Lemma frame_get_all_images url : steps frame (get_all_images url).
Proof. unfold get_all_images. repeat frame_step. Qed.

Lemma frame_write_file filepath data : steps frame (write_file filepath data).
Proof.
  intros st. unfold write_file. rewrite bind_run. simpl.
  destruct (can_open _ _); [|by split].
  by destruct (write_fails _ _ _).
Qed.
#[local] Hint Resolve frame_write_file : frame.

Lemma frame_derive_filename img_url response :
  steps frame (derive_filename img_url response).
Proof. unfold derive_filename. repeat frame_step. Qed.
#[local] Hint Resolve frame_derive_filename : frame.

Lemma frame_download_image img_url : steps frame (download_image img_url).
Proof. unfold download_image. repeat frame_step. Qed.

(** What a call [crawl(url, depth, max_depth)] does to the visited set and
    to the log: the set grows, and the pages it logs are new to the set,
    logged once, then in the set, at a depth from [depth] to [max_depth]. *)
Definition crawl_rel (depth max_depth : Z) : relation (Spider W) := λ st st',
  visited st ⊆ visited st' ∧
  ∃ new, crawled (stdout st') = crawled (stdout st) ++ new ∧
         NoDup (new.*1) ∧
         (∀ u d, (u, d) ∈ new →
                 (u ∉ visited st) ∧ u ∈ visited st' ∧ (depth ≤ d ≤ max_depth)%Z).

#[local] Instance crawl_rel_preorder depth max_depth :
  PreOrder (crawl_rel depth max_depth).
Proof.
  split.
  - intros st. split; [done|]. exists []. rewrite app_nil_r.
    split_and!; [done|constructor|]. intros u d Hin. inversion Hin.
  - intros st1 st2 st3 (Hsub1 & new1 & Hlog1 & Hnd1 & Hnew1)
                       (Hsub2 & new2 & Hlog2 & Hnd2 & Hnew2).
    split; [set_solver|]. exists (new1 ++ new2).
    split_and!.
    + by rewrite Hlog2, Hlog1, app_assoc.
    + rewrite fmap_app. apply NoDup_app. split_and!; [done| |done].
      intros u [[u1 d1] [-> Hin1]]%list_elem_of_fmap [[u2 d2] [Heq Hin2]]%list_elem_of_fmap.
      simpl in *. subst u2.
      destruct (Hnew1 _ _ Hin1) as (_ & ? & _).
      destruct (Hnew2 _ _ Hin2) as (? & _ & _). done.
    + intros u d [Hin|Hin]%elem_of_app.
      * destruct (Hnew1 _ _ Hin) as (? & ? & ?).
        split; [done|]. split; [set_solver|done].
      * destruct (Hnew2 _ _ Hin) as (? & ? & ?).
        split; [set_solver|]. split; done.
Qed.

Lemma frame_crawl_rel depth max_depth st st' :
  frame st st' → crawl_rel depth max_depth st st'.
Proof.
  intros [Hv Hl]. split; [by rewrite Hv|]. exists []. rewrite app_nil_r.
  split_and!; [done|constructor|]. intros u d Hin. inversion Hin.
Qed.

Lemma crawl_rel_deeper depth max_depth st st' :
  crawl_rel (depth + 1) max_depth st st' → crawl_rel depth max_depth st st'.
Proof.
  intros (Hsub & new & Hlog & Hnd & Hnew). split; [done|]. exists new.
  split_and!; [done..|]. intros u d Hin.
  destruct (Hnew _ _ Hin) as (? & ? & ?). split; [done|]. split; [done|lia].
Qed.

(** what [crawl] does once it has marked and announced the page [n] *)
Definition crawl_rest (rec : string → M W unit) (n : string)
    (depth max_depth : Z) : M W unit :=
  let* images := get_all_images n in
  for_each images download_image;;
  if (depth <? max_depth)%Z then
    let* links := get_all_links n n in
    for_each links (λ link, if is_valid_url link then rec link else ret ())
  else ret ().

Lemma crawl_body_enter rec url n depth max_depth st :
  normalize_url url = Some n →
  (depth ≤ max_depth)%Z → n ∉ visited st →
  crawl_body rec url depth max_depth st
  = crawl_rest rec n depth max_depth (entered st n depth).
Proof.
  intros Hn Hd Hv. unfold crawl_body.
  rewrite Hn. unfold or_value_error. rewrite bind_ret, bind_get_state.
  replace (depth >? max_depth)%Z with false by lia.
  rewrite (bool_decide_eq_false_2 _ Hv). cbn [orb].
  unfold add_visited, print. by rewrite !bind_modify.
Qed.

Lemma crawl_body_pruned rec url n depth max_depth st :
  normalize_url url = Some n →
  (max_depth < depth)%Z ∨ n ∈ visited st →
  crawl_body rec url depth max_depth st = (Ok (), st).
Proof.
  intros Hn Hcut. unfold crawl_body.
  rewrite Hn. unfold or_value_error. rewrite bind_ret, bind_get_state.
  destruct Hcut as [Hd|Hv].
  - by replace (depth >? max_depth)%Z with true by lia.
  - rewrite (bool_decide_eq_true_2 _ Hv). by rewrite orb_true_r.
Qed.

Lemma entered_rel st n depth max_depth :
  (depth ≤ max_depth)%Z → n ∉ visited st →
  crawl_rel depth max_depth st (entered st n depth).
Proof.
  intros Hd Hv. split; simpl; [set_solver|]. exists [(n, depth)].
  split_and!.
  - by rewrite crawled_app.
  - simpl. apply NoDup_singleton.
  - intros u d Hin%list_elem_of_singleton. injection Hin as -> ->.
    split; [done|]. split; [set_solver|lia].
Qed.

Lemma crawl_rest_rel rec n depth max_depth :
  (∀ link, steps (crawl_rel (depth + 1) max_depth) (rec link)) →
  steps (crawl_rel depth max_depth) (crawl_rest rec n depth max_depth).
Proof.
  intros Hrec. unfold crawl_rest.
  apply steps_bind; [apply _| |intros images].
  { eapply steps_mono; [apply frame_crawl_rel | apply frame_get_all_images]. }
  apply steps_bind; [apply _| |intros _].
  { apply steps_for_each; [apply _|]. intros img _.
    eapply steps_mono; [apply frame_crawl_rel | apply frame_download_image]. }
  destruct (depth <? max_depth)%Z; [|apply steps_ret, _].
  apply steps_bind; [apply _| |intros links].
  { eapply steps_mono; [apply frame_crawl_rel | apply frame_get_all_links]. }
  apply steps_for_each; [apply _|]. intros link _.
  destruct (is_valid_url link); [|apply steps_ret, _].
  eapply steps_mono; [apply crawl_rel_deeper | apply Hrec].
Qed.

Lemma crawl_body_rel rec url depth max_depth :
  (∀ link, steps (crawl_rel (depth + 1) max_depth) (rec link)) →
  steps (crawl_rel depth max_depth) (crawl_body rec url depth max_depth).
Proof.
  intros Hrec st.
  destruct (normalize_url url) as [n|] eqn:Hn; [|unfold crawl_body; by rewrite Hn].
  destruct (decide ((max_depth < depth)%Z ∨ n ∈ visited st)) as [Hcut|Hgo].
  - by rewrite (crawl_body_pruned _ _ n).
  - rewrite (crawl_body_enter _ _ n) by (lia || tauto).
    trans (entered st n depth); [apply entered_rel; (lia || tauto)|].
    by apply crawl_rest_rel.
Qed.

Lemma crawl_fuel_rel fuel : ∀ url depth max_depth,
  steps (crawl_rel depth max_depth) (crawl_fuel fuel url depth max_depth).
Proof.
  induction fuel as [|fuel IH]; intros url depth max_depth; simpl.
  - apply crawl_body_rel. intros _. apply steps_ret, _.
  - apply crawl_body_rel. intros link. apply IH.
Qed.

Lemma crawl_rel_spec url depth max_depth :
  steps (crawl_rel depth max_depth) (crawl url depth max_depth).
Proof. apply crawl_fuel_rel. Qed.

(** The recursive call only matters below the maximum depth. *)
Lemma crawl_body_ext rec1 rec2 url depth max_depth st :
  ((depth <? max_depth)%Z = true → ∀ link st', rec1 link st' = rec2 link st') →
  crawl_body rec1 url depth max_depth st = crawl_body rec2 url depth max_depth st.
Proof.
  intros Hrec. unfold crawl_body.
  apply bind_ext; intros n st1. apply bind_ext; intros st2 st3.
  destruct (_ || _); [done|].
  apply bind_ext; intros _ st4. apply bind_ext; intros _ st5.
  apply bind_ext; intros images st6. apply bind_ext; intros _ st7.
  destruct (depth <? max_depth)%Z; [|done].
  apply bind_ext; intros links st8. apply for_each_ext; intros link st9.
  destruct (is_valid_url link); [|done]. by apply Hrec.
Qed.

(** [crawl] satisfies the recursive equation of the source: the fuel of
    [crawl_fuel] never runs out. *)
Lemma crawl_unfold url depth max_depth st :
  crawl url depth max_depth st
  = crawl_body (λ link, crawl link (depth + 1) max_depth) url depth max_depth st.
Proof.
  unfold crawl. destruct (Z.to_nat (max_depth - depth)) as [|fuel] eqn:Hfuel; simpl.
  - apply crawl_body_ext. intros Hlt. lia.
  - apply crawl_body_ext. intros _ link st'.
    by replace (Z.to_nat (max_depth - (depth + 1))) with fuel by lia.
Qed.

Lemma crawl_pruned url n depth max_depth st :
  normalize_url url = Some n →
  (max_depth < depth)%Z ∨ n ∈ visited st →
  crawl url depth max_depth st = (Ok (), st).
Proof. intros Hn Hcut. rewrite crawl_unfold. by apply (crawl_body_pruned _ _ n). Qed.

Lemma crawl_enter url n depth max_depth st :
  normalize_url url = Some n →
  (depth ≤ max_depth)%Z → n ∉ visited st →
  crawl url depth max_depth st
  = crawl_rest (λ link, crawl link (depth + 1) max_depth) n depth max_depth
               (entered st n depth).
Proof. intros Hn Hd Hv. rewrite crawl_unfold. by apply crawl_body_enter. Qed.


End CrawlFacts.


(** ** Fetching *)

Section Fetch.
Context {L : Library} {W : Type} {WO : World W}.

Lemma get_page_ok url st response w :
  session_get url (world st) = (Some response, w) →
  get_page url st = (Ok (Some response), fetched st url w).
Proof. intros Hget. unfold get_page, send. rewrite bind_run, Hget. reflexivity. Qed.

Lemma get_page_fail url st w :
  session_get url (world st) = (None, w) →
  get_page url st = (Ok None, fetch_failed st url w).
Proof. intros Hget. unfold get_page, send. rewrite bind_run, Hget. reflexivity. Qed.

Lemma get_all_images_fail url st w :
  session_get url (world st) = (None, w) →
  get_all_images url st = (Ok [], fetch_failed st url w).
Proof.
  intros Hget. unfold get_all_images.
  rewrite bind_run, (get_page_fail _ _ _ Hget). reflexivity.
Qed.

Lemma get_all_links_fail url base_url st w :
  session_get url (world st) = (None, w) →
  get_all_links url base_url st = (Ok [], fetch_failed st url w).
Proof.
  intros Hget. unfold get_all_links.
  rewrite bind_run, (get_page_fail _ _ _ Hget). reflexivity.
Qed.

End Fetch.

(** ** Strings *)

Module PyFacts.
Import Py.

Lemma str_app_nil_l s : "" +:+ s = s.
Proof. reflexivity. Qed.

Lemma str_app_cons a s t : String a s +:+ t = String a (s +:+ t).
Proof. reflexivity. Qed.

Lemma str_app_nil_r s : s +:+ "" = s.
Proof. induction s as [|a s IH]; [done|]. by rewrite str_app_cons, IH. Qed.

Lemma str_app_assoc s t u : (s +:+ t) +:+ u = s +:+ t +:+ u.
Proof. induction s as [|a s IH]; [done|]. by rewrite !str_app_cons, IH. Qed.

Lemma str_length_app s t : String.length (s +:+ t) = String.length s + String.length t.
Proof. induction s as [|a s IH]; [done|]. rewrite str_app_cons. simpl. by rewrite IH. Qed.

Lemma str_app_inv_tail s1 s2 t : s1 +:+ t = s2 +:+ t → s1 = s2.
Proof.
  revert s2. induction s1 as [|a s1 IH]; intros [|b s2] Heq; [done| | |].
  - apply (f_equal String.length) in Heq.
    rewrite str_app_nil_l, str_app_cons in Heq. simpl in Heq. rewrite str_length_app in Heq. lia.
  - apply (f_equal String.length) in Heq.
    rewrite str_app_nil_l, str_app_cons in Heq. simpl in Heq. rewrite str_length_app in Heq. lia.
  - rewrite !str_app_cons in Heq. injection Heq as -> Heq. f_equal. by apply IH.
Qed.

(** every character of [s] satisfies [Q] *)
Abbreviation all_chr Q s := (forall_chr Q s = true).

Lemma forall_chr_app Q s t : forall_chr Q (s +:+ t) = forall_chr Q s && forall_chr Q t.
Proof.
  induction s as [|a s IH]; [done|]. rewrite str_app_cons. simpl.
  by rewrite IH, andb_assoc.
Qed.

Lemma all_chr_app Q s t : all_chr Q s → all_chr Q t → all_chr Q (s +:+ t).
Proof. intros Hs Ht. by rewrite forall_chr_app, Hs, Ht. Qed.

Lemma take_drop n s : take n s +:+ drop n s = s.
Proof.
  revert s. induction n as [|n IH]; intros [|a s]; try done.
  simpl. by rewrite str_app_cons, IH.
Qed.

Lemma all_chr_take Q n s : all_chr Q s → all_chr Q (take n s).
Proof.
  intros Hs. rewrite <-(take_drop n s), forall_chr_app in Hs.
  by apply andb_true_iff in Hs as [? ?].
Qed.

Lemma all_chr_drop Q n s : all_chr Q s → all_chr Q (drop n s).
Proof.
  intros Hs. rewrite <-(take_drop n s), forall_chr_app in Hs.
  by apply andb_true_iff in Hs as [? ?].
Qed.

Lemma all_chr_lstrip Q P s : all_chr Q s → all_chr Q (lstrip P s).
Proof.
  induction s as [|a s IH]; [done|]. simpl. intros Hs.
  destruct (P a); [|done]. apply IH. by apply andb_true_iff in Hs as [? ?].
Qed.

Lemma all_chr_rstrip Q P s : all_chr Q s → all_chr Q (rstrip P s).
Proof.
  induction s as [|a s IH]; [done|]. simpl. intros [Ha Hs]%andb_true_iff.
  specialize (IH Hs). destruct (rstrip P s) as [|b r].
  - destruct (P a); [done|]. simpl. by rewrite Ha.
  - simpl in *. by rewrite Ha, IH.
Qed.

Lemma all_chr_remove_chr Q c s : all_chr Q s → all_chr Q (remove_chr c s).
Proof.
  induction s as [|a s IH]; [done|]. simpl. intros [Ha Hs]%andb_true_iff.
  destruct (chr_eqb a c); [by apply IH|]. simpl. by rewrite Ha, IH.
Qed.

Lemma all_chr_removed c s : all_chr (λ a, negb (chr_eqb a c)) (remove_chr c s).
Proof.
  induction s as [|a s IH]; [done|]. simpl.
  destruct (chr_eqb a c) eqn:Ha; [done|]. simpl. by rewrite Ha, IH.
Qed.

Lemma remove_chr_id c s : all_chr (λ a, negb (chr_eqb a c)) s → remove_chr c s = s.
Proof.
  induction s as [|a s IH]; [done|]. simpl. intros [Ha Hs]%andb_true_iff.
  apply negb_true_iff in Ha. rewrite Ha. by rewrite IH.
Qed.

Lemma remove_chr_app c s t : remove_chr c (s +:+ t) = remove_chr c s +:+ remove_chr c t.
Proof.
  induction s as [|a s IH]; [done|]. rewrite str_app_cons. simpl.
  destruct (chr_eqb a c); [done|]. by rewrite str_app_cons, IH.
Qed.

Lemma all_chr_impl (Q Q' : ascii → bool) s :
  (∀ a, Q a = true → Q' a = true) → all_chr Q s → all_chr Q' s.
Proof.
  intros HQ. induction s as [|a s IH]; [done|]. simpl.
  intros [Ha Hs]%andb_true_iff. by rewrite (HQ _ Ha), IH.
Qed.

Lemma all_chr_and Q Q' s :
  all_chr Q s → all_chr Q' s → all_chr (λ a, Q a && Q' a) s.
Proof.
  induction s as [|a s IH]; [done|]. simpl.
  intros [Ha Hs]%andb_true_iff [Ha' Hs']%andb_true_iff. by rewrite Ha, Ha', IH.
Qed.

(** [find] and [has_chr] *)

Lemma find_none c s : find c s = None ↔ all_chr (λ a, negb (chr_eqb a c)) s.
Proof.
  induction s as [|a s IH]; [done|]. simpl.
  destruct (chr_eqb a c); simpl; [done|].
  rewrite <-IH. by destruct (find c s).
Qed.

Lemma has_chr_false c s : has_chr c s = false ↔ all_chr (λ a, negb (chr_eqb a c)) s.
Proof.
  unfold has_chr. rewrite <-find_none, bool_decide_eq_false, <-eq_None_not_Some. done.
Qed.

Lemma has_chr_true c s : has_chr c s = true ↔ is_Some (find c s).
Proof. unfold has_chr. by rewrite bool_decide_eq_true. Qed.

Lemma find_lt c s i : find c s = Some i → i < String.length s.
Proof.
  revert i. induction s as [|a s IH]; intros i; [done|]. simpl.
  destruct (chr_eqb a c); [intros [= <-]; lia|].
  destruct (find c s) as [j|]; [|done]. intros [= <-]. specialize (IH _ eq_refl). lia.
Qed.

Lemma find_app_l c s t i : find c s = Some i → find c (s +:+ t) = Some i.
Proof.
  revert i. induction s as [|a s IH]; intros i; [done|]. rewrite str_app_cons. simpl.
  destruct (chr_eqb a c); [done|].
  destruct (find c s) as [j|]; [|done]. intros [= <-]. by rewrite (IH _ eq_refl).
Qed.

Lemma find_app_r c s t :
  find c s = None → find c (s +:+ t) = (λ i, String.length s + i) <$> find c t.
Proof.
  induction s as [|a s IH]; [intros _; rewrite str_app_nil_l; by destruct (find c t)|].
  rewrite str_app_cons. simpl.
  destruct (chr_eqb a c); [done|].
  destruct (find c s) as [j|]; [done|]. intros _. rewrite IH by done.
  by destruct (find c t).
Qed.

Lemma take_app_le n s t : n ≤ String.length s → take n (s +:+ t) = take n s.
Proof.
  revert s. induction n as [|n IH]; intros s Hn; [done|].
  destruct s as [|a s]; simpl in Hn; [lia|].
  rewrite str_app_cons. simpl. f_equal. apply IH. lia.
Qed.

Lemma drop_app_le n s t : n ≤ String.length s → drop n (s +:+ t) = drop n s +:+ t.
Proof.
  revert s. induction n as [|n IH]; intros s Hn; [done|].
  destruct s as [|a s]; simpl in Hn; [lia|].
  rewrite str_app_cons. simpl. apply IH. lia.
Qed.

Lemma take_length_app s t : take (String.length s) (s +:+ t) = s.
Proof. induction s as [|a s IH]; [done|]. rewrite str_app_cons. simpl. by rewrite IH. Qed.

Lemma drop_length_app s t : drop (String.length s) (s +:+ t) = t.
Proof. induction s as [|a s IH]; [done|]. by rewrite str_app_cons. Qed.

(** [rstrip] *)

Lemma rstrip_app_chr P s a : P a = true → rstrip P (s +:+ String a "") = rstrip P s.
Proof.
  intros Ha. induction s as [|b s IH]; [simpl; by rewrite Ha|].
  rewrite str_app_cons. simpl. by rewrite IH.
Qed.

Lemma rstrip_idemp P s : rstrip P (rstrip P s) = rstrip P s.
Proof.
  induction s as [|a s IH]; [done|]. simpl.
  destruct (rstrip P s) as [|b r] eqn:Hr.
  - destruct (P a) eqn:Ha; [done|]. simpl. by rewrite Ha.
  - simpl in *. rewrite IH. done.
Qed.

(** [rstrip] keeps the first character of what it leaves *)
Lemma rstrip_head P a s :
  rstrip P (String a s) = "" ∨ ∃ r, rstrip P (String a s) = String a r.
Proof.
  simpl. destruct (rstrip P s); [destruct (P a)|]; eauto.
Qed.

End PyFacts.

(** ** The free path of a download *)

Section FreePath.
Import Py OsPath PyFacts.

(** what [os.path.join] puts before a name that goes on as [name_...] *)
Definition join_prefix (dir name : string) : string :=
  if startswith "/" (name +:+ "_") then ""
  else if is_empty dir || endswith "/" dir then dir
  else dir +:+ "/".

Lemma join_suffix dir name rest :
  join dir (name +:+ "_" +:+ rest) = join_prefix dir name +:+ name +:+ "_" +:+ rest.
Proof.
  unfold join, join_prefix.
  assert (startswith "/" (name +:+ "_" +:+ rest) = startswith "/" (name +:+ "_")) as ->.
  { destruct name as [|a name]; [done|]. rewrite !str_app_cons. simpl.
    by rewrite !andb_true_r. }
  destruct (startswith "/" (name +:+ "_")); [done|].
  destruct (is_empty dir || endswith "/" dir); [done|].
  by rewrite str_app_assoc.
Qed.

Lemma suffixed_inj dir filename j k :
  suffixed dir filename j = suffixed dir filename k → j = k.
Proof.
  unfold suffixed. destruct (splitext filename) as [name ext].
  rewrite !join_suffix. intros Heq.
  do 3 apply (inj (String.app _)) in Heq.
  apply str_app_inv_tail in Heq. by apply (inj pretty) in Heq.
Qed.

Context (paths : gset string) (dir filename : string).

Lemma free_path_none fuel : ∀ filepath counter,
  free_path fuel paths dir filename filepath counter = None →
  ∀ i, i < fuel → suffixed dir filename (counter + Z.of_nat i) ∈ paths.
Proof.
  induction fuel as [|fuel IH]; intros filepath counter Hnone i Hi; [lia|].
  simpl in Hnone. case_bool_decide as Hex; [|done].
  destruct i as [|i].
  - rewrite Z.add_0_r. destruct fuel; simpl in Hnone; by case_bool_decide.
  - replace (counter + Z.of_nat (S i))%Z with (counter + 1 + Z.of_nat i)%Z by lia.
    apply (IH _ _ Hnone). lia.
Qed.

(** The loop ends before it has tried more names than there are paths. *)
Lemma free_path_total filepath counter :
  is_Some (free_path (S (size paths)) paths dir filename filepath counter).
Proof.
  destruct (free_path _ _ _ _ _ _) as [p|] eqn:Hfree; [by eexists|].
  exfalso.
  pose proof (free_path_none _ _ _ Hfree) as Hall.
  set (cands := (λ i, suffixed dir filename (counter + Z.of_nat i)) <$> seq 0 (S (size paths))).
  assert (NoDup cands) as Hnd.
  { apply NoDup_fmap_2; [|apply NoDup_seq].
    intros i j Hij%suffixed_inj. lia. }
  assert (list_to_set cands ⊆ paths) as Hsub.
  { intros p [i [-> Hi%elem_of_seq]]%elem_of_list_to_set%list_elem_of_fmap.
    apply Hall. lia. }
  apply subseteq_size in Hsub.
  rewrite size_list_to_set in Hsub by done.
  unfold cands in Hsub. rewrite length_fmap, length_seq in Hsub. lia.
Qed.

(** The path the loop ends on does not exist; it is the first path, or the
    first free one among the numbered ones. *)
Lemma free_path_spec fuel : ∀ filepath counter p,
  free_path fuel paths dir filename filepath counter = Some p →
  (p ∉ paths)
  ∧ (p = filepath
     ∨ filepath ∈ paths
       ∧ ∃ k, (counter ≤ k)%Z ∧ p = suffixed dir filename k
              ∧ ∀ j, (counter ≤ j < k)%Z → suffixed dir filename j ∈ paths).
Proof.
  induction fuel as [|fuel IH]; intros filepath counter p Hfree; simpl in Hfree.
  - case_bool_decide; [done|]. injection Hfree as <-. by split; [|left].
  - case_bool_decide as Hex; [|injection Hfree as <-; by split; [|left]].
    apply IH in Hfree as [Hp Hcase]. split; [done|]. right. split; [done|].
    destruct Hcase as [->|(Hin & k & Hk & -> & Hbelow)].
    + exists counter. split_and!; [lia|done|]. intros j Hj. lia.
    + exists k. split_and!; [lia|done|]. intros j Hj.
      destruct (decide (j = counter)) as [->|]; [done|]. apply Hbelow. lia.
Qed.

End FreePath.

Section Download.
Context {L : Library} {W : Type} {WO : World W}.
Import Py Urllib OsPath.

Lemma derive_filename_named img_url response parsed (st : Spider W) :
  urlparse img_url = Some parsed →
  is_empty (strip_ws (basename (path parsed))) = false →
  derive_filename img_url response st
  = (Ok (ensure_extension (basename (path parsed)) response), st).
Proof.
  intros Hparse Hname. unfold derive_filename.
  rewrite Hparse. unfold or_value_error. rewrite bind_ret, Hname.
  by rewrite bind_ret.
Qed.

Lemma derive_filename_blank img_url response parsed (st : Spider W) :
  urlparse img_url = Some parsed →
  is_empty (strip_ws (basename (path parsed))) = true →
  derive_filename img_url response st = (Raise (NameError "time"), st).
Proof.
  intros Hparse Hname. unfold derive_filename.
  rewrite Hparse. unfold or_value_error. rewrite bind_ret, Hname.
  reflexivity.
Qed.

End Download.


(** ** Cutting a string at the first character of a kind *)

Module BreakFacts.
Import Py PyFacts.

(** [s] cut before its first character that satisfies [P] *)
Fixpoint break (P : ascii → bool) (s : string) : string * string :=
  match s with
  | EmptyString => ("", "")
  | String a r =>
      if P a then ("", s) else let '(x, y) := break P r in (String a x, y)
  end.

Definition starts_with (P : ascii → bool) (s : string) : Prop :=
  match s with EmptyString => False | String a _ => P a = true end.

Lemma break_eq P s : (break P s).1 +:+ (break P s).2 = s.
Proof.
  induction s as [|a s IH]; [done|]. simpl.
  destruct (P a); [done|]. destruct (break P s) as [x y]. simpl in *.
  by rewrite str_app_cons, IH.
Qed.

Lemma break_fst P s : all_chr (λ a, negb (P a)) (break P s).1.
Proof.
  induction s as [|a s IH]; [done|]. simpl.
  destruct (P a) eqn:Ha; [done|]. destruct (break P s) as [x y]. simpl in *.
  by rewrite Ha, IH.
Qed.

Lemma break_snd P s : (break P s).2 = "" ∨ starts_with P (break P s).2.
Proof.
  induction s as [|a s IH]; [by left|]. simpl.
  destruct (P a) eqn:Ha; [by right|]. by destruct (break P s) as [x y].
Qed.

Lemma break_app P x y :
  all_chr (λ a, negb (P a)) x → y = "" ∨ starts_with P y → break P (x +:+ y) = (x, y).
Proof.
  intros Hx Hy. induction x as [|a x IH].
  - rewrite str_app_nil_l. destruct y as [|b y]; [done|].
    destruct Hy as [|Hb]; [done|]. simpl in *. by rewrite Hb.
  - simpl in Hx. apply andb_true_iff in Hx as [Ha Hx]. apply negb_true_iff in Ha.
    rewrite str_app_cons. simpl. by rewrite Ha, (IH Hx).
Qed.

(** appending to a string that has such a character *)
Lemma break_app_found P s t :
  (break P s).2 ≠ "" →
  break P (s +:+ t) = ((break P s).1, (break P s).2 +:+ t).
Proof.
  intros Hne. rewrite <-(break_eq P s) at 1. rewrite str_app_assoc.
  apply break_app; [apply break_fst|]. right.
  destruct (break_snd P s) as [?|Hs]; [done|].
  by destruct (break P s).2.
Qed.

(** appending to a string that has none *)
Lemma break_app_none P s t :
  (break P s).2 = "" →
  break P (s +:+ t) = (s +:+ (break P t).1, (break P t).2).
Proof.
  intros Hnone. pose proof (break_eq P s) as Hs. pose proof (break_fst P s) as Hall.
  rewrite Hnone, str_app_nil_r in Hs. rewrite Hs in Hall.
  rewrite <-(break_eq P t) at 1. rewrite <-str_app_assoc.
  apply break_app; [|apply break_snd].
  apply all_chr_app; [done|apply break_fst].
Qed.

Lemma break_none P s : all_chr (λ a, negb (P a)) s ↔ (break P s).2 = "".
Proof.
  split.
  - intros Hs. rewrite <-(str_app_nil_r s). by rewrite break_app; [|..|left].
  - intros Hnone. pose proof (break_eq P s) as Hs. pose proof (break_fst P s) as Hall.
    rewrite Hnone, str_app_nil_r in Hs. by rewrite Hs in Hall.
Qed.

Lemma all_chr_break_fst Q P s : all_chr Q s → all_chr Q (break P s).1.
Proof.
  intros Hs. rewrite <-(break_eq P s), forall_chr_app in Hs.
  by apply andb_true_iff in Hs as [? ?].
Qed.

Lemma all_chr_break_snd Q P s : all_chr Q s → all_chr Q (break P s).2.
Proof.
  intros Hs. rewrite <-(break_eq P s), forall_chr_app in Hs.
  by apply andb_true_iff in Hs as [? ?].
Qed.

(** [find], [take] and [drop] in terms of [break] *)
Lemma find_break c s :
  match find c s with
  | Some i => take i s = (break (λ a, chr_eqb a c) s).1
              ∧ drop i s = (break (λ a, chr_eqb a c) s).2
              ∧ (break (λ a, chr_eqb a c) s).2 ≠ ""
  | None => break (λ a, chr_eqb a c) s = (s, "")
  end.
Proof.
  induction s as [|a s IH]; [done|]. simpl.
  destruct (chr_eqb a c); [done|].
  destruct (find c s) as [i|]; simpl.
  - destruct IH as (Ht & Hd & Hne). destruct (break _ s) as [x y]. simpl in *.
    by rewrite Ht, Hd.
  - by rewrite IH.
Qed.

Lemma split_at_break c s :
  Urllib.split_at c s
  = ((break (λ a, chr_eqb a c) s).1, drop 1 (break (λ a, chr_eqb a c) s).2).
Proof.
  unfold Urllib.split_at, has_chr, partition.
  pose proof (find_break c s) as Hfind.
  destruct (find c s) as [i|].
  - rewrite bool_decide_eq_true_2 by eauto.
    destruct Hfind as (Ht & Hd & _). rewrite Ht. f_equal. rewrite <-Hd.
    clear. revert s. induction i as [|i IH]; intros s; [done|].
    destruct s as [|a s]; [done|]. apply IH.
  - rewrite bool_decide_eq_false_2 by (by intros []). by rewrite Hfind.
Qed.

End BreakFacts.

Module UrlFacts.
Import Py PyFacts BreakFacts Urllib.

(** the characters that end a netloc *)
Definition is_delim (a : ascii) : bool :=
  chr_eqb a "/" || chr_eqb a "?" || chr_eqb a "#".

(** the characters that end a path *)
Definition ends_path (a : ascii) : bool := chr_eqb a "#" || chr_eqb a "?".

Lemma first_delim s : ∀ k,
  foldl (λ delim c, match (λ i, k + i) <$> find c s with
                    | Some wdelim => delim `min` wdelim
                    | None => delim
                    end)
        (k + String.length s) ["/"; "?"; "#"]%char
  = k + String.length (break is_delim s).1.
Proof.
  induction s as [|a s IH]; intros k; [simpl; lia|].
  cbn [foldl find break]. unfold is_delim.
  destruct (chr_eqb a "/") eqn:E1, (chr_eqb a "?") eqn:E2, (chr_eqb a "#") eqn:E3;
    cbn [orb fmap option_fmap option_map fst String.length];
    try (destruct (find "/" s), (find "?" s), (find "#" s); simpl; lia).
  specialize (IH (S k)). cbn [foldl] in IH. fold is_delim in IH |- *.
  destruct (break is_delim s) as [x y]. cbn [fst String.length] in *.
  destruct (find "/" s), (find "?" s), (find "#" s); simpl in *; lia.
Qed.

Lemma length_drop n s : n ≤ String.length s → String.length s = n + String.length (drop n s).
Proof.
  revert s. induction n as [|n IH]; intros s Hn; [done|].
  destruct s as [|a s]; simpl in *; [lia|]. rewrite (IH s) at 1 by lia. done.
Qed.

Lemma drop_drop n m s : drop (n + m) s = drop m (drop n s).
Proof.
  revert s. induction n as [|n IH]; intros s; [done|].
  destruct s as [|a s]; simpl; [by destruct m|]. apply IH.
Qed.

Lemma splitnetloc_break url :
  2 ≤ String.length url → splitnetloc url 2 = break is_delim (drop 2 url).
Proof.
  intros Hlen. unfold splitnetloc, find_from, slice.
  assert (foldl (λ delim c, match (λ i, 2 + i) <$> find c (drop 2 url) with
                            | Some wdelim => delim `min` wdelim
                            | None => delim
                            end)
                (String.length url) ["/"; "?"; "#"]%char
          = 2 + String.length (break is_delim (drop 2 url)).1) as ->.
  { rewrite (length_drop 2 url Hlen) at 1. apply first_delim. }
  replace (2 + _ - 2) with (String.length (break is_delim (drop 2 url)).1) by lia.
  rewrite drop_drop.
  pose proof (break_eq is_delim (drop 2 url)) as Heq.
  destruct (break is_delim (drop 2 url)) as [x y]. simpl in *.
  by rewrite <-Heq, take_length_app, drop_length_app.
Qed.

Lemma take2_length url : String.eqb (take 2 url) "//" = true → 2 ≤ String.length url.
Proof.
  destruct url as [|a [|b url]]; simpl; intros Heq; [done| |lia].
  by destruct (Ascii.eqb a "/").
Qed.

(** the netloc and the path of what follows the scheme; [None] when the
    brackets of the netloc make [urlsplit] raise *)
Definition net_path {L : Library} (r : string) : option (string * string) :=
  '(nl, rest) ←
    (if String.eqb (take 2 r) "//" then
       let '(nl, rest) := break is_delim (drop 2 r) in
       if brackets_ok nl then Some (nl, rest) else None
     else Some ("", r));
  Some (nl, (break ends_path rest).1).

Lemma break_break s :
  (break (λ a, chr_eqb a "?") (break (λ a, chr_eqb a "#") s).1).1
  = (break ends_path s).1.
Proof.
  induction s as [|a s IH]; [done|]. simpl. unfold ends_path.
  destruct (chr_eqb a "#") eqn:E1; simpl; [done|].
  destruct (break (λ a, chr_eqb a "#") s) as [x y]. simpl in *. 
  destruct (chr_eqb a "?") eqn:E2; simpl; [done|].
  destruct (break (λ a, chr_eqb a "?") x) as [x' y']. simpl in *. rewrite IH.
  by destruct (break _ s).
Qed.

(** what [urlsplit] finds, but for the query and the fragment *)
Lemma urlsplit_net_path {L : Library} url scheme :
  (λ sr, (sr_scheme sr, sr_netloc sr, sr_path sr)) <$> urlsplit url scheme
  = (let '(sc, r) := split_scheme (clean_url url)
                       (remove_unsafe (strip c0_control_or_space scheme)) in
     (λ np, (sc, np.1, np.2)) <$> net_path r).
Proof.
  unfold urlsplit, net_path.
  destruct (split_scheme _ _) as [sc r].
  destruct (String.eqb (take 2 r) "//") eqn:Hnet.
  - rewrite splitnetloc_break by by apply take2_length.
    destruct (break is_delim (drop 2 r)) as [nl rest].
    destruct (brackets_ok nl); [|done]. simpl.
    rewrite !split_at_break. simpl. by rewrite break_break.
  - simpl. rewrite !split_at_break. simpl. by rewrite break_break.
Qed.
End UrlFacts.

Module NormFacts.
Import Py PyFacts BreakFacts Urllib UrlFacts OsPath.

(** the path [urlparse] keeps of the path of [urlsplit] *)
Definition path_of (sc p : string) : string :=
  if str_in sc uses_params && has_chr ";" p then (splitparams p).1 else p.

Section WithLibrary.
Context {L : Library}.

Lemma urlparse_net_path url :
  (λ p, (scheme p, netloc p, path p)) <$> urlparse url
  = (let '(sc, r) := split_scheme (clean_url url) "" in
     (λ np, (sc, np.1, path_of sc np.2)) <$> net_path r).
Proof.
  pose proof (urlsplit_net_path url "") as Hsplit.
  unfold urlparse, urlparse_with.
  change (remove_unsafe (strip c0_control_or_space "")) with "" in Hsplit.
  destruct (split_scheme (clean_url url) "") as [sc r].
  destruct (urlsplit url "") as [[sc' nl' p' q f]|], (net_path r) as [[nl p]|];
    simpl in *; try done.
  injection Hsplit as -> -> ->. unfold path_of.
  by destruct (str_in sc uses_params && has_chr ";" p), (splitparams p).
Qed.

Lemma normalize_url_eq url :
  normalize_url url
  = (let '(sc, r) := split_scheme (clean_url url) "" in
     '(nl, p) ← net_path r;
     Some (sc +:+ "://" +:+ nl +:+ rstrip (chr_eqb "/") (path_of sc p))).
Proof.
  pose proof (urlparse_net_path url) as Hparse. unfold normalize_url.
  destruct (split_scheme (clean_url url) "") as [sc r].
  destruct (urlparse url) as [parsed|], (net_path r) as [[nl p]|]; simpl in *; try done.
  by injection Hparse as -> -> ->.
Qed.

Lemma is_valid_url_eq url :
  is_valid_url url
  = (let '(sc, r) := split_scheme (clean_url url) "" in
     match net_path r with
     | Some (nl, _) => bool_decide (sc ∈ ["http"; "https"]) && negb (is_empty nl)
     | None => false
     end).
Proof.
  pose proof (urlparse_net_path url) as Hparse. unfold is_valid_url.
  destruct (split_scheme (clean_url url) "") as [sc r].
  destruct (urlparse url) as [parsed|], (net_path r) as [[nl p]|]; simpl in *; try done.
  injection Hparse as Hs Hn _. by rewrite Hs, Hn.
Qed.


(** *** Appending a fragment or a slash *)

Lemma lstrip_app P s t :
  t = "" ∨ starts_with (λ a, negb (P a)) t → lstrip P (s +:+ t) = lstrip P s +:+ t.
Proof.
  intros Ht. induction s as [|a s IH].
  - rewrite !str_app_nil_l. destruct t as [|b t]; [done|].
    destruct Ht as [|Hb]; [done|]. simpl in *. apply negb_true_iff in Hb. by rewrite Hb.
  - rewrite str_app_cons. simpl. destruct (P a); [done|]. by rewrite str_app_cons.
Qed.

Lemma remove_unsafe_app s t : remove_unsafe (s +:+ t) = remove_unsafe s +:+ remove_unsafe t.
Proof. unfold remove_unsafe. by rewrite !remove_chr_app. Qed.

Lemma clean_url_app url c g :
  c0_control_or_space c = false → remove_unsafe (String c "") = String c "" →
  clean_url (url +:+ String c g) = clean_url url +:+ String c (remove_unsafe g).
Proof.
  intros Hc0 Hc. unfold clean_url.
  rewrite lstrip_app by (right; simpl; by rewrite Hc0).
  rewrite remove_unsafe_app. f_equal.
  change (String c g) with (String c "" +:+ g).
  by rewrite remove_unsafe_app, Hc.
Qed.

Lemma take_app_ge s t j :
  take (String.length s + j) (s +:+ t) = s +:+ take j t.
Proof. induction s as [|a s IH]; [done|]. rewrite !str_app_cons. simpl. by rewrite IH. Qed.

Lemma break_app_chr P s c g :
  P c = true →
  break P (s +:+ String c g) = ((break P s).1, (break P s).2 +:+ String c g).
Proof.
  intros Hc. destruct (decide ((break P s).2 = "")) as [Hnone|Hsome].
  - rewrite break_app_none by done. simpl. rewrite Hc. simpl.
    pose proof (break_eq P s) as Heq. rewrite Hnone, !str_app_nil_r in *.
    by rewrite Heq.
  - by apply break_app_found.
Qed.

(** what follows the scheme keeps what is appended, when that starts with
    a character that is neither a colon nor a character of schemes *)
Lemma split_scheme_app v c g sch :
  chr_eqb c ":" = false → scheme_chars c = false →
  split_scheme (v +:+ String c g) sch
  = ((split_scheme v sch).1, (split_scheme v sch).2 +:+ String c g).
Proof.
  intros Hcolon Hc. unfold split_scheme.
  destruct (find ":" v) as [i|] eqn:Hfind.
  - rewrite (find_app_l _ _ _ _ Hfind). apply find_lt in Hfind as Hlt.
    destruct i as [|i]; [by destruct v|].
    destruct v as [|u0 v]; [simpl in Hlt; lia|]. rewrite str_app_cons.
    rewrite <-!str_app_cons. rewrite take_app_le by lia. rewrite drop_app_le by lia.
    by destruct (is_ascii_alpha u0 && _).
  - rewrite (find_app_r _ _ _ Hfind). simpl. rewrite Hcolon.
    destruct (find ":" g) as [j|]; simpl; [|by destruct v].
    destruct v as [|u0 v].
    + rewrite str_app_nil_l. simpl. rewrite Hc. simpl. by rewrite andb_false_r.
    + rewrite str_app_cons. simpl String.length.
      replace (S (String.length v) + S j) with (S (String.length v + S j)) by lia.
      rewrite <-str_app_cons.
      replace (S (String.length v + S j)) with (String.length (String u0 v) + S j)
        by (simpl; lia).
      rewrite take_app_ge.
      change (forall_chr scheme_chars (String u0 ?x))
        with (scheme_chars u0 && forall_chr scheme_chars x).
      rewrite forall_chr_app. simpl. rewrite Hc. simpl.
      by rewrite !andb_false_r.
Qed.

(** the netloc and what follows it *)
Definition net_rest (r : string) : option (string * string) :=
  if String.eqb (take 2 r) "//" then
    let '(nl, rest) := break is_delim (drop 2 r) in
    if brackets_ok nl then Some (nl, rest) else None
  else Some ("", r).

Lemma net_path_rest r :
  net_path r = ('(nl, rest) ← net_rest r; Some (nl, (break ends_path rest).1)).
Proof. reflexivity. Qed.

Lemma net_rest_app r c g :
  is_delim c = true →
  String.eqb (take 2 (r +:+ String c g)) "//" = String.eqb (take 2 r) "//" →
  net_rest (r +:+ String c g)
  = ('(nl, rest) ← net_rest r; Some (nl, rest +:+ String c g)).
Proof.
  intros Hc Htake. unfold net_rest. rewrite Htake.
  destruct (String.eqb (take 2 r) "//") eqn:Hnet; [|done].
  rewrite drop_app_le by by apply take2_length.
  rewrite break_app_chr by done.
  destruct (break is_delim (drop 2 r)) as [nl rest]. simpl.
  by destruct (brackets_ok nl).
Qed.

Lemma take2_app_hash r g :
  String.eqb (take 2 (r +:+ String "#" g)) "//" = String.eqb (take 2 r) "//".
Proof.
  destruct r as [|a [|b r]]; try done.
Qed.

Lemma take2_app_slash r :
  r ≠ "/" →
  String.eqb (take 2 (r +:+ "/")) "//" = String.eqb (take 2 r) "//".
Proof.
  intros Hr. destruct r as [|a [|b r]]; try done.
  rewrite !str_app_cons, str_app_nil_l. simpl.
  destruct (Ascii.eqb_spec a "/") as [->|]; done.
Qed.

Lemma net_path_app_hash r g : net_path (r +:+ String "#" g) = net_path r.
Proof.
  rewrite !net_path_rest, net_rest_app by (done || apply take2_app_hash).
  destruct (net_rest r) as [[nl rest]|]; [|done]. simpl.
  by rewrite break_app_chr.
Qed.

(** *** What the parts of a URL are made of *)

Lemma all_chr_split_scheme Q v sch : all_chr Q v → all_chr Q (split_scheme v sch).2.
Proof.
  intros Hv. unfold split_scheme.
  destruct (find ":" v) as [[|i]|]; [done| |done].
  destruct v as [|u0 v]; [done|].
  destruct (is_ascii_alpha u0 && _); [|done].
  by apply all_chr_drop.
Qed.

Lemma all_chr_net_rest Q r nl rest :
  all_chr Q r → net_rest r = Some (nl, rest) → all_chr Q nl ∧ all_chr Q rest.
Proof.
  intros Hr. unfold net_rest.
  destruct (String.eqb (take 2 r) "//").
  - pose proof (all_chr_break_fst Q is_delim _ (all_chr_drop Q 2 r Hr)).
    pose proof (all_chr_break_snd Q is_delim _ (all_chr_drop Q 2 r Hr)).
    destruct (break is_delim (drop 2 r)) as [nl' rest'].
    destruct (brackets_ok nl'); [|done]. by intros [= <- <-].
  - by intros [= <- <-].
Qed.

(** *** Parsing a normalized URL again *)

Definition safe (a : ascii) : bool :=
  negb (chr_eqb a "009") && negb (chr_eqb a "013") && negb (chr_eqb a "010").

Lemma clean_url_safe url : all_chr safe (clean_url url).
Proof.
  unfold clean_url, remove_unsafe, safe.
  repeat apply all_chr_and.
  - do 2 apply all_chr_remove_chr. apply all_chr_removed.
  - apply all_chr_remove_chr. apply all_chr_removed.
  - apply all_chr_removed.
Qed.

Lemma remove_unsafe_id s : all_chr safe s → remove_unsafe s = s.
Proof.
  intros Hs. unfold remove_unsafe.
  rewrite (remove_chr_id "009" s), (remove_chr_id "013" s), (remove_chr_id "010" s);
    [done|eapply all_chr_impl; [|exact Hs]..];
    intros a; unfold safe; intros [[? ?]%andb_true_iff ?]%andb_true_iff; done.
Qed.

Lemma clean_url_id a s :
  c0_control_or_space a = false → all_chr safe (String a s) →
  clean_url (String a s) = String a s.
Proof.
  intros Ha Hs. unfold clean_url. simpl lstrip. rewrite Ha. by apply remove_unsafe_id.
Qed.

Lemma net_rest_netloc r nl rest :
  net_rest r = Some (nl, rest) → nl ≠ "" →
  all_chr (λ a, negb (is_delim a)) nl
  ∧ (rest = "" ∨ starts_with is_delim rest)
  ∧ brackets_ok nl = true.
Proof.
  unfold net_rest. destruct (String.eqb (take 2 r) "//"); [|by intros [= <- <-]].
  pose proof (break_fst is_delim (drop 2 r)).
  pose proof (break_snd is_delim (drop 2 r)).
  destruct (break is_delim (drop 2 r)) as [nl' rest'].
  destruct (brackets_ok nl') eqn:Hok; [|done]. by intros [= <- <-].
Qed.

(** *** The last segment of a path *)

Lemma rfind_none c s : rfind c s = None ↔ all_chr (λ a, negb (chr_eqb a c)) s.
Proof.
  induction s as [|a s IH]; [done|]. simpl.
  destruct (rfind c s) as [i|].
  - split; [done|]. intros [_ Hs]%andb_true_iff. by apply IH in Hs.
  - destruct (chr_eqb a c); simpl; [done|]. by rewrite <-IH.
Qed.

Lemma rfind_drop c s k : rfind c s = Some k → drop k s = String c (drop (S k) s).
Proof.
  revert k. induction s as [|a s IH]; intros k; [done|]. simpl.
  destruct (rfind c s) as [i|].
  - intros [= <-]. by apply IH.
  - unfold chr_eqb. destruct (Ascii.eqb_spec a c) as [->|]; [|done]. by intros [= <-].
Qed.

Lemma rfind_app_chr c s : rfind c (s +:+ String c "") = Some (String.length s).
Proof.
  induction s as [|a s IH].
  - rewrite str_app_nil_l. simpl. unfold chr_eqb. by rewrite Ascii.eqb_refl.
  - rewrite str_app_cons. simpl. by rewrite IH.
Qed.

Lemma basename_app_slash s : basename (s +:+ "/") = "".
Proof.
  unfold basename. rewrite rfind_app_chr.
  replace (S (String.length s)) with (String.length s + 1) by lia.
  by rewrite drop_drop, drop_length_app.
Qed.

(** [urlparse] leaves a path alone that has no [;] in its last segment *)
Lemma path_of_last sc p : has_chr ";" (basename p) = false → path_of sc p = p.
Proof.
  intros Hlast. unfold path_of.
  destruct (str_in sc uses_params); [|done]. simpl.
  destruct (has_chr ";" p) eqn:Hsemi; [|done].
  unfold splitparams, basename in *.
  destruct (rfind "/" p) as [k|] eqn:Hrfind.
  - assert (has_chr "/" p = true) as ->.
    { destruct (has_chr "/" p) eqn:Hslash; [done|].
      apply has_chr_false, rfind_none in Hslash. congruence. }
    change (default 0 (Some k)) with k.
    unfold find_from. rewrite (rfind_drop _ _ _ Hrfind).
    change (find ";" (String "/" ?x)) with (S <$> find ";" x).
    apply has_chr_false, find_none in Hlast. by rewrite Hlast.
  - congruence.
Qed.

Lemma take_all s : take (String.length s) s = s.
Proof. induction s as [|a s IH]; [done|]. simpl. by rewrite IH. Qed.

(** the path [urlparse] keeps is a prefix of the path of [urlsplit] *)
Lemma path_of_take sc p : ∃ i, path_of sc p = take i p.
Proof.
  unfold path_of.
  destruct (str_in sc uses_params && has_chr ";" p); [|exists (String.length p); by rewrite take_all].
  unfold splitparams. destruct (has_chr "/" p).
  - destruct (find_from ";" p _) as [i|]; [by exists i|].
    exists (String.length p). by rewrite take_all.
  - destruct (find ";" p) as [i|]; by eexists.
Qed.

(** empty, or starting with a slash *)
Definition rooted (s : string) : Prop :=
  s = "" ∨ starts_with (λ a, chr_eqb a "/") s.

Lemma rooted_take i s : rooted s → rooted (take i s).
Proof.
  intros [->|Hs]; [left; by destruct i|].
  destruct s as [|a s]; [done|]. destruct i; [by left|by right].
Qed.

Lemma rooted_rstrip P s : rooted s → rooted (rstrip P s).
Proof.
  intros [->|Hs]; [by left|].
  destruct s as [|a s]; [done|].
  destruct (rstrip_head P a s) as [->|[r ->]]; [by left|by right].
Qed.

Lemma rooted_path rest :
  rest = "" ∨ starts_with is_delim rest → rooted (break ends_path rest).1.
Proof.
  intros [->|Hrest]; [by left|].
  destruct rest as [|a rest]; [done|]. simpl in Hrest. cbn [break].
  destruct (ends_path a) eqn:Hends; [by left|].
  destruct (break ends_path rest) as [x y]. right. simpl.
  unfold is_delim, ends_path in *.
  destruct (chr_eqb a "/"); [done|]. simpl in *.
  by destruct (chr_eqb a "?"), (chr_eqb a "#").
Qed.

Lemma rooted_delim s : rooted s → s = "" ∨ starts_with is_delim s.
Proof.
  intros [->|Hs]; [by left|]. right. destruct s as [|a s]; [done|].
  simpl in *. unfold is_delim. by rewrite Hs.
Qed.

Lemma reparse sc nl pa :
  sc ∈ ["http"; "https"] →
  all_chr (λ a, negb (is_delim a)) nl → brackets_ok nl = true → all_chr safe nl →
  rooted pa → all_chr (λ a, negb (ends_path a)) pa → all_chr safe pa →
  split_scheme (clean_url (sc +:+ "://" +:+ nl +:+ pa)) "" = (sc, "//" +:+ nl +:+ pa)
  ∧ net_path ("//" +:+ nl +:+ pa) = Some (nl, pa).
Proof.
  intros Hsc Hdelim Hok Hsafe_nl Hroot Hends Hsafe_pa.
  assert (all_chr safe (nl +:+ pa)) as Hsafe by by apply all_chr_app.
  split.
  - apply list_elem_of_In in Hsc. simpl in Hsc. destruct Hsc as [<-|[<-|[]]].
    + change ("http" +:+ "://" +:+ nl +:+ pa) with (String "h" ("ttp://" +:+ nl +:+ pa)).
      rewrite clean_url_id; [done|done|].
      change (String "h" ("ttp://" +:+ nl +:+ pa)) with ("http://" +:+ nl +:+ pa).
      by apply all_chr_app.
    + change ("https" +:+ "://" +:+ nl +:+ pa) with (String "h" ("ttps://" +:+ nl +:+ pa)).
      rewrite clean_url_id; [done|done|].
      change (String "h" ("ttps://" +:+ nl +:+ pa)) with ("https://" +:+ nl +:+ pa).
      by apply all_chr_app.
  - rewrite net_path_rest. unfold net_rest.
    change (take 2 ("//" +:+ nl +:+ pa)) with "//".
    change (drop 2 ("//" +:+ nl +:+ pa)) with (nl +:+ pa).
    rewrite String.eqb_refl, break_app by (done || by apply rooted_delim).
    rewrite Hok. simpl.
    pose proof (break_eq ends_path pa) as Heq.
    assert ((break ends_path pa).2 = "") as Hnone by by apply break_none.
    rewrite Hnone, str_app_nil_r in Heq. by rewrite Heq.
Qed.

Lemma normalize_url_slash_last url :
  (∀ sr, urlsplit url "" = Some sr → has_chr ";" (basename (sr_path sr)) = false) →
  normalize_url (url +:+ "/") = normalize_url url.
Proof.
  intros Hlast. pose proof (urlsplit_net_path url "") as Hurlsplit.
  change (remove_unsafe (strip c0_control_or_space "")) with "" in Hurlsplit.
  rewrite !normalize_url_eq.
  rewrite clean_url_app, split_scheme_app by done.
  destruct (split_scheme (clean_url url) "") as [sc r] eqn:Hsplit. simpl.
  destruct (net_path r) as [[nl p0]|] eqn:Hnp.
  - destruct (urlsplit url "") as [sr|]; [|done]. simpl in Hurlsplit.
    injection Hurlsplit as _ _ Hp0. specialize (Hlast sr eq_refl). rewrite Hp0 in Hlast.
    destruct (decide (r = "/")) as [->|Hr].
    { injection Hnp as <- <-.
      change (net_path ("/" +:+ "/")) with (Some ("", "")). simpl.
      by rewrite !path_of_last. }
    rewrite net_path_rest in Hnp.
    rewrite !net_path_rest, net_rest_app by (done || by apply take2_app_slash).
    destruct (net_rest r) as [[nl' rest]|] eqn:Hnet; [|done]. simpl in *.
    injection Hnp as -> Hp0'. do 4 f_equal.
    destruct (decide ((break ends_path rest).2 = "")) as [Hnone|Hsome].
    + rewrite break_app_none by done. simpl.
      pose proof (break_eq ends_path rest) as Heq. rewrite Hnone, str_app_nil_r in Heq.
      rewrite Heq in Hp0'. subst p0.
      rewrite !path_of_last by (done || by rewrite basename_app_slash).
      by apply rstrip_app_chr.
    + rewrite break_app_found by done. by rewrite Hp0'.
  - destruct (decide (r = "/")) as [->|Hr]; [done|].
    rewrite net_path_rest in Hnp.
    rewrite !net_path_rest, net_rest_app by (done || by apply take2_app_slash).
    by destruct (net_rest r) as [[nl' rest]|].
Qed.

End WithLibrary.
End NormFacts.

(** ** Runs in the example worlds *)

Section CycleExample.
#[local] Existing Instance example_library.
#[local] Existing Instance cycle_world.

Lemma cycle_images url st :
  url = url_A ∨ url = url_B → get_all_images url st = (Ok [], sent (GET url) st).
Proof. intros [-> | ->]; vm_compute; reflexivity. Qed.

Lemma cycle_links_A st : get_all_links url_A url_A st = (Ok [url_B], sent (GET url_A) st).
Proof. vm_compute. reflexivity. Qed.

Lemma cycle_links_B st : get_all_links url_B url_B st = (Ok [url_A], sent (GET url_B) st).
Proof. vm_compute. reflexivity. Qed.

Lemma cycle_run max_depth :
  (2 ≤ max_depth)%Z →
  crawl url_A 0 max_depth (init () ∅)
  = (Ok (), sent (GET url_B) (sent (GET url_B) (entered
              (sent (GET url_A) (sent (GET url_A) (entered (init () ∅) url_A 0)))
              url_B 1))).
Proof.
  intros Hmd.
  rewrite (crawl_enter _ url_A); [|by vm_compute|lia|by_computing].
  unfold crawl_rest. rewrite bind_run, cycle_images by auto. cbv beta iota.
  rewrite bind_run, for_each_nil. cbv beta iota.
  replace (0 <? max_depth)%Z with true by lia.
  rewrite bind_run, cycle_links_A. cbv beta iota.
  rewrite for_each_cons, bind_run.
  replace (is_valid_url url_B) with true by (by vm_compute).
  rewrite (crawl_enter _ url_B); [|by vm_compute|lia|by_computing].
  unfold crawl_rest. rewrite bind_run, cycle_images by auto. cbv beta iota.
  rewrite bind_run, for_each_nil. cbv beta iota.
  replace (0 + 1 <? max_depth)%Z with true by lia.
  rewrite bind_run, cycle_links_B. cbv beta iota.
  rewrite for_each_cons, bind_run.
  replace (is_valid_url url_A) with true by (by vm_compute).
  rewrite (crawl_pruned _ url_A); [|by vm_compute|right; by_computing].
  rewrite for_each_nil. cbv beta iota. rewrite for_each_nil. reflexivity.
Qed.

End CycleExample.


(** ** More on URLs *)

Module NormMore.
Import Py PyFacts BreakFacts Urllib UrlFacts NormFacts OsPath.

Section WithLibrary.
Context {L : Library}.

Lemma take2_app_query r g :
  String.eqb (take 2 (r +:+ String "?" g)) "//" = String.eqb (take 2 r) "//".
Proof. destruct r as [|a [|b r]]; try done. Qed.

Lemma net_path_app_query r g : net_path (r +:+ String "?" g) = net_path r.
Proof.
  rewrite !net_path_rest, net_rest_app by (done || apply take2_app_query).
  destruct (net_rest r) as [[nl rest]|]; [|done]. simpl.
  by rewrite break_app_chr.
Qed.

(** the parts of the normal form of a valid URL *)
Lemma normalize_url_parts url :
  is_valid_url url = true →
  ∃ sc nl pa,
    normalize_url url = Some (sc +:+ "://" +:+ nl +:+ pa)
    ∧ sc ∈ ["http"; "https"]
    ∧ nl ≠ ""
    ∧ all_chr (λ a, negb (is_delim a)) nl
    ∧ brackets_ok nl = true
    ∧ all_chr safe nl
    ∧ rooted pa
    ∧ all_chr (λ a, negb (ends_path a)) pa
    ∧ all_chr safe pa
    ∧ rstrip (chr_eqb "/") pa = pa.
Proof.
  intros Hvalid.
  rewrite is_valid_url_eq in Hvalid. rewrite normalize_url_eq.
  destruct (split_scheme (clean_url url) "") as [sc r] eqn:Hsplit.
  rewrite net_path_rest in *.
  destruct (net_rest r) as [[nl rest]|] eqn:Hnet; simpl in *; [|done].
  apply andb_true_iff in Hvalid as [Hsc%bool_decide_eq_true Hnl].
  assert (nl ≠ "") as Hnl' by (by destruct nl).
  destruct (net_rest_netloc _ _ _ Hnet Hnl') as (Hdelim & Hrest & Hok).
  assert (all_chr safe nl ∧ all_chr safe rest) as [Hsafe_nl Hsafe_rest].
  { eapply all_chr_net_rest; [|exact Hnet]. change r with (sc, r).2.
    rewrite <-Hsplit. apply all_chr_split_scheme, clean_url_safe. }
  set (p0 := (break ends_path rest).1) in *.
  destruct (path_of_take sc p0) as [i Hp]. rewrite Hp.
  exists sc, nl, (rstrip (chr_eqb "/") (take i p0)).
  split_and!; try done.
  - by apply rooted_rstrip, rooted_take, rooted_path.
  - apply all_chr_rstrip, all_chr_take, break_fst.
  - by apply all_chr_rstrip, all_chr_take, all_chr_break_fst.
  - apply rstrip_idemp.
Qed.

(** the normal form of a valid URL is valid *)
Lemma normalize_url_valid url n :
  is_valid_url url = true → normalize_url url = Some n → is_valid_url n = true.
Proof.
  intros Hvalid Hn.
  destruct (normalize_url_parts url Hvalid)
    as (sc & nl & pa & Hn' & Hsc & Hnl & Hdelim & Hok & Hsafe & Hroot & Hends & Hsafe' & _).
  rewrite Hn in Hn'. injection Hn' as ->.
  destruct (reparse sc nl pa) as [Hsplit Hnet]; try done.
  rewrite is_valid_url_eq, Hsplit, Hnet.
  rewrite bool_decide_eq_true_2 by done. by destruct nl.
Qed.

(** *** Last characters *)

Lemma endswith_chr_cons c a r :
  endswith (String c "") (String a r)
  = if is_empty r then Ascii.eqb a c else endswith (String c "") r.
Proof.
  destruct r as [|b r]; simpl.
  - destruct (Ascii.eqb a c); done.
  - destruct (Ascii.eqb a c); done.
Qed.

Lemma endswith_chr_app c s t :
  t ≠ "" → endswith (String c "") (s +:+ t) = endswith (String c "") t.
Proof.
  intros Ht. induction s as [|a s IH]; [done|].
  rewrite str_app_cons, endswith_chr_cons, IH.
  destruct s as [|b s]; [|done]. rewrite str_app_nil_l. by destruct t.
Qed.

Lemma endswith_chr_none c s :
  all_chr (λ a, negb (Ascii.eqb a c)) s → endswith (String c "") s = false.
Proof.
  induction s as [|a s IH]; [done|]. intros [Ha Hs]%andb_true_iff.
  rewrite endswith_chr_cons, (IH Hs). apply negb_true_iff in Ha. by destruct (is_empty s).
Qed.

Lemma endswith_chr_rstrip c s :
  endswith (String c "") (rstrip (chr_eqb c) s) = false.
Proof.
  induction s as [|a s IH]; [done|]. simpl.
  destruct (rstrip (chr_eqb c) s) as [|b r] eqn:Hr.
  - unfold chr_eqb. destruct (Ascii.eqb_spec c a) as [->|Hne]; [done|].
    simpl. destruct (Ascii.eqb_spec a c) as [->|]; done.
  - by rewrite endswith_chr_cons.
Qed.

End WithLibrary.
End NormMore.

Module ValidFacts.
Import Py PyFacts BreakFacts Urllib UrlFacts NormFacts NormMore OsPath.

Lemma find_drop c s i : find c s = Some i → drop i s = String c (drop (S i) s).
Proof.
  revert i. induction s as [|a s IH]; intros i; [done|]. simpl.
  unfold chr_eqb. destruct (Ascii.eqb_spec a c) as [->|]; [by intros [= <-]|].
  destruct (find c s) as [j|]; [|done]. intros [= <-]. by apply IH.
Qed.

Lemma take2_drop r : String.eqb (take 2 r) "//" = true → r = "//" +:+ drop 2 r.
Proof.
  intros Heq%String.eqb_eq. rewrite <-Heq. symmetry. apply take_drop.
Qed.

(** a scheme that is not the default was cut off before a colon *)
Lemma split_scheme_found v sc r :
  split_scheme v "" = (sc, r) → sc ≠ "" →
  ∃ sc', v = sc' +:+ ":" +:+ r ∧ sc = lower sc'.
Proof.
  unfold split_scheme. intros Hsplit Hsc.
  destruct (find ":" v) as [[|i]|] eqn:Hfind;
    [injection Hsplit as <- <-; congruence| |injection Hsplit as <- <-; congruence].
  destruct v as [|u0 v]; [discriminate Hfind|].
  destruct (is_ascii_alpha u0 && _); [|injection Hsplit as <- <-; congruence].
  injection Hsplit as <- <-. exists (take (S i) (String u0 v)). split; [|done].
  rewrite <-(take_drop (S i) (String u0 v)) at 1. f_equal.
  by rewrite (find_drop _ _ _ Hfind).
Qed.

(** a character that reads as a lower-case letter in lower case is a letter *)
Lemma lower_chr_letter c : is_lower (lower_chr c) = true → is_ascii_alpha c = true.
Proof.
  unfold lower_chr, is_ascii_alpha. destruct (is_upper c); [done|]. by intros ->.
Qed.

Lemma lower_letters sc :
  all_chr is_lower (lower sc) →
  all_chr (λ a, is_ascii_alpha a && negb (chr_eqb a ":")) sc.
Proof.
  induction sc as [|a sc IH]; [done|].
  change (lower (String a sc)) with (String (lower_chr a) (lower sc)).
  intros [Ha Hsc]%andb_true_iff. simpl. rewrite (IH Hsc), (lower_chr_letter a Ha).
  rewrite andb_true_r. simpl. apply negb_true_iff. unfold chr_eqb.
  destruct (Ascii.eqb_spec a ":") as [->|]; [|done]. by vm_compute in Ha.
Qed.

Lemma find_app_chr c s t :
  all_chr (λ a, negb (chr_eqb a c)) s →
  find c (s +:+ String c t) = Some (String.length s).
Proof.
  intros Hs. rewrite find_app_r by by apply find_none.
  simpl. unfold chr_eqb. rewrite Ascii.eqb_refl. simpl. f_equal. lia.
Qed.

(** a scheme made of letters is cut off before its colon *)
Lemma split_scheme_letters sc r :
  sc ≠ "" → all_chr (λ a, is_ascii_alpha a && negb (chr_eqb a ":")) sc →
  split_scheme (sc +:+ ":" +:+ r) "" = (lower sc, r).
Proof.
  intros Hne Hsc. unfold split_scheme.
  change (":" +:+ r) with (String ":" r).
  rewrite find_app_chr
    by (eapply all_chr_impl; [|exact Hsc]; by intros a [_ ?]%andb_true_iff).
  destruct sc as [|u0 sc]; [done|]. rewrite str_app_cons. simpl String.length.
  rewrite <-str_app_cons.
  replace (S (String.length sc)) with (String.length (String u0 sc)) by done.
  rewrite take_length_app.
  replace (S (String.length (String u0 sc)))
    with (String.length (String u0 sc +:+ ":"))
    by (rewrite str_length_app; simpl; lia).
  change (String ":" r) with (":" +:+ r).
  rewrite <-str_app_assoc, drop_length_app.
  assert (is_ascii_alpha u0 = true) as ->.
  { simpl in Hsc. by apply andb_true_iff in Hsc as [[? _]%andb_true_iff _]. }
  assert (forall_chr scheme_chars (String u0 sc) = true) as ->; [|done].
  eapply all_chr_impl; [|exact Hsc]. intros a [Ha _]%andb_true_iff.
  unfold scheme_chars, is_ascii_alpha in *.
  by destruct (is_lower a), (is_upper a).
Qed.

End ValidFacts.

(** ** Invariants of a crawl *)

Section Invariants.
Context {L : Library} {W : Type} {WO : World W}.
(** A preorder [R] that sending a request and reporting a failed fetch keep
    is kept by the methods that read a page; one that the downloads and the
    entry of a page keep as well is kept by [crawl]. *)
Context (R : relation (Spider W)) `{!PreOrder R}.

Hypothesis R_send : ∀ A r (call : W → A * W), steps R (send r call).
Hypothesis R_error : ∀ url, steps R (print (ErrorFetching url)).

Ltac walk :=
  first
    [ apply steps_ret; apply _
    | apply steps_raise; apply _
    | apply steps_or_value_error; apply _
    | apply steps_get_state; apply _
    | apply steps_global_name; apply _
    | apply R_send
    | apply R_error
    | solve [auto 2]
    | apply steps_bind; [apply _| |intros ?]
    | apply steps_try; [apply _| |intros ?]
    | match goal with
      | |- steps _ (match ?x with _ => _ end) => destruct x
      end ].

Lemma steps_get_page url : steps R (get_page url).
Proof. unfold get_page. repeat walk. Qed.

Lemma steps_get_all_links url base_url : steps R (get_all_links url base_url).
Proof. pose proof steps_get_page. unfold get_all_links. repeat walk. Qed.

Lemma steps_classify url : steps R (classify url).
Proof. unfold classify. repeat walk. Qed.

Lemma steps_image_step url images img : steps R (image_step url images img).
Proof. pose proof steps_classify. unfold image_step. repeat walk. Qed.

Lemma steps_images_loop url imgs : ∀ images, steps R (images_loop url images imgs).
Proof.
  pose proof steps_image_step.
  induction imgs as [|img imgs IH]; intros images; simpl; repeat walk.
Qed.

Lemma steps_get_all_images url : steps R (get_all_images url).
Proof.
  pose proof steps_get_page. pose proof steps_images_loop.
  unfold get_all_images. repeat walk.
Qed.

Lemma steps_derive_filename img_url response :
  steps R (derive_filename img_url response).
Proof. unfold derive_filename. repeat walk. Qed.

(** a relation that writing and reporting keep is kept by [download_image] *)
Lemma steps_download_image img_url :
  (∀ filepath data, steps R (write_file filepath data)) →
  (∀ name, steps R (print (Downloaded img_url name))) →
  (∀ e, steps R (print (FailedToDownload img_url e))) →
  steps R (download_image img_url).
Proof.
  intros Hwrite Hdone Hfailed.
  pose proof steps_get_page. pose proof steps_derive_filename.
  unfold download_image. repeat walk.
Qed.

Hypothesis R_download : ∀ img_url, steps R (download_image img_url).

(** [P] holds of the URLs [crawl] is called on *)
Context (P : string → Prop).
Hypothesis P_link : ∀ link, is_valid_url link = true → P link.
Hypothesis R_enter : ∀ url n depth st,
  P url → normalize_url url = Some n → n ∉ visited st → R st (entered st n depth).

Lemma steps_crawl_rest rec n depth max_depth :
  (∀ link, P link → steps R (rec link)) →
  steps R (crawl_rest rec n depth max_depth).
Proof.
  intros Hrec. unfold crawl_rest.
  apply steps_bind; [apply _|apply steps_get_all_images|intros images].
  apply steps_bind; [apply _| |intros _].
  { apply steps_for_each; [apply _|]. intros img _. apply R_download. }
  destruct (depth <? max_depth)%Z; [|apply steps_ret, _].
  apply steps_bind; [apply _|apply steps_get_all_links|intros links].
  apply steps_for_each; [apply _|]. intros link _.
  destruct (is_valid_url link) eqn:Hvalid; [|apply steps_ret, _].
  by apply Hrec, P_link.
Qed.

Lemma steps_crawl_body rec url depth max_depth :
  P url → (∀ link, P link → steps R (rec link)) →
  steps R (crawl_body rec url depth max_depth).
Proof.
  intros Hurl Hrec st.
  destruct (normalize_url url) as [n|] eqn:Hn.
  - destruct (decide ((max_depth < depth)%Z ∨ n ∈ visited st)) as [Hcut|Hgo].
    + by rewrite (crawl_body_pruned _ _ n).
    + rewrite (crawl_body_enter _ _ n) by (lia || tauto).
      trans (entered st n depth); [apply (R_enter url); (done || tauto)|].
      by apply steps_crawl_rest.
  - unfold crawl_body. by rewrite Hn.
Qed.

Lemma steps_crawl_fuel fuel : ∀ url depth max_depth,
  P url → steps R (crawl_fuel fuel url depth max_depth).
Proof.
  induction fuel as [|fuel IH]; intros url depth max_depth Hurl; simpl.
  - apply steps_crawl_body; [done|]. intros link _. apply steps_ret, _.
  - apply steps_crawl_body; [done|]. intros link Hlink. by apply IH.
Qed.

Lemma steps_crawl url depth max_depth :
  P url → steps R (crawl url depth max_depth).
Proof. apply steps_crawl_fuel. Qed.

End Invariants.

Section Relations.
Context {L : Library} {W : Type} {WO : World W}.
Import NormMore.

(** a relation that holds when nothing is crawled holds along a crawl, once
    it holds where a page is entered *)
Lemma steps_crawl_framed (R : relation (Spider W)) `{!PreOrder R} (P : string → Prop) :
  (∀ st st', frame st st' → R st st') →
  (∀ link, is_valid_url link = true → P link) →
  (∀ url n depth st,
     P url → normalize_url url = Some n → n ∉ visited st → R st (entered st n depth)) →
  ∀ url depth max_depth, P url → steps R (crawl url depth max_depth).
Proof.
  intros Hframe Hlink Henter. apply steps_crawl; try done.
  - intros A r call. eapply steps_mono; [exact Hframe|apply frame_send].
  - intros url'. eapply steps_mono; [exact Hframe|by apply frame_print].
  - intros img_url. eapply steps_mono; [exact Hframe|apply frame_download_image].
Qed.

(** the pages logged are those that were marked *)
Definition logged_rel : relation (Spider W) := λ st st',
  ∃ new, crawled (stdout st') = crawled (stdout st) ++ new
         ∧ visited st' = visited st ∪ list_to_set (new.*1).

#[global] Instance logged_rel_preorder : PreOrder logged_rel.
Proof.
  split.
  - intros st. exists []. rewrite app_nil_r. split; [done|]. set_solver.
  - intros st1 st2 st3 (new1 & Hlog1 & Hv1) (new2 & Hlog2 & Hv2).
    exists (new1 ++ new2). split; [by rewrite Hlog2, Hlog1, app_assoc|].
    rewrite Hv2, Hv1, fmap_app, list_to_set_app_L. set_solver.
Qed.

(** the pages logged are valid, the seed apart *)
Definition valid_rel (seed : string) : relation (Spider W) := λ st st',
  ∃ new, crawled (stdout st') = crawled (stdout st) ++ new
         ∧ Forall (λ ud, is_valid_url ud.1 = true ∨ normalize_url seed = Some ud.1) new.

#[global] Instance valid_rel_preorder seed : PreOrder (valid_rel seed).
Proof.
  split.
  - intros st. exists []. by rewrite app_nil_r.
  - intros st1 st2 st3 (new1 & Hlog1 & Hv1) (new2 & Hlog2 & Hv2).
    exists (new1 ++ new2). split; [by rewrite Hlog2, Hlog1, app_assoc|].
    by apply Forall_app.
Qed.

Lemma valid_rel_crawl seed depth max_depth :
  steps (valid_rel seed) (crawl seed depth max_depth).
Proof.
  apply (steps_crawl_framed (valid_rel seed)
           (λ url, is_valid_url url = true ∨ url = seed)); auto.
  - intros st st' [Hv Hl]. exists []. by rewrite app_nil_r.
  - intros url n d st Hurl Hn _. exists [(n, d)]. simpl. rewrite crawled_app.
    split; [done|]. apply Forall_singleton. simpl.
    destruct Hurl as [Hvalid| ->]; [left|by right].
    by apply (normalize_url_valid url).
Qed.

(** the files that exist are kept, and so is the download path *)
Definition keeps_files : relation (Spider W) := λ st st',
  fs st ⊆ fs st' ∧ download_path st' = download_path st.

#[global] Instance keeps_files_preorder : PreOrder keeps_files.
Proof.
  split.
  - by intros st.
  - intros st1 st2 st3 [Hfs1 Hp1] [Hfs2 Hp2]. split; [by trans (fs st2)|congruence].
Qed.

Lemma keeps_files_send {A} r (call : W → A * W) : steps keeps_files (send r call).
Proof. intros st. unfold send. destruct (call (world st)). by split. Qed.

Lemma keeps_files_print m : steps keeps_files (@print W m).
Proof. by intros st. Qed.

Lemma keeps_files_download_image img_url : steps keeps_files (download_image img_url).
Proof.
  unfold download_image.
  apply steps_try; [apply _| |intros e; apply keeps_files_print].
  apply steps_bind; [apply _| |intros [response|]; [|apply steps_ret, _]].
  { apply (steps_get_page keeps_files);
      [apply @keeps_files_send|intros; apply keeps_files_print]. }
  apply steps_bind; [apply _| |intros filename].
  { apply (steps_derive_filename keeps_files). }
  intros st. rewrite bind_get_state.
  destruct (free_path _ _ _ _ _ _) as [filepath|] eqn:Hfree; [|done].
  apply free_path_spec in Hfree as [Hnew _].
  assert (fs st !! filepath = None) as Hnone.
  { apply not_elem_of_dom. unfold existing in Hnew. set_solver. }
  rewrite bind_run. unfold write_file. rewrite bind_get_state.
  destruct (can_open filepath (world st)); [|done].
  destruct (write_fails _ _ _); simpl; (split; [|done]); by apply insert_subseteq.
Qed.

Lemma keeps_files_crawl url depth max_depth :
  steps keeps_files (crawl url depth max_depth).
Proof.
  apply (steps_crawl keeps_files (@keeps_files_send) (λ url, keeps_files_print _)
           keeps_files_download_image (λ _, True)); done.
Qed.

(** requests are only added *)
Definition grows : relation (Spider W) := λ st st',
  ∃ more, requests st' = requests st ++ more.

#[global] Instance grows_preorder : PreOrder grows.
Proof.
  split.
  - intros st. exists []. by rewrite app_nil_r.
  - intros st1 st2 st3 [m1 H1] [m2 H2]. exists (m1 ++ m2).
    by rewrite H2, H1, app_assoc.
Qed.

Lemma grows_send {A} r (call : W → A * W) : steps grows (send r call).
Proof. intros st. unfold send. destruct (call (world st)). by exists [r]. Qed.

Lemma grows_print m : steps grows (@print W m).
Proof. intros st. exists []. simpl. by rewrite app_nil_r. Qed.

Lemma grows_write_file filepath data : steps grows (write_file filepath data).
Proof.
  intros st. unfold write_file. rewrite bind_get_state.
  destruct (can_open _ _); [|exists []; simpl; by rewrite app_nil_r].
  destruct (write_fails _ _ _); exists []; simpl; by rewrite app_nil_r.
Qed.

Lemma grows_download_image img_url : steps grows (download_image img_url).
Proof.
  apply (steps_download_image grows).
  - apply @grows_send.
  - intros; apply grows_print.
  - apply grows_write_file.
  - intros; apply grows_print.
  - intros; apply grows_print.
Qed.

Lemma grows_crawl url depth max_depth : steps grows (crawl url depth max_depth).
Proof.
  apply (steps_crawl grows (@grows_send) (λ url, grows_print _)
           grows_download_image (λ _, True)); try done.
  intros _ n d st _ _ _. exists []. simpl. by rewrite app_nil_r.
Qed.

(** a page is asked for first *)
Lemma get_all_images_requests url st :
  ∃ more, requests (get_all_images url st).2 = requests st ++ GET url :: more.
Proof.
  unfold get_all_images. rewrite bind_run.
  destruct (session_get url (world st)) as [[response|] w] eqn:Hget.
  - rewrite (get_page_ok _ _ _ _ Hget).
    destruct (steps_bind grows (images_loop url [] (img_src (text response)))
                (λ images, ret (set_order images))) with (st := fetched st url w)
      as [more Hmore].
    + apply (steps_images_loop grows), @grows_send.
    + intros images. apply steps_ret, _.
    + exists more. rewrite Hmore. simpl. by rewrite <-app_assoc.
  - rewrite (get_page_fail _ _ _ Hget). by exists [].
Qed.

Lemma get_all_links_requests url base_url st :
  ∃ more, requests (get_all_links url base_url st).2 = requests st ++ GET url :: more.
Proof.
  unfold get_all_links. rewrite bind_run.
  destruct (session_get url (world st)) as [[response|] w] eqn:Hget.
  - rewrite (get_page_ok _ _ _ _ Hget). exists [].
    by destruct (links_loop _ _ _).
  - rewrite (get_page_fail _ _ _ Hget). by exists [].
Qed.

End Relations.

(** ** What a method raises *)

Section Raising.
Context {L : Library} {W : Type} {WO : World W}.

(** [m] returns, whatever the state *)
Definition returns {A} (m : M W A) : Prop := ∀ st, ∃ a, (m st).1 = Ok a.

(** [m] raises nothing but [e0] *)
Definition raises_only (e0 : exn) {A} (m : M W A) : Prop :=
  ∀ st e, (m st).1 = Raise e → e = e0.

Lemma returns_raises_only e0 {A} (m : M W A) : returns m → raises_only e0 m.
Proof. intros Hm st e He. destruct (Hm st) as [a Ha]. congruence. Qed.

Lemma returns_ret {A} (a : A) : returns (@ret W A a).
Proof. intros st. by exists a. Qed.

Lemma returns_bind {A B} (m : M W A) (k : A → M W B) :
  returns m → (∀ a, returns (k a)) → returns (bind m k).
Proof.
  intros Hm Hk st. rewrite bind_run. destruct (Hm st) as [a Ha].
  destruct (m st) as [[a'|e] st']; simpl in Ha; [|done]. apply Hk.
Qed.

Lemma returns_try {A} (m : M W A) h : (∀ e, returns (h e)) → returns (try_except m h).
Proof.
  intros Hh st. unfold try_except.
  destruct (m st) as [[a|e] st']; [by exists a|apply Hh].
Qed.

Lemma returns_for_each {A} (l : list A) body :
  (∀ x, returns (body x)) → returns (for_each l body).
Proof.
  intros Hb. induction l as [|x l IH]; simpl; [apply returns_ret|].
  apply returns_bind; [apply Hb|done].
Qed.

Lemma returns_send {A} r (call : W → A * W) : returns (send r call).
Proof. intros st. unfold send. destruct (call (world st)) as [a w]. by exists a. Qed.

Lemma returns_print m : returns (@print W m).
Proof. intros st. by exists (). Qed.

Lemma returns_get_page url : returns (get_page url).
Proof.
  unfold get_page. apply returns_bind; [apply returns_send|].
  intros [response|]; [apply returns_ret|].
  apply returns_bind; [apply returns_print|intros _; apply returns_ret].
Qed.

(** whatever goes wrong in [download_image] is caught *)
Lemma returns_download_image img_url : returns (download_image img_url).
Proof. apply returns_try. intros e. apply returns_print. Qed.

Lemma raises_only_raise e0 {A} : raises_only e0 (@raise W A e0).
Proof. intros st e [= <-]. done. Qed.

Lemma raises_only_bind e0 {A B} (m : M W A) (k : A → M W B) :
  raises_only e0 m → (∀ a, raises_only e0 (k a)) → raises_only e0 (bind m k).
Proof.
  intros Hm Hk st e. rewrite bind_run. specialize (Hm st).
  destruct (m st) as [[a|e'] st']; simpl in *; [apply Hk|].
  intros [= <-]. by apply Hm.
Qed.

Lemma raises_only_for_each e0 {A} (l : list A) body :
  (∀ x, raises_only e0 (body x)) → raises_only e0 (for_each l body).
Proof.
  intros Hb. induction l as [|x l IH]; simpl.
  - apply returns_raises_only, returns_ret.
  - apply raises_only_bind; [apply Hb|done].
Qed.

Lemma raises_only_or_value_error {A} (o : option A) :
  raises_only ValueError (@or_value_error W A o).
Proof.
  destruct o; [apply returns_raises_only, returns_ret|apply raises_only_raise].
Qed.

Ltac raising :=
  first
    [ apply raises_only_or_value_error
    | apply returns_raises_only;
        first [ apply returns_ret | apply returns_send | apply returns_get_page
              | apply returns_download_image ]
    | solve [auto 2]
    | apply raises_only_bind; [|intros ?]
    | match goal with
      | |- raises_only _ (match ?x with _ => _ end) => destruct x
      end ].

Lemma raises_only_get_all_links url base_url :
  raises_only ValueError (get_all_links url base_url).
Proof. unfold get_all_links. repeat raising. Qed.

Lemma raises_only_classify url : raises_only ValueError (classify url).
Proof. unfold classify. repeat raising. Qed.

Lemma raises_only_image_step url images img :
  raises_only ValueError (image_step url images img).
Proof. pose proof raises_only_classify. unfold image_step. repeat raising. Qed.

Lemma raises_only_images_loop url imgs : ∀ images,
  raises_only ValueError (images_loop url images imgs).
Proof.
  pose proof raises_only_image_step.
  induction imgs as [|img imgs IH]; intros images; simpl; repeat raising.
Qed.

Lemma raises_only_get_all_images url : raises_only ValueError (get_all_images url).
Proof. pose proof raises_only_images_loop. unfold get_all_images. repeat raising. Qed.

Lemma raises_only_crawl_body rec url depth max_depth :
  (∀ link, raises_only ValueError (rec link)) →
  raises_only ValueError (crawl_body rec url depth max_depth).
Proof.
  intros Hrec. unfold crawl_body, add_visited.
  apply raises_only_bind; [apply raises_only_or_value_error|intros n].
  apply raises_only_bind; [by apply returns_raises_only; intros st; exists st|intros st0].
  destruct (_ || _); [apply returns_raises_only, returns_ret|].
  apply raises_only_bind; [by apply returns_raises_only; intros st; exists ()|intros _].
  apply raises_only_bind; [apply returns_raises_only, returns_print|intros _].
  apply raises_only_bind; [apply raises_only_get_all_images|intros images].
  apply raises_only_bind; [|intros _].
  { apply returns_raises_only, returns_for_each, returns_download_image. }
  destruct (depth <? max_depth)%Z; [|apply returns_raises_only, returns_ret].
  apply raises_only_bind; [apply raises_only_get_all_links|intros links].
  apply raises_only_for_each. intros link.
  destruct (is_valid_url link); [apply Hrec|apply returns_raises_only, returns_ret].
Qed.

Lemma raises_only_crawl_fuel fuel : ∀ url depth max_depth,
  raises_only ValueError (crawl_fuel fuel url depth max_depth).
Proof.
  induction fuel as [|fuel IH]; intros url depth max_depth; simpl;
    apply raises_only_crawl_body; intros link; [|apply IH].
  apply returns_raises_only, returns_ret.
Qed.

(** [link_step] raises or not whatever the links found so far *)
Lemma link_step_is_Some base_url links links' a :
  is_Some (link_step base_url links a) → is_Some (link_step base_url links' a).
Proof.
  unfold link_step.
  destruct (Py.startswith "#" _); [done|].
  destruct (Py.startswith "javascript:" _); [done|].
  destruct (Urllib.urljoin _ _) as [absolute_url|]; [|done]. simpl.
  destruct (normalize_url _) as [n|]; [|done]. simpl.
  by destruct (is_valid_url n).
Qed.

Lemma links_loop_raises base_url a anchors : ∀ links,
  a ∈ anchors → link_step base_url [] a = None →
  links_loop base_url links anchors = None.
Proof.
  intros links Hin Hbad. revert links.
  induction anchors as [|a' anchors IH]; intros links; [by apply elem_of_nil in Hin|].
  simpl. destruct (link_step base_url links a') as [links'|] eqn:Hstep; [|done]. simpl.
  apply elem_of_cons in Hin as [->|Hin]; [|by apply IH].
  destruct (link_step_is_Some base_url links [] a') as [? Hsome]; [by eexists|].
  congruence.
Qed.

End Raising.

(** ** Links *)

Section LinkFacts.
Context {L : Library} {W : Type} {WO : World W}.

Lemma set_add_NoDup x s : NoDup s → NoDup (set_add x s).
Proof.
  intros Hs. unfold set_add. case_bool_decide as Hx; [done|].
  apply NoDup_app. split_and!; [done| |apply NoDup_singleton].
  intros y Hy ->%list_elem_of_singleton. done.
Qed.

Lemma links_loop_valid base_url anchors : ∀ links links',
  links_loop base_url links anchors = Some links' →
  NoDup links → Forall (λ link, is_valid_url link = true) links →
  NoDup links' ∧ Forall (λ link, is_valid_url link = true) links'.
Proof.
  induction anchors as [|a anchors IH]; intros links links' Hloop Hnd Hvalid; simpl in *.
  - by injection Hloop as <-.
  - destruct (link_step base_url links a) as [links1|] eqn:Hstep; [|done]. simpl in Hloop.
    apply (IH links1 links' Hloop); unfold link_step in Hstep.
    + destruct (Py.startswith "#" _); [by injection Hstep as <-|].
      destruct (Py.startswith "javascript:" _); [by injection Hstep as <-|].
      destruct (Urllib.urljoin _ _) as [absolute_url|]; [|done]. simpl in Hstep.
      destruct (normalize_url _) as [n|]; [|done]. simpl in Hstep.
      destruct (is_valid_url n); injection Hstep as <-; [by apply set_add_NoDup|done].
    + destruct (Py.startswith "#" _); [by injection Hstep as <-|].
      destruct (Py.startswith "javascript:" _); [by injection Hstep as <-|].
      destruct (Urllib.urljoin _ _) as [absolute_url|]; [|done]. simpl in Hstep.
      destruct (normalize_url _) as [n|]; [|done]. simpl in Hstep.
      destruct (is_valid_url n) eqn:Hn; injection Hstep as <-; [|done].
      unfold set_add. case_bool_decide; [done|].
      apply Forall_app. split; [done|]. by apply Forall_singleton.
Qed.

(** [link] is what the anchor [a] contributes *)
Definition links_to (base_url a link : string) : Prop :=
  Py.startswith "#" (Py.strip_ws a) = false
  ∧ Py.startswith "javascript:" (Py.strip_ws a) = false
  ∧ ∃ absolute_url,
      Urllib.urljoin base_url (Py.strip_ws a) = Some absolute_url
      ∧ normalize_url absolute_url = Some link
      ∧ is_valid_url link = true.

Lemma elem_of_set_add x y s : x ∈ set_add y s ↔ x ∈ s ∨ x = y.
Proof.
  unfold set_add. case_bool_decide as Hy.
  - split; [by left|]. by intros [?| ->].
  - rewrite elem_of_app, list_elem_of_singleton. done.
Qed.

Lemma link_step_spec base_url links links' a :
  link_step base_url links a = Some links' →
  ∀ link, link ∈ links' ↔ link ∈ links ∨ links_to base_url a link.
Proof.
  unfold link_step, links_to. intros Hstep link.
  destruct (Py.startswith "#" _).
  { injection Hstep as <-. split; [by left|]. by intros [?|[? _]]. }
  destruct (Py.startswith "javascript:" _).
  { injection Hstep as <-. split; [by left|]. by intros [?|(_ & ? & _)]. }
  destruct (Urllib.urljoin _ _) as [absolute_url|]; [|done]. simpl in Hstep.
  destruct (normalize_url absolute_url) as [n|] eqn:Hn; [|done]. simpl in Hstep.
  destruct (is_valid_url n) eqn:Hvalid; injection Hstep as <-.
  - rewrite elem_of_set_add. split.
    + intros [?| ->]; [by left|]. right. split_and!; [done..|]. by exists absolute_url.
    + intros [?|(_ & _ & abs' & [= <-] & Hn' & _)]; [by left|].
      right. congruence.
  - split; [by left|].
    intros [?|(_ & _ & abs' & [= <-] & Hn' & Hv)]; [done|]. congruence.
Qed.

Lemma links_loop_spec base_url anchors : ∀ links links',
  links_loop base_url links anchors = Some links' →
  ∀ link, link ∈ links' ↔ link ∈ links ∨ ∃ a, a ∈ anchors ∧ links_to base_url a link.
Proof.
  induction anchors as [|a anchors IH]; intros links links' Hloop link; simpl in Hloop.
  - injection Hloop as <-. split; [by left|]. intros [?|(a & Ha & _)]; [done|].
    by apply elem_of_nil in Ha.
  - destruct (link_step base_url links a) as [links1|] eqn:Hstep; [|done].
    simpl in Hloop. rewrite (IH _ _ Hloop), (link_step_spec _ _ _ _ Hstep). split.
    + intros [[?|?]|(a' & Ha' & ?)]; [by left|right; exists a|right; exists a'];
        (split; [|done]); [by left|by right].
    + intros [?|(a' & [->|Ha']%elem_of_cons & ?)];
        [by left; left|by left; right|right; by exists a'].
Qed.

End LinkFacts.

(** ** Paths and downloads *)

Module PathFacts.
Import Py PyFacts OsPath NormFacts NormMore.

Abbreviation no_slash s := (has_chr "/" s = false).

Lemma no_slash_app s t : no_slash s → no_slash t → no_slash (s +:+ t).
Proof. rewrite !has_chr_false. apply all_chr_app. Qed.

Lemma no_slash_take n s : no_slash s → no_slash (take n s).
Proof. rewrite !has_chr_false. apply all_chr_take. Qed.

Lemma no_slash_drop n s : no_slash s → no_slash (drop n s).
Proof. rewrite !has_chr_false. apply all_chr_drop. Qed.

Lemma rfind_after c s i :
  rfind c s = Some i → all_chr (λ a, negb (chr_eqb a c)) (drop (S i) s).
Proof.
  revert i. induction s as [|a s IH]; intros i; [done|]. simpl.
  destruct (rfind c s) as [j|] eqn:Hr.
  - intros [= <-]. by apply IH.
  - destruct (chr_eqb a c); [|done]. intros [= <-]. by apply rfind_none.
Qed.

Lemma basename_no_slash p : no_slash (basename p).
Proof.
  apply has_chr_false. unfold basename.
  destruct (rfind "/" p) as [i|] eqn:Hr; [by apply rfind_after|by apply rfind_none].
Qed.

Lemma splitext_no_slash p :
  no_slash p → no_slash (splitext p).1 ∧ no_slash (splitext p).2.
Proof.
  intros Hp. unfold splitext. destruct (rfind "." p) as [dotIndex|]; [|done].
  destruct (_ && _); [|done]. simpl.
  split; [by apply no_slash_take|by apply no_slash_drop].
Qed.

Lemma rfind_app_none c s t :
  all_chr (λ a, negb (chr_eqb a c)) t → rfind c (s +:+ t) = rfind c s.
Proof.
  intros Ht. induction s as [|a s IH]; [by apply rfind_none|].
  rewrite str_app_cons. simpl. by rewrite IH.
Qed.

Lemma basename_app_name s name : no_slash name → basename (s +:+ "/" +:+ name) = name.
Proof.
  intros Hname. unfold basename.
  rewrite <-str_app_assoc, rfind_app_none, rfind_app_chr by by apply has_chr_false.
  replace (S (String.length s)) with (String.length (s +:+ "/"))
    by (rewrite str_length_app; simpl; lia).
  apply drop_length_app.
Qed.

Lemma endswith_chr_true c s :
  endswith (String c "") s = true → ∃ s', s = s' +:+ String c "".
Proof.
  induction s as [|a s IH]; [done|]. rewrite endswith_chr_cons.
  destruct s as [|b s].
  - simpl. intros ->%Ascii.eqb_eq. by exists "".
  - intros [s' ->]%IH. by exists (String a s').
Qed.

(** a name without slash is the base name of the path it is joined to *)
Lemma basename_join dir name :
  no_slash name → basename (join dir name) = name.
Proof.
  intros Hname. unfold join.
  assert (startswith "/" name = false) as ->.
  { destruct name as [|a name]; [done|]. apply has_chr_false in Hname.
    change (negb (chr_eqb a "/")
            && forall_chr (λ a, negb (chr_eqb a "/")) name = true) in Hname.
    apply andb_true_iff in Hname as [Ha _]. apply negb_true_iff in Ha.
    change (chr_eqb "/" a && true = false).
    unfold chr_eqb in *. by rewrite Ascii.eqb_sym, Ha. }
  destruct (is_empty dir || endswith "/" dir) eqn:Hdir; [|by apply basename_app_name].
  apply orb_true_iff in Hdir as [Hdir|Hdir].
  - destruct dir; [|done]. rewrite str_app_nil_l. unfold basename.
    by rewrite (proj2 (rfind_none "/" name)) by by apply has_chr_false.
  - apply endswith_chr_true in Hdir as [s' ->]. rewrite str_app_assoc.
    by apply basename_app_name.
Qed.

(** the digits of a number *)
Lemma pretty_N_go_chars (Q : ascii → bool) x : ∀ s,
  (∀ d, Q (pretty_N_char d) = true) → all_chr Q s → all_chr Q (pretty_N_go x s).
Proof.
  induction (N.lt_wf_0 x) as [x _ IH]; intros s HQ Hs.
  assert (x = 0 ∨ 0 < x)%N as [->|Hx] by lia; [by rewrite pretty_N_go_0|].
  rewrite pretty_N_go_step by done. apply IH; [by apply N.div_lt|done|].
  simpl. by rewrite HQ, Hs.
Qed.

Lemma pretty_Z_no_slash (k : Z) : no_slash (pretty k).
Proof.
  apply has_chr_false.
  assert (∀ x : N, all_chr (λ a, negb (chr_eqb a "/")) (pretty x)) as HN.
  { intros x. unfold pretty, pretty_N. case_decide; [done|].
    apply pretty_N_go_chars; [|done].
    intros d. unfold pretty_N_char. by repeat case_match. }
  destruct k as [|p|p]; [done|apply HN|].
  unfold pretty, pretty_Z. apply all_chr_app; [done|apply HN].
Qed.

End PathFacts.

Section DownloadFacts.
Context {L : Library} {W : Type} {WO : World W}.
Import Py Urllib OsPath PathFacts.

(** the ways of [download_image] *)
Lemma download_image_cases img_url (st : Spider W) :
  match session_get img_url (world st) with
  | (None, w) => download_image img_url st = (Ok (), fetch_failed st img_url w)
  | (Some response, w) =>
      match urlparse img_url with
      | None =>
          download_image img_url st = (Ok (), download_failed st img_url w ValueError)
      | Some parsed =>
          if is_empty (strip_ws (basename (path parsed))) then
            download_image img_url st
            = (Ok (), download_failed st img_url w (NameError "time"))
          else
            let filename := ensure_extension (basename (path parsed)) response in
            let paths := dom (fs st) ∪ directories w in
            ∃ filepath,
              free_path (S (size paths)) paths (download_path st) filename
                        (join (download_path st) filename) 1 = Some filepath
              ∧ download_image img_url st
                = (Ok (), if can_open filepath w then
                            match write_fails filepath (content response) w with
                            | None =>
                                downloaded st img_url w filepath (content response)
                            | Some partial =>
                                download_broken st img_url w filepath partial
                            end
                          else download_failed st img_url w OSError)
      end
  end.
Proof.
  destruct (session_get img_url (world st)) as [[response|] w] eqn:Hget.
  - destruct (urlparse img_url) as [parsed|] eqn:Hparse.
    + destruct (is_empty (strip_ws (basename (path parsed)))) eqn:Hname.
      * unfold download_image, try_except.
        rewrite bind_run, (get_page_ok _ _ _ _ Hget).
        by rewrite bind_run, (derive_filename_blank _ _ _ _ Hparse Hname).
      * cbv zeta.
        destruct (free_path_total (dom (fs st) ∪ directories w) (download_path st)
                    (ensure_extension (basename (path parsed)) response)
                    (join (download_path st)
                          (ensure_extension (basename (path parsed)) response)) 1)
          as [filepath Hfree].
        exists filepath. split; [done|].
        unfold download_image, try_except.
        rewrite bind_run, (get_page_ok _ _ _ _ Hget).
        rewrite bind_run, (derive_filename_named _ _ _ _ Hparse Hname).
        rewrite bind_get_state.
        change (existing (fetched st img_url w)) with (dom (fs st) ∪ directories w).
        change (download_path (fetched st img_url w)) with (download_path st).
        rewrite Hfree.
        rewrite bind_run. unfold write_file. rewrite bind_get_state.
        change (world (fetched st img_url w)) with w.
        destruct (can_open _ w); [|done].
        by destruct (write_fails _ _ w).
    + unfold download_image, try_except.
      rewrite bind_run, (get_page_ok _ _ _ _ Hget).
      unfold derive_filename. by rewrite Hparse.
  - unfold download_image, try_except.
    by rewrite bind_run, (get_page_fail _ _ _ Hget).
Qed.

End DownloadFacts.

Section Inside.
Context {L : Library} {W : Type} {WO : World W}.
Import Py PyFacts Urllib OsPath PathFacts.

Hypothesis guess_no_slash :
  ∀ t ext, guess_extension t = Some ext → has_chr "/" ext = false.

(** the files added are files of the download directory *)
Definition inside : relation (Spider W) := λ st st',
  download_path st' = download_path st
  ∧ ∀ p, p ∈ dom (fs st') →
         p ∈ dom (fs st)
         ∨ ∃ name, has_chr "/" name = false ∧ name ≠ ""
                   ∧ p = join (download_path st) name ∧ basename p = name.

#[global] Instance inside_preorder : PreOrder inside.
Proof.
  split.
  - intros st. split; [done|]. by left.
  - intros st1 st2 st3 [Hp1 Hin1] [Hp2 Hin2]. split; [congruence|].
    intros p [Hp|Hp]%Hin2; [by apply Hin1|]. right. by rewrite <-Hp1.
Qed.

Lemma inside_same (st st' : Spider W) :
  download_path st' = download_path st → fs st' = fs st → inside st st'.
Proof. intros Hp Hfs. split; [done|]. intros p Hin. left. by rewrite <-Hfs. Qed.

Lemma inside_download_image img_url : steps inside (download_image img_url).
Proof.
  intros st. pose proof (download_image_cases img_url st) as Hcases.
  destruct (session_get img_url (world st)) as [[response|] w];
    [|by rewrite Hcases; apply inside_same].
  destruct (urlparse img_url) as [parsed|]; [|by rewrite Hcases; apply inside_same].
  destruct (is_empty (strip_ws (basename (path parsed)))) eqn:Hblank;
    [by rewrite Hcases; apply inside_same|].
  destruct Hcases as (filepath & Hfree & ->).
  destruct (can_open filepath w); [|by apply inside_same].
  assert (∀ data p,
            p ∈ dom (<[filepath := data]> (fs st)) → p = filepath ∨ p ∈ dom (fs st))
    as Hdom.
  { intros data p Hin.
    apply dom_insert, elem_of_union in Hin as [->%elem_of_singleton|Hin]; auto. }
  assert (∀ p, p ∈ dom (fs (if write_fails filepath (content response) w is Some partial
                            then download_broken st img_url w filepath partial
                            else downloaded st img_url w filepath (content response))) →
               p = filepath ∨ p ∈ dom (fs st)) as Hin'.
  { intros p. destruct (write_fails _ _ w); apply Hdom. }
  split; [by destruct (write_fails _ _ w)|].
  intros p [->|Hin]%Hin'; [|by left].
  right.
  set (filename := ensure_extension (basename (path parsed)) response) in *.
  assert (has_chr "/" filename = false ∧ filename ≠ "") as [Hslash Hne].
  { unfold filename, ensure_extension.
    pose proof (basename_no_slash (path parsed)) as Hbase.
    assert (basename (path parsed) ≠ "") as Hne by (by intros Heq; rewrite Heq in Hblank).
    destruct (is_empty (splitext _).2); [|done].
    destruct (guess_extension _) as [ext|] eqn:Hext; [|done].
    destruct (is_empty ext); [done|]. split.
    - apply no_slash_app; [done|]. by apply (guess_no_slash _ _ Hext).
    - by destruct (basename (path parsed)). }
  apply free_path_spec in Hfree as [_ [->|(_ & k & _ & -> & _)]].
  - exists filename. split_and!; [done..|]. by apply basename_join.
  - unfold suffixed. destruct (splitext_no_slash filename Hslash) as [Hroot Hext].
    destruct (splitext filename) as [root ext]. simpl in *.
    assert (has_chr "/" (root +:+ "_" +:+ pretty k +:+ ext) = false) as Hname.
    { repeat apply no_slash_app; [done|done|apply pretty_Z_no_slash|done]. }
    eexists. split_and!; [exact Hname| |done|by apply basename_join].
    by destruct root.
Qed.

End Inside.

Section Accounts.
Context {L : Library} {W : Type} {WO : World W}.

Lemma downloads_app out1 out2 : downloads (out1 ++ out2) = downloads out1 + downloads out2.
Proof.
  induction out1 as [|m out1 IH]; [done|]. destruct m; simpl; by rewrite ?IH.
Qed.

Lemma os_errors_app out1 out2 : os_errors (out1 ++ out2) = os_errors out1 + os_errors out2.
Proof.
  induction out1 as [|m out1 IH]; [done|].
  destruct m as [| |? []|]; simpl; by rewrite ?IH.
Qed.

(** lines are only added; a file comes with each line [Downloaded], and a
    file that comes without one comes with the line of an [OSError] *)
Definition accounted : relation (Spider W) := λ st st',
  ∃ out, stdout st' = stdout st ++ out
         ∧ size (fs st) + downloads out ≤ size (fs st')
           ≤ size (fs st) + downloads out + os_errors out.

#[global] Instance accounted_preorder : PreOrder accounted.
Proof.
  split.
  - intros st. exists []. rewrite app_nil_r. simpl. split; [done|lia].
  - intros st1 st2 st3 (out1 & Ho1 & Hs1) (out2 & Ho2 & Hs2).
    exists (out1 ++ out2). rewrite Ho2, Ho1, downloads_app, os_errors_app, app_assoc.
    split; [done|lia].
Qed.

Lemma accounted_print (st : Spider W) m w r :
  (∀ img_url name, m ≠ Downloaded img_url name) →
  accounted st (mkSpider (visited st) (download_path st) (fs st) w
                         (stdout st ++ [m]) r).
Proof.
  intros Hm. exists [m]. split; [done|]. simpl.
  destruct m as [| |? []|]; simpl; try lia. by destruct (Hm img_url name).
Qed.

Lemma accounted_download_image img_url : steps accounted (download_image img_url).
Proof.
  intros st. pose proof (download_image_cases img_url st) as Hcases.
  destruct (session_get img_url (world st)) as [[response|] w];
    [|by rewrite Hcases; apply accounted_print].
  destruct (Urllib.urlparse img_url) as [parsed|];
    [|by rewrite Hcases; apply accounted_print].
  destruct (Py.is_empty _); [by rewrite Hcases; apply accounted_print|].
  destruct Hcases as (filepath & Hfree & ->).
  destruct (can_open filepath w); [|by apply accounted_print].
  apply free_path_spec in Hfree as [Hnew _].
  assert (fs st !! filepath = None) as Hnone by (apply not_elem_of_dom; set_solver).
  destruct (write_fails _ _ w); (eexists; split; [done|]); simpl;
    rewrite map_size_insert_None by done; lia.
Qed.

End Accounts.

(** ** Images *)

Section Probes.
Context {L : Library} {W : Type} {WO : World W}.

(** at most [n] requests were sent, each a [HEAD], and nothing else was done *)
Definition probes (n : nat) : relation (Spider W) := λ st st',
  ∃ heads, requests st' = requests st ++ (HEAD <$> heads)
           ∧ length heads ≤ n
           ∧ fs st' = fs st ∧ stdout st' = stdout st ∧ visited st' = visited st.

Lemma probes_refl n st : probes n st st.
Proof. exists []. simpl. rewrite app_nil_r. split_and!; (done || lia). Qed.

Lemma probes_trans n m st1 st2 st3 :
  probes n st1 st2 → probes m st2 st3 → probes (n + m) st1 st3.
Proof.
  intros (h1 & Hr1 & Hl1 & Hf1 & Ho1 & Hv1) (h2 & Hr2 & Hl2 & Hf2 & Ho2 & Hv2).
  exists (h1 ++ h2). rewrite Hr2, Hr1, fmap_app, <-app_assoc, length_app.
  split_and!; (congruence || lia).
Qed.

Lemma probes_classify url st : probes 1 st (classify url st).2.
Proof.
  unfold classify. destruct (Urllib.urlparse url) as [parsed|]; [|apply probes_refl].
  unfold or_value_error. rewrite bind_ret. cbv zeta.
  destruct (existsb (λ ext, Py.endswith ext (Py.lower (Urllib.path parsed))) image_exts);
    [apply probes_refl|].
  rewrite bind_run. unfold send.
  assert (∀ w, probes 1 st (mkSpider (visited st) (download_path st) (fs st) w
                                     (stdout st) (requests st ++ [HEAD url]))) as Hsent.
  { intros w. by exists [url]. }
  destruct (session_head url (world st)) as [[head|] w]; [|apply Hsent].
  cbv beta iota. destruct (status_code head =? 200)%Z; apply Hsent.
Qed.

Lemma probes_image_step url images img st :
  probes 1 st (image_step url images img st).2.
Proof.
  unfold image_step. destruct (Py.is_empty _); [apply probes_refl|].
  destruct (Urllib.urljoin _ _) as [absolute_url|]; [|apply probes_refl].
  unfold or_value_error. rewrite bind_ret, bind_run. pose proof (probes_classify absolute_url st) as Hc.
  destruct (classify absolute_url st) as [[[[]|]|e] st']; done.
Qed.

Lemma probes_images_loop url imgs : ∀ images st,
  probes (length imgs) st (images_loop url images imgs st).2.
Proof.
  induction imgs as [|img imgs IH]; intros images st; simpl; [apply probes_refl|].
  rewrite bind_run. pose proof (probes_image_step url images img st) as Hstep.
  destruct (image_step url images img st) as [[images'|e] st']; simpl in *.
  - apply (probes_trans 1 _ _ st'); [done|apply IH].
  - destruct Hstep as (heads & ? & ? & ? & ? & ?). exists heads.
    split_and!; [done|lia|done..].
Qed.

End Probes.

Section ImageFacts.
Context {L : Library} {W : Type} {WO : World W}.
Import Py Urllib.

(** the path of the URL ends, in lower case, with an extension of images *)
Definition has_image_extension (absolute_url : string) : bool :=
  match urlparse absolute_url with
  | Some parsed => existsb (λ ext, endswith ext (lower (path parsed))) image_exts
  | None => false
  end.

(** [absolute_url] is what the image [img] contributes, if it is an image *)
Definition source_of (url img absolute_url : string) : Prop :=
  is_empty (strip_ws img) = false ∧ urljoin url (strip_ws img) = Some absolute_url.

Lemma classify_true absolute_url (st st' : Spider W) :
  classify absolute_url st = (Ok (Some true), st') →
  has_image_extension absolute_url = true ∨ HEAD absolute_url ∈ requests st'.
Proof.
  unfold classify, has_image_extension.
  destruct (urlparse absolute_url) as [parsed|]; [|done].
  unfold or_value_error. rewrite bind_ret. cbv zeta.
  destruct (existsb (λ ext, endswith ext (lower (path parsed))) image_exts); [by left|].
  rewrite bind_run. unfold send.
  destruct (session_head absolute_url (world st)) as [[head|] w]; [|done].
  cbv beta iota. destruct (status_code head =? 200)%Z; [|done].
  intros [= _ <-]. right. simpl. apply elem_of_app. right. by left.
Qed.

Lemma classify_extension absolute_url (st : Spider W) :
  has_image_extension absolute_url = true →
  classify absolute_url st = (Ok (Some true), st).
Proof.
  unfold classify, has_image_extension.
  destruct (urlparse absolute_url) as [parsed|]; [|done].
  unfold or_value_error. rewrite bind_ret. cbv zeta. by intros ->.
Qed.

Lemma requests_grow (st st' : Spider W) r : grows st st' → r ∈ requests st → r ∈ requests st'.
Proof. intros [more ->] Hr. apply elem_of_app. by left. Qed.

Lemma image_step_spec url images img (st st' : Spider W) images' :
  image_step url images img st = (Ok images', st') →
  (NoDup images → NoDup images')
  ∧ (∀ u, u ∈ images → u ∈ images')
  ∧ (∀ u, u ∈ images' →
          u ∈ images
          ∨ source_of url img u
            ∧ (has_image_extension u = true ∨ HEAD u ∈ requests st'))
  ∧ (∀ u, source_of url img u → has_image_extension u = true → u ∈ images').
Proof.
  unfold image_step, source_of.
  destruct (is_empty (strip_ws img)).
  { intros [= <- <-]. split_and!; [done|done|by left|]. by intros u [? _]. }
  destruct (urljoin url (strip_ws img)) as [absolute_url|]; [|done].
  unfold or_value_error. rewrite bind_ret, bind_run.
  destruct (classify absolute_url st) as [[[[]|]|e] st1] eqn:Hclass; try done.
  - intros [= <- <-]. apply classify_true in Hclass. split_and!.
    + apply set_add_NoDup.
    + intros u Hu. apply elem_of_set_add. by left.
    + intros u [?| ->]%elem_of_set_add; [by left|]. by right.
    + intros u [_ [= <-]] _. apply elem_of_set_add. by right.
  - intros [= <- <-]. split_and!; [done|done|by left|].
    intros u [_ [= <-]] Hext. by rewrite (classify_extension _ _ Hext) in Hclass.
  - intros [= <- <-]. split_and!; [done|done|by left|].
    intros u [_ [= <-]] Hext. by rewrite (classify_extension _ _ Hext) in Hclass.
Qed.

Lemma images_loop_spec url imgs : ∀ images (st st' : Spider W) images',
  images_loop url images imgs st = (Ok images', st') →
  (NoDup images → NoDup images')
  ∧ (∀ u, u ∈ images → u ∈ images')
  ∧ (∀ u, u ∈ images' →
          u ∈ images
          ∨ ∃ img, img ∈ imgs ∧ source_of url img u
                   ∧ (has_image_extension u = true ∨ HEAD u ∈ requests st'))
  ∧ (∀ img u, img ∈ imgs → source_of url img u → has_image_extension u = true →
              u ∈ images').
Proof.
  induction imgs as [|img imgs IH]; intros images st st' images' Hloop; simpl in Hloop.
  - injection Hloop as <- <-. split_and!; [done|done|by left|].
    intros img u Hin. by apply elem_of_nil in Hin.
  - rewrite bind_run in Hloop.
    destruct (image_step url images img st) as [[images1|e] st1] eqn:Hstep; [|done].
    destruct (image_step_spec _ _ _ _ _ _ Hstep) as (Hnd1 & Hsub1 & Hin1 & Hext1).
    destruct (IH _ _ _ _ Hloop) as (Hnd2 & Hsub2 & Hin2 & Hext2).
    assert (grows st1 st') as Hgrows.
    { pose proof (steps_images_loop grows (@grows_send W) url imgs images1 st1) as Hg.
      by rewrite Hloop in Hg. }
    split_and!.
    + auto.
    + auto.
    + intros u [[?|[Hsrc Hwhy]]%Hin1|(img' & Hin' & Hsrc & Hwhy)]%Hin2; [by left|..].
      * right. exists img. split_and!; [by left|done|].
        destruct Hwhy as [?|Hhead]; [by left|right]. by apply (requests_grow st1).
      * right. exists img'. split_and!; [by right|done..].
    + intros img' u [->|Hin']%elem_of_cons Hsrc Hext; [by apply Hsub2, Hext1|].
      by apply (Hext2 img').
Qed.

End ImageFacts.

Section ImageRaising.
Context {L : Library} {W : Type} {WO : World W}.

Lemma images_loop_raises url a imgs : ∀ images st,
  a ∈ imgs → Py.is_empty (Py.strip_ws a) = false →
  Urllib.urljoin url (Py.strip_ws a) = None →
  (images_loop url images imgs st).1 = Raise ValueError.
Proof.
  intros images st Hin Hsrc Hjoin. revert images st.
  induction imgs as [|img imgs IH]; intros images st; [by apply elem_of_nil in Hin|].
  simpl. rewrite bind_run.
  pose proof (raises_only_image_step url images img st) as Hraise.
  destruct (image_step url images img st) as [[images'|e] st'] eqn:Hstep.
  - apply elem_of_cons in Hin as [<-|Hin]; [|by apply IH].
    unfold image_step in Hstep. by rewrite Hsrc, Hjoin in Hstep.
  - simpl. by rewrite (Hraise e).
Qed.

End ImageRaising.

(** ** The pages a crawl reaches *)

Section Reach.
Context {L : Library} {W : Type} {WO : World W}.
Import NormMore.
#[local] Existing Instance frame_preorder.

(** the pages of a site that does not change *)
Context (page : string → option Response).

(** the page [n] has a link that [crawl] follows to the page [m] *)
Definition linked (n m : string) : Prop :=
  ∃ response a link,
    page n = Some response
    ∧ a ∈ a_href (text response)
    ∧ links_to n a link
    ∧ normalize_url link = Some m.

(** [u] is reached from [n] through [k] links *)
Fixpoint reach (k : nat) (n u : string) : Prop :=
  match k with
  | O => u = n
  | S k' => ∃ m, linked n m ∧ reach k' m u
  end.

(** the pages logged are reached from [n], each through as many links as
    its depth is above [depth] *)
Definition reach_rel (n : string) (depth : Z) : relation (Spider W) := λ st st',
  ∃ new, crawled (stdout st') = crawled (stdout st) ++ new
         ∧ Forall (λ ud, ∃ k : nat, ud.2 = (depth + Z.of_nat k)%Z ∧ reach k n ud.1) new.

#[local] Instance reach_rel_preorder n depth : PreOrder (reach_rel n depth).
Proof.
  split.
  - intros st. exists []. by rewrite app_nil_r.
  - intros st1 st2 st3 (new1 & Hlog1 & H1) (new2 & Hlog2 & H2).
    exists (new1 ++ new2). split; [by rewrite Hlog2, Hlog1, app_assoc|].
    by apply Forall_app.
Qed.

Lemma frame_reach_rel n depth st st' : frame st st' → reach_rel n depth st st'.
Proof. intros [_ Hl]. exists []. by rewrite app_nil_r. Qed.

Lemma reach_rel_child n m depth st st' :
  linked n m → reach_rel m (depth + 1) st st' → reach_rel n depth st st'.
Proof.
  intros Hlinked (new & Hlog & Hnew). exists new. split; [done|].
  eapply Forall_impl; [exact Hnew|]. intros [u d] (k & -> & Hreach).
  exists (S k). split; [simpl; lia|]. by exists m.
Qed.

Hypothesis set_order_perm : ∀ l, set_order l ≡ₚ l.
Hypothesis static : ∀ url w, (session_get url w).1 = page url.

Lemma get_all_links_linked n st st' links link m :
  get_all_links n n st = (Ok links, st') →
  link ∈ links → normalize_url link = Some m → linked n m.
Proof.
  unfold get_all_links. rewrite bind_run. pose proof (static n (world st)) as Hpage.
  destruct (session_get n (world st)) as [[response|] w] eqn:Hget; simpl in Hpage.
  - rewrite (get_page_ok _ _ _ _ Hget), bind_run.
    destruct (links_loop n [] (a_href (text response))) as [found|] eqn:Hloop; [|done].
    intros [= <- _] Hin Hm. rewrite set_order_perm in Hin.
    apply (links_loop_spec _ _ _ _ Hloop) in Hin as [Hin|(a & Ha & Hto)];
      [by apply elem_of_nil in Hin|].
    by exists response, a, link.
  - rewrite (get_page_fail _ _ _ Hget). intros [= <- _] Hin. by apply elem_of_nil in Hin.
Qed.

Lemma reach_crawl_body rec url n depth max_depth :
  normalize_url url = Some n →
  (∀ link m, normalize_url link = Some m → steps (reach_rel m (depth + 1)) (rec link)) →
  steps (reach_rel n depth) (crawl_body rec url depth max_depth).
Proof.
  intros Hn Hrec st.
  destruct (decide ((max_depth < depth)%Z ∨ n ∈ visited st)) as [Hcut|Hgo].
  { by rewrite (crawl_body_pruned _ _ n). }
  rewrite (crawl_body_enter _ _ n) by (lia || tauto).
  trans (entered st n depth).
  { exists [(n, depth)]. simpl. rewrite crawled_app. split; [done|].
    apply Forall_singleton. exists 0. simpl. split; [lia|done]. }
  unfold crawl_rest. rewrite bind_run.
  pose proof (frame_get_all_images n (entered st n depth)) as Himages.
  destruct (get_all_images n (entered st n depth)) as [[images|e] st1];
    simpl in Himages; [|by apply frame_reach_rel].
  trans st1; [by apply frame_reach_rel|]. rewrite bind_run.
  pose proof (steps_for_each frame images download_image
                (λ img _, frame_download_image img) st1) as Hdl.
  destruct (for_each images download_image st1) as [[[]|e] st2];
    simpl in Hdl; [|by apply frame_reach_rel].
  trans st2; [by apply frame_reach_rel|].
  destruct (depth <? max_depth)%Z; [|done]. rewrite bind_run.
  pose proof (frame_get_all_links n n st2) as Hframe.
  destruct (get_all_links n n st2) as [[links|e] st3] eqn:Hlinks;
    simpl in Hframe; [|by apply frame_reach_rel].
  trans st3; [by apply frame_reach_rel|].
  apply steps_for_each; [apply _|]. intros link Hin.
  destruct (is_valid_url link) eqn:Hvalid; [|apply steps_ret, _].
  destruct (normalize_url_parts _ Hvalid) as (sc & nl & pa & Hm & _).
  eapply steps_mono; [|by apply (Hrec link _ Hm)].
  intros st4 st5. apply reach_rel_child.
  by apply (get_all_links_linked n st2 st3 links link).
Qed.

Lemma reach_crawl_fuel fuel : ∀ url n depth max_depth,
  normalize_url url = Some n →
  steps (reach_rel n depth) (crawl_fuel fuel url depth max_depth).
Proof.
  induction fuel as [|fuel IH]; intros url n depth max_depth Hn; simpl.
  - apply reach_crawl_body; [done|]. intros link m _. apply steps_ret, _.
  - apply reach_crawl_body; [done|]. intros link m Hm. by apply IH.
Qed.

End Reach.

(** ** Before the crawl *)

Section RunFacts.
Context {L : Library} {W : Type} {WO : World W} {HO : Host W}.

(** what [run] does to the spider before it crawls *)
Definition prepare (args : Namespace) : M W unit :=
  match arg_p args with
  | Some path =>
      if Py.is_empty path then ret ()
      else set_download_path path;; ensure_download_path
  | None => ret ()
  end.

Definition run_depth (args : Namespace) : Z :=
  if negb (arg_r args) then 0%Z else arg_l args.

Lemma run_valid args p :
  is_valid_url (arg_url args) = true →
  run args p
  = (let '(r, st) := bind (prepare args)
                          (λ _, crawl (arg_url args) 0 (run_depth args)) (spider p) in
     (r, mkProcess st (notices p))).
Proof. intros Hvalid. unfold run. by rewrite Hvalid. Qed.

(** [prepare] sends nothing, logs nothing, marks nothing, writes nothing;
    it raises nothing but [OSError] *)
Lemma prepare_spec args st :
  requests (prepare args st).2 = requests st
  ∧ stdout (prepare args st).2 = stdout st
  ∧ visited (prepare args st).2 = visited st
  ∧ fs (prepare args st).2 = fs st
  ∧ ((prepare args st).1 = Ok () ∨ (prepare args st).1 = Raise OSError).
Proof.
  unfold prepare. destruct (arg_p args) as [path|]; [|split_and!; auto].
  destruct (Py.is_empty path); [split_and!; auto|].
  unfold set_download_path, ensure_download_path.
  rewrite bind_modify, bind_get_state. cbn [download_path fs world].
  destruct (bool_decide _); [split_and!; auto|].
  destruct (makedirs path (world st)); split_and!; auto.
Qed.

End RunFacts.


(** * The claims *)

Section CrawlClaims.

(** C1. Within a run a page is processed at most once.  What a call of
    [crawl] adds to the log names no page twice and no page that was in the
    visited set before, and every page it names is in the set afterwards; a
    call on a page that is in the set returns at once and leaves the state
    as it was; on the page graph A → B → A, with a maximum depth of two or
    more, [crawl(A, 0, max_depth)] processes A, then B, and nothing else. *)
Theorem crawl_visits_at_most_once :
  (∀ (L : Library) (W : Type) (WO : World W) (st : Spider W) url depth max_depth,
     ∃ new,
       crawled (stdout (crawl url depth max_depth st).2) = crawled (stdout st) ++ new
       ∧ NoDup (new.*1)
       ∧ (∀ u, u ∈ new.*1 →
               (u ∉ visited st) ∧ u ∈ visited (crawl url depth max_depth st).2))
  ∧ (∀ (L : Library) (W : Type) (WO : World W) (st : Spider W) url n depth max_depth,
       normalize_url url = Some n → n ∈ visited st →
       crawl url depth max_depth st = (Ok (), st))
  ∧ (∀ max_depth, (2 ≤ max_depth)%Z →
       crawled (stdout (crawl (L:=example_library) (WO:=cycle_world)
                              url_A 0 max_depth (init () ∅)).2)
       = [(url_A, 0%Z); (url_B, 1%Z)]).
Proof.
  split_and!.
  - intros L W WO st url depth max_depth.
    destruct (crawl_rel_spec url depth max_depth st) as (_ & new & Hlog & Hnd & Hnew).
    exists new. split_and!; [done..|].
    intros u [[u' d] [-> Hin]]%list_elem_of_fmap.
    destruct (Hnew _ _ Hin) as (? & ? & _). by split.
  - intros L W WO st url n depth max_depth Hn Hv. apply (crawl_pruned _ n); auto.
  - intros max_depth Hmd. rewrite cycle_run by done. by vm_compute.
Qed.

Lemma crawl_visits_at_most_once_witness :
  (2 ≤ 2)%Z
  ∧ crawled (stdout (crawl (L:=example_library) (WO:=cycle_world)
                           url_A 0 2 (init () ∅)).2)
    = [(url_A, 0%Z); (url_B, 1%Z)].
Proof.
  split; [lia|].
  apply (proj2 (proj2 crawl_visits_at_most_once) 2%Z). lia.
Defined.

(** C2. No page is processed deeper than the maximum depth: the pages a
    call [crawl(url, depth, max_depth)] adds to the log are logged at depths
    from [depth] to [max_depth]; at the maximum depth the links are not
    followed, whatever the recursive call would do; on the chain
    A → B → C → D with a maximum depth of 1, [crawl(A, 0, 1)] ends with the
    visited set {A, B}, having asked for A and B only. *)
Theorem crawl_depth_bounded :
  (∀ (L : Library) (W : Type) (WO : World W) (st : Spider W) url depth max_depth,
     ∃ new,
       crawled (stdout (crawl url depth max_depth st).2) = crawled (stdout st) ++ new
       ∧ Forall (λ ud, (depth ≤ ud.2 ≤ max_depth)%Z) new)
  ∧ (∀ (L : Library) (W : Type) (WO : World W) (st : Spider W) rec1 rec2
       url depth max_depth,
       (max_depth ≤ depth)%Z →
       crawl_body rec1 url depth max_depth st = crawl_body rec2 url depth max_depth st)
  ∧ (visited (crawl (L:=example_library) (WO:=chain_world) url_A 0 1 (init () ∅)).2
     = {[url_A; url_B]}
     ∧ crawled (stdout (crawl (L:=example_library) (WO:=chain_world)
                              url_A 0 1 (init () ∅)).2)
       = [(url_A, 0%Z); (url_B, 1%Z)]
     ∧ requests (crawl (L:=example_library) (WO:=chain_world)
                       url_A 0 1 (init () ∅)).2
       = [GET url_A; GET url_A; GET url_B]).
Proof.
  split_and!.
  - intros L W WO st url depth max_depth.
    destruct (crawl_rel_spec url depth max_depth st) as (_ & new & Hlog & _ & Hnew).
    exists new. split; [done|]. apply Forall_forall. intros [u d] Hin.
    by destruct (Hnew _ _ Hin) as (_ & _ & ?).
  - intros L W WO st rec1 rec2 url depth max_depth Hd.
    apply crawl_body_ext. intros Hlt. lia.
  - by vm_compute.
  - by vm_compute.
  - by vm_compute.
Qed.

Lemma crawl_depth_bounded_witness :
  (1 ≤ 1)%Z
  ∧ crawl_body (L:=example_library) (WO:=chain_world)
               (λ _, raise ValueError) url_B 1 1 (init () ∅)
    = crawl_body (L:=example_library) (WO:=chain_world)
                 (λ _, ret ()) url_B 1 1 (init () ∅).
Proof.
  split; [lia|].
  apply (proj1 (proj2 crawl_depth_bounded)). lia.
Defined.

(** C3, as the code has it.  The page is fetched once for its images and,
    below the maximum depth, once more for its links: at the maximum depth
    there is the first fetch only, and nothing is asked of a second one.
    When every one of these fetches fails, [crawl] says so each time and
    returns: no file is written, no request but those fetches is sent,
    nothing but the page itself is logged as crawled, and the page stays in
    the visited set, so that any later call on it returns at once. *)
Theorem crawl_fetch_failure (L : Library) (W : Type) (WO : World W)
    (st : Spider W) url n depth max_depth w1 w2 :
  normalize_url url = Some n →
  (depth ≤ max_depth)%Z →
  n ∉ visited st →
  session_get n (world st) = (None, w1) →
  ((depth < max_depth)%Z → session_get n w1 = (None, w2)) →
  let st' := if (depth <? max_depth)%Z
             then fetch_failed (fetch_failed (entered st n depth) n w1) n w2
             else fetch_failed (entered st n depth) n w1 in
  crawl url depth max_depth st = (Ok (), st')
  ∧ n ∈ visited st'
  ∧ fs st' = fs st
  ∧ crawled (stdout st') = crawled (stdout st) ++ [(n, depth)]
  ∧ (∀ r, r ∈ requests st' → r ∈ requests st ∨ r = GET n)
  ∧ (∀ depth' max_depth', crawl url depth' max_depth' st' = (Ok (), st')).
Proof.
  intros Hn Hd Hv Hget1 Hget2 st'.
  assert (n ∈ visited st') as Hin.
  { subst st'. destruct (depth <? max_depth)%Z; simpl; set_solver. }
  split_and!.
  - rewrite (crawl_enter _ n) by done.
    unfold crawl_rest.
    rewrite bind_run, (get_all_images_fail _ _ w1) by done. cbv beta iota.
    rewrite bind_run, for_each_nil. cbv beta iota. subst st'.
    destruct (depth <? max_depth)%Z eqn:Hbelow; [|done].
    apply Z.ltb_lt in Hbelow.
    rewrite bind_run, (get_all_links_fail _ _ _ w2) by auto. reflexivity.
  - done.
  - subst st'. by destruct (depth <? max_depth)%Z.
  - subst st'. destruct (depth <? max_depth)%Z; simpl;
      rewrite !crawled_app; simpl; by rewrite ?app_nil_r.
  - intros r. subst st'. destruct (depth <? max_depth)%Z; simpl; set_solver.
  - intros depth' max_depth'. apply (crawl_pruned _ n); auto.
Qed.

Lemma crawl_fetch_failure_witness :
  crawl (L:=example_library) (WO:=dead_world) url_A 0 1 (init () ∅)
  = (Ok (), fetch_failed (fetch_failed (entered (init () ∅) url_A 0) url_A ())
                         url_A ())
  ∧ crawl (L:=example_library) (WO:=flaky_cycle_world) url_A 0 0 (init 0 ∅)
    = (Ok (), fetch_failed (entered (init 0 ∅) url_A 0) url_A 1).
Proof.
  split.
  - refine (proj1 (crawl_fetch_failure example_library unit dead_world (init () ∅)
                     url_A url_A 0%Z 1%Z () () _ _ _ _ _)).
    + vm_compute. reflexivity.
    + lia.
    + by_computing.
    + reflexivity.
    + intros _. reflexivity.
  - refine (proj1 (crawl_fetch_failure example_library nat flaky_cycle_world
                     (init 0 ∅) url_A url_A 0%Z 0%Z 1 1 _ _ _ _ _)).
    + vm_compute. reflexivity.
    + lia.
    + by_computing.
    + reflexivity.
    + intros Hbelow. lia.
Defined.

(** C3, as stated, fails: behind a network whose first answer is lost, the
    fetch of A for its images fails, and yet the second fetch of A, for its
    links, succeeds, and [crawl] goes on to B. *)
Lemma crawl_fetch_failure_counterexample :
  (session_get (World:=flaky_cycle_world) url_A 0).1 = None
  ∧ stdout (crawl (L:=example_library) (WO:=flaky_cycle_world)
                  url_A 0 1 (init 0 ∅)).2
    = [Crawling url_A 0; ErrorFetching url_A; Crawling url_B 1]
  ∧ requests (crawl (L:=example_library) (WO:=flaky_cycle_world)
                    url_A 0 1 (init 0 ∅)).2
    = [GET url_A; GET url_A; GET url_B].
Proof. by vm_compute. Qed.

End CrawlClaims.

Section PageClaims.
Import Py Urllib OsPath.

(** C4, where the code departs from it: an anchor whose [href] is a
    fragment or a script contributes nothing, but [get_all_links] has no
    test for an empty [href] (as [get_all_images] has for an empty [src]):
    [urljoin] resolves it to the base URL, which is added to the links when
    it is valid. *)
Theorem empty_href_links_base :
  (∀ (L : Library) base_url links a,
     startswith "#" (strip_ws a) = true
     ∨ startswith "javascript:" (strip_ws a) = true →
     link_step base_url links a = Some links)
  ∧ (∀ (L : Library) base_url links a n,
       strip_ws a = "" → is_empty base_url = false →
       normalize_url base_url = Some n → is_valid_url n = true →
       link_step base_url links a = Some (set_add n links))
  ∧ (get_all_links (L:=example_library) (WO:=anchors_world)
                   url_A url_A (init () ∅)).1
    = Ok [url_A].
Proof.
  split_and!.
  - intros L base_url links a [Hfrag|Hscript]; unfold link_step.
    + by rewrite Hfrag.
    + rewrite Hscript. by destruct (startswith "#" _).
  - intros L base_url links a n Ha Hbase Hn Hvalid. unfold link_step, urljoin.
    rewrite Ha, Hbase.
    change (startswith "#" "") with false.
    change (startswith "javascript:" "") with false.
    change (is_empty "") with true. cbv iota.
    change (Some base_url ≫= ?k) with (k base_url). cbv beta.
    rewrite Hn.
    change (Some n ≫= ?k) with (k n). cbv beta.
    by rewrite Hvalid.
  - by vm_compute.
Qed.

(** C5. A URL whose path, in lower case, ends in one of [.jpg], [.jpeg],
    [.png], [.gif], [.bmp] is classified as an image and no request is
    sent; any other URL costs exactly one [HEAD], and is an image exactly
    when the answer has status 200 and a content type that, in lower case,
    contains one of the four image types. *)
Theorem classify_short_circuit (L : Library) (W : Type) (WO : World W)
    (st : Spider W) url parsed :
  urlparse url = Some parsed →
  (existsb (λ ext, endswith ext (lower (path parsed))) image_exts = true →
     classify url st = (Ok (Some true), st)
     ∧ requests (classify url st).2 = requests st)
  ∧ (existsb (λ ext, endswith ext (lower (path parsed))) image_exts = false →
     classify url st
     = (Ok (match (session_head url (world st)).1 with
            | None => None
            | Some head =>
                Some (if (status_code head =? 200)%Z
                      then existsb (λ t, contains t
                                           (lower (default "" (head_content_type head))))
                                   image_types
                      else false)
            end),
        probed st url (session_head url (world st)).2)).
Proof.
  intros Hparse.
  assert (∀ k : ParseResult → M W (option bool),
            bind (or_value_error (urlparse url)) k st = k parsed st) as Hbind.
  { intros k. by rewrite Hparse. }
  split; intros Hext; unfold classify; rewrite Hbind, Hext.
  - done.
  - rewrite bind_run. unfold send, probed.
    destruct (session_head url (world st)) as [[head|] w]; [|done].
    simpl. by destruct (_ =? _)%Z.
Qed.

Lemma classify_short_circuit_witness :
  path <$> urlparse (L:=example_library) "http://site.test/pic.PNG" = Some "/pic.PNG"
  ∧ classify (L:=example_library) (WO:=image_world)
             "http://site.test/pic.PNG" (init () ∅)
    = (Ok (Some true), init () ∅).
Proof.
  split; [reflexivity|].
  refine (proj1 (proj1 (classify_short_circuit example_library unit image_world
                          (init () ∅) "http://site.test/pic.PNG"
                          (mkParse "http" "site.test" "/pic.PNG" "" "" "") _) _)).
  - vm_compute. reflexivity.
  - vm_compute. reflexivity.
Defined.

(** C6, where the code departs from it: the module [time] is not among the
    imports, so for an image URL whose last path segment is blank the name
    [image_<timestamp>] is never built; [download_image] catches the
    [NameError], says that the download failed and writes no file. *)
Theorem blank_name_download_fails :
  ("time" ∉ module_globals)
  ∧ (∀ (L : Library) (W : Type) (WO : World W) (st : Spider W)
       img_url response w parsed,
       session_get img_url (world st) = (Some response, w) →
       urlparse img_url = Some parsed →
       is_empty (strip_ws (basename (path parsed))) = true →
       download_image img_url st
       = (Ok (), download_failed st img_url w (NameError "time")))
  ∧ download_image (L:=example_library) (WO:=image_world)
                   "http://site.test/img/" (init () ∅)
    = (Ok (), download_failed (init () ∅) "http://site.test/img/" ()
                              (NameError "time")).
Proof.
  split_and!.
  - by_computing.
  - intros L W WO st img_url response w parsed Hget Hparse Hname.
    unfold download_image, try_except.
    rewrite bind_run, (get_page_ok _ _ _ _ Hget).
    by rewrite bind_run, (derive_filename_blank _ _ _ _ Hparse Hname).
  - by vm_compute.
Qed.

(** C7. A path exists when it is the path of a file or of a directory.
    When the path derived for a download exists, the file is opened at
    [name_k.ext] for the first [k = 1, 2, ...] whose path does not exist,
    the number standing before the extension of the derived name; that path
    did not exist when it was looked for.  If it cannot be opened nothing is
    written; if it can, it is written to, in full or, when a write fails, in
    part.  Two URLs of base name [photo.jpg] leave [photo.jpg] and
    [photo_1.jpg]; a URL of base name [..] leaves [.._1], the path [..]
    being a directory. *)
Theorem download_collision_resolution :
  (∀ (L : Library) (W : Type) (WO : World W) (st : Spider W)
     img_url response w parsed,
     session_get img_url (world st) = (Some response, w) →
     urlparse img_url = Some parsed →
     is_empty (strip_ws (basename (path parsed))) = false →
     let filename := ensure_extension (basename (path parsed)) response in
     let numbered k :=
       join (download_path st)
            ((splitext filename).1 +:+ "_" +:+ pretty k +:+ (splitext filename).2) in
     let paths := dom (fs st) ∪ directories w in
     join (download_path st) filename ∈ paths →
     ∃ k : Z,
       (1 ≤ k)%Z
       ∧ (numbered k ∉ paths)
       ∧ (∀ j : Z, (1 ≤ j < k)%Z → numbered j ∈ paths)
       ∧ download_image img_url st
         = (Ok (), if can_open (numbered k) w then
                     match write_fails (numbered k) (content response) w with
                     | None =>
                         downloaded st img_url w (numbered k) (content response)
                     | Some partial =>
                         download_broken st img_url w (numbered k) partial
                     end
                   else download_failed st img_url w OSError))
  ∧ fs (for_each ["http://site.test/one/photo.jpg"; "http://cdn.test/two/photo.jpg"]
                 (download_image (L:=example_library) (WO:=image_world))
                 (init () ∅)).2
    = {[ "./data/photo.jpg" := "first"; "./data/photo_1.jpg" := "second" ]}
  ∧ fs (download_image (L:=example_library) (WO:=parent_world)
                       "http://other.test/a/.." (init () ∅)).2
    = {[ "./data/.._1" := "up" ]}.
Proof.
  split; [|split; by vm_compute].
  intros L W WO st img_url response w parsed Hget Hparse Hname filename numbered
    paths Hexists.
  assert (∀ k, numbered k = suffixed (download_path st) filename k) as Hnum.
  { intros k. unfold numbered, suffixed. by destruct (splitext filename). }
  destruct (free_path_total paths (download_path st) filename
              (join (download_path st) filename) 1) as [p Hfree].
  pose proof Hfree as [Hp [->|(_ & k & Hk & -> & Hbelow)]]%free_path_spec; [done|].
  exists k. rewrite !Hnum. split_and!; [done|done| |].
  { intros j Hj. rewrite Hnum. by apply Hbelow. }
  unfold download_image, try_except.
  rewrite bind_run, (get_page_ok _ _ _ _ Hget).
  rewrite bind_run, (derive_filename_named _ _ _ _ Hparse Hname).
  rewrite bind_get_state.
  change (existing (fetched st img_url w)) with paths.
  change (download_path (fetched st img_url w)) with (download_path st).
  fold filename. rewrite Hfree.
  rewrite bind_run. unfold write_file. rewrite bind_get_state.
  change (world (fetched st img_url w)) with w.
  destruct (can_open _ w); [|done].
  by destruct (write_fails _ _ w).
Qed.

Lemma download_collision_resolution_witness :
  ∃ k : Z,
    (1 ≤ k)%Z
    ∧ download_image (L:=example_library) (WO:=image_world)
                     "http://cdn.test/two/photo.jpg"
                     (init () {[ "./data/photo.jpg" := "first" ]})
      = (Ok (), downloaded (init () {[ "./data/photo.jpg" := "first" ]})
                           "http://cdn.test/two/photo.jpg" ()
                           ("./data/photo_" +:+ pretty k +:+ ".jpg") "second").
Proof.
  destruct (proj1 download_collision_resolution example_library unit image_world
              (init () {[ "./data/photo.jpg" := "first" ]})
              "http://cdn.test/two/photo.jpg"
              (image_file (Some "image/jpeg") "second") ()
              (mkParse "http" "cdn.test" "/two/photo.jpg" "" "" ""))
    as (k & Hk & _ & _ & Hrun).
  - reflexivity.
  - vm_compute. reflexivity.
  - reflexivity.
  - by_computing.
  - exists k. split; [exact Hk|exact Hrun].
Defined.

End PageClaims.

Section NormalizeClaims.
Import Py PyFacts BreakFacts Urllib UrlFacts NormFacts OsPath.

(** C8, as the code has it: for a valid URL whose path, its trailing
    slashes stripped, has no [;] in its last segment, normalizing the
    normalized URL changes nothing. *)
Theorem normalize_idempotent_without_params (L : Library) url parsed :
  is_valid_url url = true →
  urlparse url = Some parsed →
  has_chr ";" (basename (rstrip (chr_eqb "/") (path parsed))) = false →
  ∃ n, normalize_url url = Some n ∧ normalize_url n = Some n.
Proof.
  intros Hvalid Hparsed Hlast.
  pose proof (urlparse_net_path url) as Hparse. rewrite Hparsed in Hparse.
  rewrite is_valid_url_eq in Hvalid. rewrite normalize_url_eq.
  destruct (split_scheme (clean_url url) "") as [sc r] eqn:Hsplit.
  rewrite net_path_rest in *.
  destruct (net_rest r) as [[nl rest]|] eqn:Hnet; simpl in *; [|done].
  injection Hparse as _ _ Hpath.
  apply andb_true_iff in Hvalid as [Hsc%bool_decide_eq_true Hnl].
  assert (nl ≠ "") as Hnl' by (by destruct nl).
  destruct (net_rest_netloc _ _ _ Hnet Hnl') as (Hdelim & Hrest & Hok).
  assert (all_chr safe nl ∧ all_chr safe rest) as [Hsafe_nl Hsafe_rest].
  { eapply all_chr_net_rest; [|exact Hnet]. change r with (sc, r).2.
    rewrite <-Hsplit. apply all_chr_split_scheme, clean_url_safe. }
  set (p0 := (break ends_path rest).1) in *.
  destruct (path_of_take sc p0) as [i Hp]. rewrite Hp in *.
  set (pa := rstrip (chr_eqb "/") (take i p0)) in *. rewrite Hpath in Hlast.
  destruct (reparse sc nl pa) as [Hsplit' Hnet']; try done.
  { by apply rooted_rstrip, rooted_take, rooted_path. }
  { apply all_chr_rstrip, all_chr_take, break_fst. }
  { by apply all_chr_rstrip, all_chr_take, all_chr_break_fst. }
  eexists. split; [done|].
  rewrite normalize_url_eq, Hsplit', Hnet'. simpl.
  rewrite (path_of_last _ _ Hlast). unfold pa. by rewrite rstrip_idemp.
Qed.

Lemma normalize_idempotent_without_params_witness :
  ∃ n, normalize_url (L:=example_library) "http://a.com/x;p/y/" = Some n
       ∧ normalize_url (L:=example_library) n = Some n.
Proof.
  apply (normalize_idempotent_without_params example_library "http://a.com/x;p/y/"
           (mkParse "http" "a.com" "/x;p/y/" "" "" "")).
  - vm_compute. reflexivity.
  - vm_compute. reflexivity.
  - vm_compute. reflexivity.
Defined.

(** C8, as stated, fails: [urlparse] takes the [;p] of a last path segment
    for parameters, and stripping the slash of ["http://a.com/x;p/"] makes
    [x;p] the last segment. *)
Lemma normalize_idempotent_counterexample :
  is_valid_url (L:=example_library) "http://a.com/x;p/" = true
  ∧ normalize_url (L:=example_library) "http://a.com/x;p/" = Some "http://a.com/x;p"
  ∧ normalize_url (L:=example_library) "http://a.com/x;p" = Some "http://a.com/x"
  ∧ "http://a.com/x" ≠ "http://a.com/x;p".
Proof. by vm_compute. Qed.

(** C9, as the code has it: a URL whose last path segment has no [;] and
    the same URL with a slash appended normalize to the same value; so do
    any URL and the same URL with a fragment appended; the three URLs of
    the claim normalize to ["http://a.com/x"]. *)
Theorem normalize_equivalence :
  (∀ (L : Library) url,
     (∀ sr, urlsplit url "" = Some sr → has_chr ";" (basename (sr_path sr)) = false) →
     normalize_url (url +:+ "/") = normalize_url url)
  ∧ (∀ (L : Library) url f, normalize_url (url +:+ "#" +:+ f) = normalize_url url)
  ∧ (∀ (L : Library),
       normalize_url "http://a.com/x/" = Some "http://a.com/x"
       ∧ normalize_url "http://a.com/x" = Some "http://a.com/x"
       ∧ normalize_url "http://a.com/x#frag" = Some "http://a.com/x").
Proof.
  split_and!.
  - intros L url. apply normalize_url_slash_last.
  - intros L url f. rewrite !normalize_url_eq.
    change ("#" +:+ f) with (String "#" f).
    rewrite clean_url_app, split_scheme_app by done.
    destruct (split_scheme (clean_url url) "") as [sc r]. simpl.
    by rewrite net_path_app_hash.
  - intros L. by vm_compute.
Qed.

Lemma normalize_equivalence_witness :
  normalize_url (L:=example_library) ("http://a.com/x;p/y" +:+ "/")
  = normalize_url (L:=example_library) "http://a.com/x;p/y".
Proof.
  apply (proj1 normalize_equivalence example_library "http://a.com/x;p/y").
  intros sr Hsr. vm_compute in Hsr. injection Hsr as <-. reflexivity.
Defined.

(** C9, as stated, fails: ["http://a.com/x;p"] and ["http://a.com/x;p/"]
    differ only in the trailing slash, and normalize to different values. *)
Lemma normalize_equivalence_counterexample :
  normalize_url (L:=example_library) "http://a.com/x;p" = Some "http://a.com/x"
  ∧ normalize_url (L:=example_library) ("http://a.com/x;p" +:+ "/")
    = Some "http://a.com/x;p"
  ∧ "http://a.com/x" ≠ "http://a.com/x;p".
Proof. by vm_compute. Qed.



End NormalizeClaims.


(** * Further properties of the code *)

(** ** Valid and normalized URLs *)

Section ValidExtras.
Import Py PyFacts BreakFacts Urllib UrlFacts NormFacts NormMore ValidFacts.

(** X1. What [is_valid_url] accepts among the URLs that are ASCII, as a
    URL on the wire is: the absolute URLs of scheme [http] or [https] with
    a host.  Such a URL is valid exactly when, once [urlsplit] has removed
    its leading blanks and its tabs and newlines, it reads: a scheme that
    is [http] or [https] in lower case, then [://], then a netloc that is
    not empty, has no [/], [?] or [#] and passes the checks of [urlsplit]
    on brackets, then nothing or something that starts with [/], [?] or
    [#].  (Beyond ASCII [urlsplit] checks the netloc once more, in its
    form NFKC, and may reject a URL of this shape.) *)
Theorem valid_url_shape :
  ∀ (L : Library) url,
    isascii url = true →
    is_valid_url url = true ↔
    ∃ sc nl rest,
      clean_url url = sc +:+ "://" +:+ nl +:+ rest
      ∧ lower sc ∈ ["http"; "https"]
      ∧ nl ≠ ""
      ∧ has_chr "/" nl = false ∧ has_chr "?" nl = false ∧ has_chr "#" nl = false
      ∧ (rest = "" ∨ startswith "/" rest = true ∨ startswith "?" rest = true
         ∨ startswith "#" rest = true)
      ∧ brackets_ok nl = true.
Proof.
  intros L url _. split.
  - intros Hvalid. rewrite is_valid_url_eq in Hvalid.
    destruct (split_scheme (clean_url url) "") as [sc r] eqn:Hsplit.
    rewrite net_path_rest in Hvalid.
    destruct (net_rest r) as [[nl rest]|] eqn:Hnet; simpl in Hvalid; [|done].
    apply andb_true_iff in Hvalid as [Hsc%bool_decide_eq_true Hnl].
    assert (nl ≠ "") as Hnl' by (by destruct nl).
    destruct (net_rest_netloc _ _ _ Hnet Hnl') as (Hdelim & Hrest & Hok).
    destruct (split_scheme_found _ _ _ Hsplit) as (sc' & Hurl & ->).
    { intros ->. apply list_elem_of_In in Hsc. simpl in Hsc. naive_solver. }
    unfold net_rest in Hnet.
    destruct (String.eqb (take 2 r) "//") eqn:Htake; [|by injection Hnet as <-].
    pose proof (break_eq is_delim (drop 2 r)) as Hbreak.
    destruct (break is_delim (drop 2 r)) as [nl' rest'].
    destruct (brackets_ok nl'); [|done]. injection Hnet as -> ->.
    cbn [fst snd] in Hbreak.
    assert (∀ c, is_delim c = true → has_chr c nl = false) as Hnone.
    { intros c Hc. apply has_chr_false. eapply all_chr_impl; [|exact Hdelim].
      intros a Ha. unfold chr_eqb. destruct (Ascii.eqb_spec a c) as [->|]; [|done].
      by rewrite Hc in Ha. }
    exists sc', nl, rest. split_and!; [|done|done|by apply Hnone..| |done].
    + rewrite Hurl. f_equal. by rewrite (take2_drop r Htake), <-Hbreak.
    + destruct Hrest as [->|Hrest]; [by left|right].
      destruct rest as [|a rest]; [done|].
      change (is_delim a = true) in Hrest. unfold is_delim, chr_eqb in Hrest.
      destruct (Ascii.eqb_spec a "/") as [->|]; [by left|].
      destruct (Ascii.eqb_spec a "?") as [->|]; [by right; left|].
      destruct (Ascii.eqb_spec a "#") as [->|]; [by right; right|done].
  - intros (sc & nl & rest & Hurl & Hsc & Hnl & Hslash & Hquery & Hhash & Hrest & Hok).
    rewrite is_valid_url_eq, Hurl.
    change (sc +:+ "://" +:+ nl +:+ rest) with (sc +:+ ":" +:+ ("//" +:+ nl +:+ rest)).
    rewrite split_scheme_letters.
    + rewrite net_path_rest. unfold net_rest.
      change (take 2 ("//" +:+ nl +:+ rest)) with "//".
      change (drop 2 ("//" +:+ nl +:+ rest)) with (nl +:+ rest).
      rewrite String.eqb_refl, break_app, Hok.
      * simpl. rewrite bool_decide_eq_true_2 by done. by destruct nl.
      * apply has_chr_false in Hslash, Hquery, Hhash.
        pose proof (all_chr_and _ _ _ (all_chr_and _ _ _ Hslash Hquery) Hhash) as Hall.
        eapply all_chr_impl; [|exact Hall]. intros a. unfold is_delim.
        by destruct (chr_eqb a "/"), (chr_eqb a "?"), (chr_eqb a "#").
      * destruct Hrest as [->|Hrest]; [by left|right].
        destruct rest as [|a rest]; [by destruct Hrest as [?|[?|?]]|].
        change (is_delim a = true). unfold is_delim.
        unfold chr_eqb in *.
        destruct Hrest as [Hr|[Hr|Hr]].
        -- change (Ascii.eqb "/" a && true = true) in Hr.
           rewrite andb_true_r in Hr. by apply Ascii.eqb_eq in Hr as <-.
        -- change (Ascii.eqb "?" a && true = true) in Hr.
           rewrite andb_true_r in Hr. by apply Ascii.eqb_eq in Hr as <-.
        -- change (Ascii.eqb "#" a && true = true) in Hr.
           rewrite andb_true_r in Hr. by apply Ascii.eqb_eq in Hr as <-.
    + intros ->. apply list_elem_of_In in Hsc. simpl in Hsc. naive_solver.
    + apply lower_letters. apply list_elem_of_In in Hsc. simpl in Hsc.
      by destruct Hsc as [<-|[<-|[]]].
Qed.

Lemma valid_url_shape_witness :
  is_valid_url (L:=example_library) " HTTPS://site.test:8080/a?b" = true.
Proof.
  apply (valid_url_shape example_library); [reflexivity|].
  exists "HTTPS", "site.test:8080", "/a?b".
  split_and!; [reflexivity|by_computing|done|reflexivity|reflexivity|reflexivity| |].
  - right. left. reflexivity.
  - reflexivity.
Defined.

End ValidExtras.

Section NormalizeExtras.
Import Py PyFacts BreakFacts Urllib UrlFacts NormFacts NormMore OsPath.

(** X2. The normal form of a valid URL is a valid URL; it has no query and
    no fragment ([?] and [#] do not occur in it), and it does not end with
    a slash. *)
Theorem normalized_valid_url_shape (L : Library) url :
  is_valid_url url = true →
  ∃ n, normalize_url url = Some n
       ∧ is_valid_url n = true
       ∧ has_chr "?" n = false
       ∧ has_chr "#" n = false
       ∧ endswith "/" n = false.
Proof.
  intros Hvalid.
  destruct (normalize_url_parts url Hvalid)
    as (sc & nl & pa & Hn & Hsc & Hnl & Hdelim & Hok & Hsafe & Hroot & Hends & Hsafe' & Hstrip).
  eexists. split; [exact Hn|].
  split; [by apply (normalize_url_valid url)|].
  assert (∀ c, c = "?"%char ∨ c = "#"%char →
               all_chr (λ a, negb (chr_eqb a c)) (sc +:+ "://" +:+ nl +:+ pa)) as Hnone.
  { intros c Hc. repeat apply all_chr_app.
    - apply list_elem_of_In in Hsc. simpl in Hsc.
      destruct Hsc as [<-|[<-|[]]], Hc as [-> | ->]; reflexivity.
    - by destruct Hc as [-> | ->].
    - eapply all_chr_impl; [|exact Hdelim]. intros a. unfold is_delim.
      destruct Hc as [-> | ->];
        by destruct (chr_eqb a "/"), (chr_eqb a "?"), (chr_eqb a "#").
    - eapply all_chr_impl; [|exact Hends]. intros a. unfold ends_path.
      destruct Hc as [-> | ->]; by destruct (chr_eqb a "#"), (chr_eqb a "?"). }
  split_and!.
  - apply has_chr_false, Hnone. by left.
  - apply has_chr_false, Hnone. by right.
  - destruct (decide (pa = "")) as [->|Hpa].
    + rewrite str_app_nil_r, <-!str_app_assoc, endswith_chr_app by done.
      apply endswith_chr_none. eapply all_chr_impl; [|exact Hdelim].
      intros a Ha. unfold is_delim, chr_eqb in Ha.
      by destruct (Ascii.eqb a "/").
    + rewrite <-!str_app_assoc, endswith_chr_app by done.
      rewrite <-Hstrip. apply endswith_chr_rstrip.
Qed.

Lemma normalized_valid_url_shape_witness :
  ∃ n, normalize_url (L:=example_library) "HTTP://site.test/a/b/?x=1#top" = Some n
       ∧ is_valid_url (L:=example_library) n = true
       ∧ has_chr "?" n = false
       ∧ has_chr "#" n = false
       ∧ endswith "/" n = false.
Proof.
  apply (normalized_valid_url_shape example_library "HTTP://site.test/a/b/?x=1#top").
  vm_compute. reflexivity.
Defined.

(** X3. [normalize_url] keeps the scheme, the netloc and the path only: a
    URL and the same URL followed by a query string have the same normal
    form.  So [crawl] takes two pages that differ in the query for one page:
    once the first is in the visited set, a call on the second returns at
    once. *)
Theorem normalize_url_ignores_query :
  (∀ (L : Library) url q, normalize_url (url +:+ "?" +:+ q) = normalize_url url)
  ∧ (∀ (L : Library) (W : Type) (WO : World W) (st : Spider W) url q n depth max_depth,
       normalize_url url = Some n → n ∈ visited st →
       crawl (url +:+ "?" +:+ q) depth max_depth st = (Ok (), st)).
Proof.
  assert (∀ (L : Library) url q,
            normalize_url (url +:+ "?" +:+ q) = normalize_url url) as Hquery.
  { intros L url q. rewrite !normalize_url_eq.
    change ("?" +:+ q) with (String "?" q).
    rewrite clean_url_app, split_scheme_app by done.
    destruct (split_scheme (clean_url url) "") as [sc r]. simpl.
    by rewrite net_path_app_query. }
  split; [done|].
  intros L W WO st url q n depth max_depth Hn Hv.
  apply (crawl_pruned _ n); [by rewrite Hquery|by right].
Qed.

Lemma normalize_url_ignores_query_witness :
  crawl (L:=example_library) (WO:=cycle_world)
        ("http://site.test/A" +:+ "?" +:+ "page=2") 0 5
        (entered (init () ∅) url_A 0)
  = (Ok (), entered (init () ∅) url_A 0).
Proof.
  apply (proj2 normalize_url_ignores_query example_library unit cycle_world
           (entered (init () ∅) url_A 0) "http://site.test/A" "page=2" url_A).
  - vm_compute. reflexivity.
  - by_computing.
Defined.

End NormalizeExtras.

(** ** The links and the images of a page *)

Section PageExtras.
Import Py Urllib.

(** X4. The links of a page.  As long as [list(links)] lists the elements
    of the set [links], the links that [get_all_links] returns are distinct
    and valid, so that none fails the test [is_valid_url(link)] that [crawl]
    makes again; and a URL is among them exactly when the page was fetched
    and the URL is valid and is the normal form of [urljoin(base_url, href)]
    for the stripped [href] of an anchor of the page that starts neither
    with [#] nor with [javascript:]. *)
Theorem get_all_links_characterization (L : Library) (W : Type) (WO : World W)
    (st st' : Spider W) url base_url links :
  (∀ l, set_order l ≡ₚ l) →
  get_all_links url base_url st = (Ok links, st') →
  NoDup links
  ∧ (∀ link, link ∈ links → is_valid_url link = true)
  ∧ (∀ link,
       link ∈ links ↔
       ∃ response a absolute_url,
         (session_get url (world st)).1 = Some response
         ∧ a ∈ a_href (text response)
         ∧ Py.startswith "#" (Py.strip_ws a) = false
         ∧ Py.startswith "javascript:" (Py.strip_ws a) = false
         ∧ Urllib.urljoin base_url (Py.strip_ws a) = Some absolute_url
         ∧ normalize_url absolute_url = Some link
         ∧ is_valid_url link = true).
Proof.
  intros Hperm. unfold get_all_links. rewrite bind_run.
  destruct (session_get url (world st)) as [[response|] w] eqn:Hget.
  - rewrite (get_page_ok _ _ _ _ Hget), bind_run.
    destruct (links_loop base_url [] (a_href (text response))) as [found|] eqn:Hloop;
      [|done].
    intros [= <- _].
    destruct (links_loop_valid _ _ _ _ Hloop) as [Hnd Hvalid]; [constructor|done|].
    rewrite Forall_forall in Hvalid. split_and!.
    + by rewrite Hperm.
    + intros link Hin. rewrite Hperm in Hin. by apply Hvalid.
    + intros link. rewrite Hperm, (links_loop_spec _ _ _ _ Hloop). unfold links_to.
      split.
      * intros [Hin|(a & Ha & ? & ? & absolute_url & ? & ? & ?)];
          [by apply elem_of_nil in Hin|].
        by exists response, a, absolute_url.
      * intros (response' & a & absolute_url & [= <-] & ? & ? & ? & ? & ? & ?).
        right. exists a. eauto 10.
  - rewrite (get_page_fail _ _ _ Hget). intros [= <- _]. split_and!.
    + constructor.
    + intros link Hin. by apply elem_of_nil in Hin.
    + intros link. split; [intros Hin; by apply elem_of_nil in Hin|].
      by intros (response & _ & _ & [=] & _).
Qed.

Lemma get_all_links_characterization_witness :
  NoDup [url_B; url_C]
  ∧ (∀ link, link ∈ [url_B; url_C] → is_valid_url (L:=example_library) link = true)
  ∧ (∀ link,
       link ∈ [url_B; url_C] ↔
       ∃ response a absolute_url,
         (session_get (World:=broken_world) url_A ()).1 = Some response
         ∧ a ∈ a_href (text response)
         ∧ Py.startswith "#" (Py.strip_ws a) = false
         ∧ Py.startswith "javascript:" (Py.strip_ws a) = false
         ∧ Urllib.urljoin (L:=example_library) url_A (Py.strip_ws a) = Some absolute_url
         ∧ normalize_url (L:=example_library) absolute_url = Some link
         ∧ is_valid_url (L:=example_library) link = true).
Proof.
  apply (get_all_links_characterization example_library unit broken_world
           (init () ∅) (sent (GET url_A) (init () ∅)) url_A url_A).
  - intros l. reflexivity.
  - vm_compute. reflexivity.
Defined.

(** X5. [get_all_images] downloads nothing: it sends the [GET] of the page
    and then [HEAD] requests only, at most one for each [img] of the page,
    and none when the page could not be fetched; it writes no file and
    marks no page. *)
Theorem get_all_images_only_probes :
  ∀ (L : Library) (W : Type) (WO : World W) (st : Spider W) url,
    ∃ heads,
      requests (get_all_images url st).2 = requests st ++ GET url :: (HEAD <$> heads)
      ∧ length heads ≤ match (session_get url (world st)).1 with
                        | Some response => length (img_src (text response))
                        | None => 0
                        end
      ∧ fs (get_all_images url st).2 = fs st
      ∧ visited (get_all_images url st).2 = visited st.
Proof.
  intros L W WO st url. unfold get_all_images. rewrite bind_run.
  destruct (session_get url (world st)) as [[response|] w] eqn:Hget.
  - rewrite (get_page_ok _ _ _ _ Hget), bind_run.
    destruct (probes_images_loop url (img_src (text response)) [] (fetched st url w))
      as (heads & Hreq & Hlen & Hfs & _ & Hv).
    exists heads.
    destruct (images_loop url [] (img_src (text response)) (fetched st url w))
      as [[images|e] st']; simpl in *; rewrite Hreq, <-app_assoc; done.
  - rewrite (get_page_fail _ _ _ Hget). by exists [].
Qed.

(** X6. The images of a page.  As long as [list(images)] lists the
    elements of the set [images], the URLs that [get_all_images] returns are
    distinct; each is [urljoin(url, src)] for the stripped, non-empty [src]
    of an [img] of the page, and its path ends with an extension of images
    or a [HEAD] was sent for it; and every such [urljoin(url, src)] whose
    path ends with an extension of images is returned. *)
Theorem get_all_images_characterization (L : Library) (W : Type) (WO : World W)
    (st st' : Spider W) url images :
  (∀ l, set_order l ≡ₚ l) →
  get_all_images url st = (Ok images, st') →
  NoDup images
  ∧ (∀ u, u ∈ images →
          ∃ response src,
            (session_get url (world st)).1 = Some response
            ∧ src ∈ img_src (text response)
            ∧ is_empty (strip_ws src) = false
            ∧ urljoin url (strip_ws src) = Some u
            ∧ (has_image_extension u = true ∨ HEAD u ∈ requests st'))
  ∧ (∀ response src u,
       (session_get url (world st)).1 = Some response →
       src ∈ img_src (text response) →
       is_empty (strip_ws src) = false →
       urljoin url (strip_ws src) = Some u →
       has_image_extension u = true →
       u ∈ images).
Proof.
  intros Hperm. unfold get_all_images. rewrite bind_run.
  destruct (session_get url (world st)) as [[response|] w] eqn:Hget.
  - rewrite (get_page_ok _ _ _ _ Hget), bind_run.
    destruct (images_loop url [] (img_src (text response)) (fetched st url w))
      as [[found|e] st1] eqn:Hloop; [|done].
    intros [= <- <-].
    destruct (images_loop_spec _ _ _ _ _ _ Hloop) as (Hnd & _ & Hin & Hext).
    split_and!.
    + rewrite Hperm. apply Hnd. constructor.
    + intros u Hu. rewrite Hperm in Hu.
      destruct (Hin u Hu) as [Hnil|(src & Hsrc & [? ?] & Hwhy)];
        [by apply elem_of_nil in Hnil|].
      by exists response, src.
    + intros response' src u [= <-] Hsrc Hne Hjoin Hu. rewrite Hperm.
      by apply (Hext src).
  - rewrite (get_page_fail _ _ _ Hget). intros [= <- _]. split_and!.
    + constructor.
    + intros u Hu. by apply elem_of_nil in Hu.
    + by intros response src u [=].
Qed.

Lemma get_all_images_characterization_witness :
  NoDup ["http://site.test/logo.PNG"]
  ∧ (∀ u, u ∈ ["http://site.test/logo.PNG"] →
          ∃ response src,
            (session_get (World:=gallery_world) url_A ()).1 = Some response
            ∧ src ∈ img_src (text response)
            ∧ is_empty (strip_ws src) = false
            ∧ urljoin (L:=example_library) url_A (strip_ws src) = Some u
            ∧ (has_image_extension (L:=example_library) u = true
               ∨ HEAD u ∈ requests (sent (HEAD "http://site.test/about")
                                      (sent (GET url_A) (init () ∅)))))
  ∧ (∀ response src u,
       (session_get (World:=gallery_world) url_A ()).1 = Some response →
       src ∈ img_src (text response) →
       is_empty (strip_ws src) = false →
       urljoin (L:=example_library) url_A (strip_ws src) = Some u →
       has_image_extension (L:=example_library) u = true →
       u ∈ ["http://site.test/logo.PNG"]).
Proof.
  apply (get_all_images_characterization example_library unit gallery_world
           (init () ∅) _ url_A).
  - intros l. reflexivity.
  - vm_compute. reflexivity.
Defined.

End PageExtras.

(** ** Downloads *)

Section DownloadExtras.
Import Py PyFacts Urllib OsPath PathFacts.

(** X7. [download_image] always returns, in one of four ways.  When the
    fetch fails, nothing is left but the request and the line of
    [get_page].  When the fetch succeeds, either the download fails before
    a file is opened, on a [ValueError], on the [NameError] of [time] or on
    the [OSError] of [open], which is said and nothing is written; or one
    path that did not exist, as a file or as a directory, is opened, and
    then either the content of the response is written to it and that is
    said, or a write fails, the [OSError] is said and the file stays with
    what was written.  On a disk that is full after two characters the
    first image leaves a file of two characters. *)
Theorem download_image_outcomes :
  (∀ (L : Library) (W : Type) (WO : World W) (st : Spider W) img_url,
     match session_get img_url (world st) with
     | (None, w) => download_image img_url st = (Ok (), fetch_failed st img_url w)
     | (Some response, w) =>
         (∃ e, (e = ValueError ∨ e = NameError "time" ∨ e = OSError)
               ∧ download_image img_url st = (Ok (), download_failed st img_url w e))
         ∨ (∃ filepath,
              (filepath ∉ dom (fs st))
              ∧ (filepath ∉ directories w)
              ∧ can_open filepath w = true
              ∧ (write_fails filepath (content response) w = None
                 ∧ download_image img_url st
                   = (Ok (), downloaded st img_url w filepath (content response))
                 ∨ ∃ partial,
                     write_fails filepath (content response) w = Some partial
                     ∧ download_image img_url st
                       = (Ok (), download_broken st img_url w filepath partial)))
     end)
  ∧ download_image (L:=example_library) (WO:=full_world)
                   "http://site.test/one/photo.jpg" (init () ∅)
    = (Ok (), download_broken (init () ∅) "http://site.test/one/photo.jpg" ()
                              "./data/photo.jpg" "fi").
Proof.
  split; [|by vm_compute].
  intros L W WO st img_url. pose proof (download_image_cases img_url st) as Hcases.
  destruct (session_get img_url (world st)) as [[response|] w]; [|done].
  destruct (urlparse img_url) as [parsed|]; [|left; eauto].
  destruct (is_empty (strip_ws (basename (path parsed)))); [left; eauto 6|].
  destruct Hcases as (filepath & Hfree & Hrun).
  apply free_path_spec in Hfree as [Hnew _].
  apply not_elem_of_union in Hnew as [Hfile Hdir].
  destruct (can_open filepath w) eqn:Hopen; [right|left; eauto 6].
  exists filepath. split_and!; [done..|].
  destruct (write_fails filepath (content response) w) as [partial|]; eauto.
Qed.

(** X8. Where the downloads go.  If [mimetypes.guess_extension] puts no
    slash in an extension, every file that [download_image] and [crawl] add
    is [os.path.join(download_path, name)] for a name that is not empty and
    has no slash, and [name] is the base name of that path: a URL never
    adds a directory to the path. *)
Theorem download_writes_inside_download_path (L : Library) (W : Type) (WO : World W)
    (st : Spider W) :
  (∀ t ext, guess_extension t = Some ext → has_chr "/" ext = false) →
  let added (st' : Spider W) p :=
    p ∈ dom (fs st') → p ∉ dom (fs st) →
    ∃ name, has_chr "/" name = false ∧ name ≠ ""
            ∧ p = join (download_path st) name ∧ basename p = name in
  (∀ img_url p, added (download_image img_url st).2 p)
  ∧ (∀ url depth max_depth p, added (crawl url depth max_depth st).2 p).
Proof.
  intros Hguess added.
  assert (∀ st', inside st st' → ∀ p, added st' p) as Hadded.
  { intros st' [_ Hin] p Hp Hnew. by destruct (Hin p Hp). }
  split.
  - intros img_url. by apply Hadded, inside_download_image.
  - intros url depth max_depth. apply Hadded.
    apply (steps_crawl inside) with (P := λ _, True); try done.
    + intros A r call st1. unfold send. destruct (call (world st1)). by apply inside_same.
    + intros url' st1. by apply inside_same.
    + by apply inside_download_image.
    + intros _ n d st1 _ _ _. by apply inside_same.
Qed.

Lemma download_writes_inside_download_path_witness :
  ∃ name,
    has_chr "/" name = false ∧ name ≠ ""
    ∧ "./data/photo.jpg" = join "./data/" name
    ∧ basename "./data/photo.jpg" = name.
Proof.
  refine (proj1 (download_writes_inside_download_path example_library unit image_world
                   (init () ∅) _) "http://site.test/one/photo.jpg" "./data/photo.jpg"
                _ _).
  - intros t ext. simpl.
    destruct (String.eqb t "image/jpeg"); [by intros [= <-]|].
    destruct (String.eqb t "image/png"); [by intros [= <-]|done].
  - by_computing.
  - by_computing.
Defined.

End DownloadExtras.

(** ** Crawls *)

Section CrawlExtras.
Import NormMore.

(** X9. Neither [download_image] nor [crawl] removes or overwrites a file:
    a path that holds some content before the call holds the same content
    after it.  [crawl] leaves the download path as it was. *)
Theorem crawl_keeps_existing_files :
  ∀ (L : Library) (W : Type) (WO : World W) (st : Spider W),
    (∀ img_url p data,
       fs st !! p = Some data → fs (download_image img_url st).2 !! p = Some data)
    ∧ (∀ url depth max_depth p data,
         fs st !! p = Some data → fs (crawl url depth max_depth st).2 !! p = Some data)
    ∧ (∀ url depth max_depth,
         download_path (crawl url depth max_depth st).2 = download_path st).
Proof.
  intros L W WO st. split_and!.
  - intros img_url p data Hp.
    destruct (keeps_files_download_image img_url st) as [Hfs _].
    by apply (lookup_weaken _ _ _ _ Hp).
  - intros url depth max_depth p data Hp.
    destruct (keeps_files_crawl url depth max_depth st) as [Hfs _].
    by apply (lookup_weaken _ _ _ _ Hp).
  - intros url depth max_depth.
    by destruct (keeps_files_crawl url depth max_depth st) as [_ Hpath].
Qed.

(** X10. The log accounts for the files: [crawl] only adds lines to what
    has been printed; each line [Downloaded: ...] it adds comes with a file
    of its own, and each other file that it adds, left by a write that
    failed, comes with a line [Failed to download ...] of an [OSError].  So
    the number of files grows by the number of the first lines at least,
    and by the number of both at most; when no [OSError] is reported the
    two numbers agree. *)
Theorem files_are_accounted_for :
  ∀ (L : Library) (W : Type) (WO : World W) (st : Spider W) url depth max_depth,
    ∃ out,
      stdout (crawl url depth max_depth st).2 = stdout st ++ out
      ∧ size (fs st) + downloads out
        ≤ size (fs (crawl url depth max_depth st).2)
        ≤ size (fs st) + downloads out + os_errors out.
Proof.
  intros L W WO st url depth max_depth.
  apply (steps_crawl accounted) with (P := λ _, True); try done.
  - intros A r call st1. unfold send. destruct (call (world st1)).
    exists []. simpl. rewrite app_nil_r. split; [done|lia].
  - intros url' st1. by apply (accounted_print st1 _ (world st1) (requests st1)).
  - apply accounted_download_image.
  - intros _ n d st1 _ _ _.
    by apply (accounted_print st1 _ (world st1) (requests st1)).
Qed.

(** X11. [crawl] marks the pages it announces and no other: the visited
    set after a call is the set before it together with the pages the call
    has logged; for a new [Spider] it is the set of the pages logged. *)
Theorem visited_are_the_pages_crawled :
  (∀ (L : Library) (W : Type) (WO : World W) (st : Spider W) url depth max_depth,
     ∃ new,
       crawled (stdout (crawl url depth max_depth st).2) = crawled (stdout st) ++ new
       ∧ visited (crawl url depth max_depth st).2 = visited st ∪ list_to_set (new.*1))
  ∧ (∀ (L : Library) (W : Type) (WO : World W) (w : W) files url depth max_depth,
       visited (crawl url depth max_depth (init w files)).2
       = list_to_set ((crawled (stdout (crawl url depth max_depth (init w files)).2)).*1)).
Proof.
  assert (∀ (L : Library) (W : Type) (WO : World W) url depth max_depth,
            steps logged_rel (crawl url depth max_depth)) as Hcrawl.
  { intros L W WO url depth max_depth.
    apply (steps_crawl_framed logged_rel (λ _, True)); try done.
    - intros st st' [Hv Hl]. exists []. rewrite app_nil_r, Hv. split; [done|]. set_solver.
    - intros _ n d st _ _ _. exists [(n, d)]. simpl. rewrite crawled_app.
      split; [done|]. set_solver. }
  split.
  - intros L W WO st url depth max_depth. apply Hcrawl.
  - intros L W WO w files url depth max_depth.
    destruct (Hcrawl L W WO url depth max_depth (init w files)) as (new & -> & ->).
    simpl. set_solver.
Qed.

(** X12. Every page [crawl] processes is valid, but possibly the page it
    is called on, which it does not check; when the URL it is called on is
    valid, all of them are. *)
Theorem crawl_processes_valid_pages :
  ∀ (L : Library) (W : Type) (WO : World W) (st : Spider W) url depth max_depth,
    ∃ new,
      crawled (stdout (crawl url depth max_depth st).2) = crawled (stdout st) ++ new
      ∧ (∀ u d, (u, d) ∈ new → is_valid_url u = true ∨ normalize_url url = Some u)
      ∧ (is_valid_url url = true → ∀ u d, (u, d) ∈ new → is_valid_url u = true).
Proof.
  intros L W WO st url depth max_depth.
  destruct (valid_rel_crawl url depth max_depth st) as (new & Hlog & Hnew). exists new.
  rewrite Forall_forall in Hnew. split_and!; [done| |].
  - intros u d Hin. apply (Hnew (u, d) Hin).
  - intros Hvalid u d Hin. destruct (Hnew (u, d) Hin) as [?|Hseed]; [done|].
    by apply (normalize_url_valid url).
Qed.

(** X13. A page processed below the maximum depth is fetched twice: a call
    of [crawl] that enters the page [n] at a depth below the maximum, and
    returns, has sent a [GET] of [n] for its images and, later, a second
    [GET] of [n] for its links. *)
Theorem page_is_fetched_twice (L : Library) (W : Type) (WO : World W)
    (st : Spider W) url n depth max_depth :
  normalize_url url = Some n → n ∉ visited st → (depth < max_depth)%Z →
  (crawl url depth max_depth st).1 = Ok () →
  ∃ r1 r2,
    requests (crawl url depth max_depth st).2
    = requests st ++ GET n :: r1 ++ GET n :: r2.
Proof.
  intros Hn Hv Hd. rewrite (crawl_enter _ n) by (done || lia).
  unfold crawl_rest. rewrite bind_run.
  destruct (get_all_images_requests n (entered st n depth)) as [m1 H1].
  destruct (get_all_images n (entered st n depth)) as [[images|e] st1]; [|done].
  rewrite bind_run.
  destruct (steps_for_each grows images download_image
              (λ img _, grows_download_image img) st1) as [m2 H2].
  destruct (for_each images download_image st1) as [[[]|e] st2]; [|done].
  replace (depth <? max_depth)%Z with true by lia.
  rewrite bind_run.
  destruct (get_all_links_requests n n st2) as [m3 H3].
  destruct (get_all_links n n st2) as [[links|e] st3]; [|done].
  intros _.
  destruct (steps_for_each grows links
              (λ link, if is_valid_url link
                       then crawl link (depth + 1) max_depth else ret ())) with (st := st3)
    as [m4 H4].
  { intros link _. destruct (is_valid_url link); [apply grows_crawl|apply steps_ret, _]. }
  cbn [snd] in *. exists (m1 ++ m2), (m3 ++ m4). rewrite H4, H3, H2, H1. simpl.
  by rewrite <-!app_assoc.
Qed.

Lemma page_is_fetched_twice_witness :
  ∃ r1 r2,
    requests (crawl (L:=example_library) (WO:=chain_world) url_A 0 1 (init () ∅)).2
    = [] ++ GET url_A :: r1 ++ GET url_A :: r2.
Proof.
  apply (page_is_fetched_twice example_library unit chain_world (init () ∅)
           url_A url_A 0%Z 1%Z).
  - vm_compute. reflexivity.
  - by_computing.
  - lia.
  - vm_compute. reflexivity.
Defined.

(** X14. [crawl] processes only pages that links lead to.  On a site whose
    pages do not change, and as long as [list(links)] lists the elements of
    the set [links], a page that [crawl] logs at [k] levels below the depth
    of the call is reached from the page of the call through [k] links,
    each of them the valid normal form of [urljoin] of the URL of a page
    and the [href] of one of its anchors.  The converse does not hold: a page
    first met at the maximum depth is marked, and its links are not followed
    when it is met again higher up.  A links to B and C, B to C, C to D:
    with a maximum depth of 2, D is two links from A and is not crawled. *)
Theorem crawl_follows_links :
  (∀ (L : Library) (W : Type) (WO : World W) (page : string → option Response)
     (st : Spider W) url n depth max_depth,
     (∀ l, set_order l ≡ₚ l) →
     (∀ url w, (session_get url w).1 = page url) →
     normalize_url url = Some n →
     ∃ new,
       crawled (stdout (crawl url depth max_depth st).2) = crawled (stdout st) ++ new
       ∧ ∀ u d, (u, d) ∈ new →
                ∃ k : nat, d = (depth + Z.of_nat k)%Z ∧ reach page k n u)
  ∧ (reach (L:=example_library) diamond_page 2 url_A url_D
     ∧ crawled (stdout (crawl (L:=example_library) (WO:=diamond_world)
                              url_A 0 2 (init () ∅)).2)
       = [(url_A, 0%Z); (url_B, 1%Z); (url_C, 2%Z)]).
Proof.
  split; [|split].
  - intros L W WO page st url n depth max_depth Hperm Hstatic Hn.
    destruct (reach_crawl_fuel page Hperm Hstatic (Z.to_nat (max_depth - depth))
                url n depth max_depth Hn st) as (new & Hlog & Hnew).
    exists new. split; [done|]. intros u d Hin.
    rewrite Forall_forall in Hnew. apply (Hnew (u, d) Hin).
  - exists url_C. split.
    + exists (html_page ["/B"; "/C"] []), "/C", url_C.
      split_and!; [done|by_computing| |done]. split_and!; [done..|].
      exists url_C. by vm_compute.
    + exists url_D. split; [|done].
      exists (html_page ["/D"] []), "/D", url_D.
      split_and!; [done|by_computing| |done]. split_and!; [done..|].
      exists url_D. by vm_compute.
  - by vm_compute.
Qed.

Lemma crawl_follows_links_witness :
  ∃ new,
    crawled (stdout (crawl (L:=example_library) (WO:=diamond_world)
                           url_A 0 2 (init () ∅)).2) = [] ++ new
    ∧ ∀ u d, (u, d) ∈ new →
             ∃ k : nat, d = (0 + Z.of_nat k)%Z
                        ∧ reach (L:=example_library) diamond_page k url_A u.
Proof.
  apply (proj1 crawl_follows_links example_library unit diamond_world diamond_page
           (init () ∅) url_A url_A 0%Z 2%Z).
  - intros l. reflexivity.
  - intros url w. reflexivity.
  - vm_compute. reflexivity.
Defined.

End CrawlExtras.

(** ** Exceptions *)

Section ErrorExtras.

(** X16. One link that [urllib.parse] rejects aborts the crawl of the page.
    When a new page below the maximum depth answers every [GET] with
    anchors one of which makes the body of the loop of [get_all_links]
    raise, [crawl] raises [ValueError]: neither [get_all_links] nor [crawl]
    catches it. *)
Theorem malformed_link_aborts_crawl (L : Library) (W : Type) (WO : World W)
    (st : Spider W) url n depth max_depth response a :
  normalize_url url = Some n → n ∉ visited st → (depth < max_depth)%Z →
  (∀ w, (session_get n w).1 = Some response) →
  a ∈ a_href (text response) →
  link_step n [] a = None →
  (crawl url depth max_depth st).1 = Raise ValueError.
Proof.
  intros Hn Hv Hd Hget Hin Hbad. rewrite (crawl_enter _ n) by (done || lia).
  unfold crawl_rest. rewrite bind_run.
  pose proof (raises_only_get_all_images n (entered st n depth)) as Himages.
  destruct (get_all_images n (entered st n depth)) as [[images|e] st1];
    [|by rewrite (Himages e)].
  rewrite bind_run.
  destruct (returns_for_each images download_image returns_download_image st1)
    as [[] Hdl].
  destruct (for_each images download_image st1) as [[[]|e] st2]; [|done].
  replace (depth <? max_depth)%Z with true by lia.
  rewrite bind_run. unfold get_all_links. rewrite bind_run.
  specialize (Hget (world st2)).
  destruct (session_get n (world st2)) as [[response'|] w] eqn:Hw; [|done].
  simpl in Hget. injection Hget as ->.
  rewrite (get_page_ok _ _ _ _ Hw), bind_run.
  by rewrite (links_loop_raises n a).
Qed.

Lemma malformed_link_aborts_crawl_witness :
  (crawl (L:=example_library) (WO:=broken_world) url_B 1 5
         (entered (init () ∅) url_A 0)).1 = Raise ValueError.
Proof.
  apply (malformed_link_aborts_crawl example_library unit broken_world
           (entered (init () ∅) url_A 0) url_B url_B 1%Z 5%Z
           (html_page ["/D"; "http://["] []) "http://[").
  - vm_compute. reflexivity.
  - by_computing.
  - lia.
  - intros []. reflexivity.
  - by_computing.
  - vm_compute. reflexivity.
Defined.

(** X17. The bare [except] of [get_all_images] covers the [HEAD] request
    only.  When the page has an [img] whose [src], not empty, is rejected by
    [urljoin], [crawl] raises [ValueError] right after it has announced the
    page: no file has been written and nothing else has been printed. *)
Theorem malformed_image_source_aborts_crawl (L : Library) (W : Type) (WO : World W)
    (st : Spider W) url n depth max_depth response w a :
  normalize_url url = Some n → n ∉ visited st → (depth ≤ max_depth)%Z →
  session_get n (world st) = (Some response, w) →
  a ∈ img_src (text response) →
  Py.is_empty (Py.strip_ws a) = false →
  Urllib.urljoin n (Py.strip_ws a) = None →
  (crawl url depth max_depth st).1 = Raise ValueError
  ∧ fs (crawl url depth max_depth st).2 = fs st
  ∧ stdout (crawl url depth max_depth st).2 = stdout st ++ [Crawling n depth].
Proof.
  intros Hn Hv Hd Hget Hin Hsrc Hjoin. rewrite (crawl_enter _ n) by done.
  unfold crawl_rest, get_all_images. rewrite !bind_run.
  rewrite (get_page_ok n (entered st n depth) response w) by done.
  rewrite bind_run.
  pose proof (images_loop_raises n a _ [] (fetched (entered st n depth) n w)
                Hin Hsrc Hjoin) as Hraise.
  destruct (probes_images_loop n (img_src (text response)) []
              (fetched (entered st n depth) n w)) as (_ & _ & _ & Hfs & Hout & _).
  destruct (images_loop n [] (img_src (text response))
              (fetched (entered st n depth) n w)) as [[images|e] st']; [done|].
  simpl in *. by injection Hraise as ->.
Qed.

Lemma malformed_image_source_aborts_crawl_witness :
  (crawl (L:=example_library)
         (WO:=static_world [(url_A, html_page ["/B"] ["logo.png"; "http://["])] [])
         url_A 0 5 (init () ∅)).1 = Raise ValueError.
Proof.
  refine (proj1 (malformed_image_source_aborts_crawl example_library unit
                   (static_world [(url_A, html_page ["/B"] ["logo.png"; "http://["])] [])
                   (init () ∅) url_A url_A 0%Z 5%Z
                   (html_page ["/B"] ["logo.png"; "http://["]) () "http://["
                   _ _ _ _ _ _ _)).
  - vm_compute. reflexivity.
  - by_computing.
  - lia.
  - reflexivity.
  - by_computing.
  - reflexivity.
  - vm_compute. reflexivity.
Defined.

End ErrorExtras.

(** ** The command line *)

Section RunExtras.
Import NormMore.
#[local] Existing Instance frame_preorder.

(** X18. Without [-r] the program processes the page it is given and no
    other, whatever [-l] is.  For a valid URL and a spider that has visited
    nothing, unless [os.makedirs] raised, the log holds the normalized URL
    at depth 0 alone, the visited set holds that URL alone, and the run is
    the same for every [-l]. *)
Theorem run_without_r_crawls_one_page (L : Library) (W : Type) (WO : World W)
    (HO : Host W) (p : Process W) args :
  arg_r args = false →
  is_valid_url (arg_url args) = true →
  visited (spider p) = ∅ →
  (run args p).1 ≠ Raise OSError →
  ∃ n, normalize_url (arg_url args) = Some n
       ∧ crawled (stdout (spider (run args p).2))
         = crawled (stdout (spider p)) ++ [(n, 0%Z)]
       ∧ visited (spider (run args p).2) = {[n]}
       ∧ ∀ l, run (mkNamespace false l (arg_p args) (arg_url args)) p = run args p.
Proof.
  intros Hr Hvalid Hfresh Hos.
  assert (∀ l, run (mkNamespace false l (arg_p args) (arg_url args)) p = run args p)
    as Hl'.
  { intros l. destruct args as [r' l' p' url']. simpl in *. by subst r'. }
  destruct (normalize_url_parts _ Hvalid) as (sc & nl & pa & Hn & _).
  eexists. split; [exact Hn|].
  set (n := (sc +:+ "://" +:+ nl +:+ pa)%string) in *.
  setoid_rewrite Hl'. clear Hl'.
  rewrite run_valid in * by done. unfold run_depth in *. rewrite Hr in *. simpl negb in *.
  cbv iota in *. rewrite bind_run in *.
  destruct (prepare_spec args (spider p)) as (_ & Hout & Hvis & _ & Hprep).
  destruct (prepare args (spider p)) as [[[]|e] st1]; simpl in Hprep, Hout, Hvis;
    [|destruct Hprep as [?|[= ->]]; done].
  assert (n ∉ visited st1) as Hnew by (rewrite Hvis, Hfresh; set_solver).
  rewrite (crawl_enter _ n) by done.
  assert (steps frame (crawl_rest (λ link, crawl link (0 + 1) 0) n 0 0)) as Hframe.
  { unfold crawl_rest.
    apply steps_bind; [apply _|apply frame_get_all_images|intros images].
    apply steps_bind; [apply _| |intros _; apply steps_ret, _].
    apply steps_for_each; [apply _|]. intros img _. apply frame_download_image. }
  destruct (Hframe (entered st1 n 0)) as [Hv Hl].
  destruct (crawl_rest _ n 0 0 (entered st1 n 0)) as [r st2]. simpl in *.
  split_and!.
  - by rewrite Hl, crawled_app, Hout.
  - rewrite Hv, Hvis, Hfresh. set_solver.
  - done.
Qed.

Lemma run_without_r_crawls_one_page_witness :
  ∃ n, normalize_url (L:=example_library) url_A = Some n
       ∧ crawled (stdout (spider (main (L:=example_library) (WO:=chain_world)
                                       (HO:=ready_host)
                                       (mkNamespace false 5 None url_A) () ∅).2))
         = [] ++ [(n, 0%Z)]
       ∧ visited (spider (main (L:=example_library) (WO:=chain_world)
                               (HO:=ready_host)
                               (mkNamespace false 5 None url_A) () ∅).2) = {[n]}
       ∧ ∀ l, run (L:=example_library) (WO:=chain_world) (HO:=ready_host)
                  (mkNamespace false l None url_A) (mkProcess (init () ∅) [])
              = main (L:=example_library) (WO:=chain_world) (HO:=ready_host)
                     (mkNamespace false 5 None url_A) () ∅.
Proof.
  apply (run_without_r_crawls_one_page example_library unit chain_world ready_host
           (mkProcess (init () ∅) []) (mkNamespace false 5 None url_A)).
  - reflexivity.
  - vm_compute. reflexivity.
  - reflexivity.
  - vm_compute. discriminate.
Defined.

(** X19. Every page [run] processes is valid, and is processed at a depth
    from 0 to the [-l] of the command line, which counts for 0 without
    [-r]. *)
Theorem run_pages_valid_and_bounded :
  ∀ (L : Library) (W : Type) (WO : World W) (HO : Host W) (p : Process W) args,
    ∃ new,
      crawled (stdout (spider (run args p).2)) = crawled (stdout (spider p)) ++ new
      ∧ ∀ u d, (u, d) ∈ new →
               is_valid_url u = true
               ∧ (0 ≤ d ≤ if arg_r args then arg_l args else 0)%Z.
Proof.
  intros L W WO HO p args.
  destruct (is_valid_url (arg_url args)) eqn:Hvalid.
  - rewrite run_valid by done. rewrite bind_run.
    destruct (prepare_spec args (spider p)) as (_ & Hout & _).
    destruct (prepare args (spider p)) as [[[]|e] st1]; simpl in Hout.
    + destruct (valid_rel_crawl (arg_url args) 0 (run_depth args) st1)
        as (new & Hlog & Hnew).
      destruct (crawl_rel_spec (arg_url args) 0 (run_depth args) st1)
        as (_ & new' & Hlog' & _ & Hnew').
      rewrite Hlog in Hlog'. apply app_inv_head in Hlog' as <-.
      destruct (crawl _ _ _ st1) as [r st2]. simpl in *.
      exists new. rewrite Hlog, Hout. split; [done|]. intros u d Hin. split.
      * rewrite Forall_forall in Hnew. destruct (Hnew _ Hin) as [?|Hseed]; [done|].
        by apply (normalize_url_valid (arg_url args)).
      * destruct (Hnew' _ _ Hin) as (_ & _ & Hd). unfold run_depth in Hd.
        by destruct (arg_r args).
    + exists []. simpl. rewrite Hout, app_nil_r. split; [done|].
      intros u d Hin. by apply elem_of_nil in Hin.
  - unfold run. rewrite Hvalid. exists []. simpl. rewrite app_nil_r. split; [done|].
    intros u d Hin. by apply elem_of_nil in Hin.
Qed.

(** X20. [run] sends no request, prints no line of the spider, marks no
    page and writes no file when the URL is not valid, when [-r] comes with
    a negative [-l], or when the download directory could not be made.  For
    a URL that is not valid it prints [Invalid URL provided] and leaves the
    spider as it was, the download path included. *)
Theorem run_sends_nothing (L : Library) (W : Type) (WO : World W) (HO : Host W)
    (p : Process W) args :
  is_valid_url (arg_url args) = false
  ∨ (arg_r args = true ∧ (arg_l args < 0)%Z)
  ∨ (run args p).1 = Raise OSError →
  requests (spider (run args p).2) = requests (spider p)
  ∧ stdout (spider (run args p).2) = stdout (spider p)
  ∧ visited (spider (run args p).2) = visited (spider p)
  ∧ fs (spider (run args p).2) = fs (spider p)
  ∧ (is_valid_url (arg_url args) = false →
     run args p = (Ok (), mkProcess (spider p) (notices p ++ [InvalidURLProvided]))).
Proof.
  intros Hcase.
  destruct (is_valid_url (arg_url args)) eqn:Hvalid;
    [|unfold run; by rewrite Hvalid].
  rewrite run_valid in * by done. rewrite bind_run in *.
  destruct (prepare_spec args (spider p)) as (Hreq & Hout & Hvis & Hfs & _).
  destruct (prepare args (spider p)) as [[[]|e] st1]; simpl in *; [|done].
  destruct Hcase as [?|[[Hr Hl]|Hos]]; [done| |].
  - destruct (normalize_url_parts _ Hvalid) as (sc & nl & pa & Hn & _).
    rewrite (crawl_pruned _ _ _ _ _ Hn); [done|].
    left. unfold run_depth. rewrite Hr. simpl. lia.
  - pose proof (raises_only_crawl_fuel (Z.to_nat (run_depth args - 0)) (arg_url args)
                  0 (run_depth args) st1 OSError) as Hraise.
    fold (crawl (arg_url args) 0 (run_depth args)) in Hraise.
    destruct (crawl (arg_url args) 0 (run_depth args) st1) as [r st2].
    simpl in *. by specialize (Hraise Hos).
Qed.

Lemma run_sends_nothing_witness :
  run (L:=example_library) (WO:=chain_world) (HO:=locked_host)
      (mkNamespace true 5 (Some "out") "ftp://site.test/A") (mkProcess (init () ∅) [])
  = (Ok (), mkProcess (init () ∅) [InvalidURLProvided]).
Proof.
  refine (proj2 (proj2 (proj2 (proj2
            (run_sends_nothing example_library unit chain_world locked_host
               (mkProcess (init () ∅) [])
               (mkNamespace true 5 (Some "out") "ftp://site.test/A") _)))) _).
  - left. vm_compute. reflexivity.
  - vm_compute. reflexivity.
Defined.

End RunExtras.
